(** * AudioStyleNet: the StyleGAN2 latent projector ([projector.py])

    A shallow embedding of the [Projector] class and the properties of its
    optimisation schedule.

    Modelling conventions.
    - Python floats and torch float tensors are real numbers ([R]); rounding
      is not modelled.  Python integers are [Z].
    - A 2-D tensor is a [list (list R)] of rows; an image tensor carries its
      [shape] as a list of dimensions.
    - torch tensors are mutable objects: a tensor object ([tensor]) lives in
      an object store and points to a storage cell holding its data, so that
      [detach()] (a new object on the same storage) and the in-place update
      of [Adam.step] alias as they do in torch.
    - Methods are computations in a state-and-exception monad [M]; a Python
      exception aborts the computation.
    - The generator, the perceptual loss, the resampler [utils.downsample_256],
      the random source and reverse-mode differentiation are opaque
      collaborators, gathered in the class [Externals] and the record
      [Generator].
    - The collaborators are total functions; torch's losses fault on images
      of different shapes.  Statements about the normal return of [run] are
      therefore made for targets that are [comparable]: once prepared, they
      have the shape of the generated image.
    - Console output ([print], [tqdm]) is not modelled.  The ghost field
      [steps_log] records every invocation of [step] with its index and
      progress fraction; no definition reads it. *)

From Stdlib Require Import Reals Lra Lia ZArith Ascii.
From Equations Require Import Equations.
From stdpp Require Import gmap list strings sorting.

Open Scope R_scope.

(** ** Python exceptions *)

Inductive exn : Set :=
| ZeroDivisionError
| TypeError
| IndexError
| AttributeError
| RuntimeError.

Inductive result (A : Type) : Type :=
| Ok (a : A)
| Raise (e : exn).
Arguments Ok {A} a.
Arguments Raise {A} e.

(** ** Tensors as values *)

Definition vsum (v : list R) : R := foldr Rplus 0 v.
Definition msum (m : list (list R)) : R := vsum (map vsum m).

Definition vzip (f : R → R → R) (a b : list R) : list R := zip_with f a b.
Definition mzip (f : R → R → R) (a b : list (list R)) : list (list R) :=
  zip_with (vzip f) a b.
Definition mmap (f : R → R) (a : list (list R)) : list (list R) := map (map f) a.

Definition vadd : list R → list R → list R := vzip Rplus.
Definition madd : list (list R) → list (list R) → list (list R) := mzip Rplus.
(** [tensor * scalar] *)
Definition mscale (a : list (list R)) (c : R) : list (list R) :=
  mmap (λ x, x * c) a.
Definition zeros_like (a : list (list R)) : list (list R) := mmap (λ _, 0) a.

(** [x - row] with [row] broadcast along dimension 0. *)
Definition msub_row (x : list (list R)) (row : list R) : list (list R) :=
  map (λ r, vzip Rminus r row) x.

(** [x.sum(0)] and [x.mean(0)]: reduction along dimension 0. *)
Fixpoint sum0 (x : list (list R)) : list R :=
  match x with
  | [] => []
  | [r] => r
  | r :: x' => vadd r (sum0 x')
  end.
Definition mean0 (x : list (list R)) : list R :=
  map (λ a, a / INR (length x)) (sum0 x).

(** [x.repeat(n, 1)] for a 2-D tensor: [n] copies stacked along dimension 0. *)
Definition repeat_rows (x : list (list R)) (n : nat) : list (list R) :=
  concat (repeat x n).

(** An image tensor: only its shape is inspected by the projector. *)
Record Image : Type := mkImage { shape : list nat; pixels : list R }.

(** [img.unsqueeze(0)] *)
Definition unsqueeze0 (img : Image) : Image :=
  {| shape := 1%nat :: shape img; pixels := pixels img |}.

(** ** Collaborators *)

(** The frozen generator [g]: its mapping network [style] (applied to a batch
    of noise vectors), its synthesis call
    [g(styles, input_is_latent=..., noise=...)], which returns a pair whose
    first component is the image, its number of latent layers and its own
    noise buffers. *)
Record Generator : Type := mkGenerator {
  style : list (list R) → list (list R);
  forward : list (list (list (list R))) → bool → list (list (list R))
            → Image * option (list (list (list R)));
  n_latent : nat;
  noises : list (list (list R));
}.

Class Externals : Type := {
  (** global torch random generator *)
  Rng : Type;
  manual_seed : Z → Rng;
  randn : nat → nat → Rng → list (list R) * Rng;
  randn_like : list (list R) → Rng → list (list R) * Rng;
  (** [PerceptualLoss(model='net-lin', net='vgg')]: per-sample distances *)
  lpips : Image → Image → list R;
  (** [F.mse_loss] *)
  mse_loss : Image → Image → R;
  (** [utils.downsample_256] *)
  downsample_256 : Image → Image;
  (** reverse-mode differentiation: [autograd f x] is the gradient that
      [backward()] accumulates in a leaf whose value is [x] when the loss
      was computed from it as [f] *)
  autograd : (list (list R) → R) → list (list R) → list (list R);
}.

(** ** Tensor objects and the optimizer *)

(** Tensor objects ([ref]) and storage cells ([loc]) are named by positive
    numbers. *)
Abbreviation ref := positive (only parsing).
Abbreviation loc := positive (only parsing).

Record tensor : Type := mkTensor {
  storage : loc;
  requires_grad : bool;
  grad : option (list (list R));
}.

Global Instance tensor_inhabited : Inhabited tensor :=
  populate (mkTensor 1%positive false None).

Definition set_requires_grad (b : bool) (x : tensor) : tensor :=
  mkTensor (storage x) b (grad x).
Definition set_grad (g : option (list (list R))) (x : tensor) : tensor :=
  mkTensor (storage x) (requires_grad x) g.

(** Per-parameter state of [torch.optim.Adam]. *)
Record adam_state : Type := mkAdamState {
  adam_step : nat;
  exp_avg : list (list R);
  exp_avg_sq : list (list R);
}.

Record param_group : Type := mkGroup {
  params : list ref;
  group_lr : R;
}.

Record Adam : Type := mkAdam {
  param_groups : list param_group;
  opt_state : gmap ref adam_state;
}.

(** Adam's default hyper-parameters ([betas=(0.9, 0.999)], [eps=1e-8],
    no weight decay, no amsgrad). *)
Definition beta1 : R := 0.9.
Definition beta2 : R := 0.999.
Definition adam_eps : R := 1e-8.

(** One Adam update of one parameter with gradient [g]:
    returns the new value and the new moment estimates. *)
Definition adam_update (lr : R) (st : option adam_state)
    (p g : list (list R)) : list (list R) * adam_state :=
  let st0 := default (mkAdamState 0 (zeros_like p) (zeros_like p)) st in
  let k := S (adam_step st0) in
  let bias_correction1 := 1 - beta1 ^ k in
  let bias_correction2 := 1 - beta2 ^ k in
  let m := mzip (λ m gi, m * beta1 + (1 - beta1) * gi) (exp_avg st0) g in
  let v := mzip (λ v gi, v * beta2 + (1 - beta2) * (gi * gi)) (exp_avg_sq st0) g in
  let denom := mmap (λ vi, sqrt vi / sqrt bias_correction2 + adam_eps) v in
  let step_size := lr / bias_correction1 in
  (madd p (mscale (mzip Rdiv m denom) (- step_size)), mkAdamState k m v).

(** ** The Projector object *)

(** The attributes of [Projector] that the modelled methods read or write.
    [target_image] is [None] until [prepare_input] creates the attribute;
    [verbose], [device], [regularize_noise_weight] and the unused
    [target_images] are left out. *)
Record Projector : Type := mkProjector {
  num_steps : Z;
  n_mean_latent : Z;
  mse_strength : R;
  initial_lr : R;
  lr : R;
  initial_noise_factor : R;
  lr_rampdown_length : R;
  lr_rampup_length : R;
  noise_ramp_length : R;
  latent_expr : option (list (list R));
  target_image : option Image;
  loss : option R;
  cur_step : option Z;
  g_ema : Generator;
  latent_mean : list R;
  latent_std : R;
  latent_in : ref;
  opt : Adam;
  img_gen : option Image;
}.

Definition set_num_steps (v : Z) (p : Projector) : Projector :=
  mkProjector v (p.(n_mean_latent)) (p.(mse_strength)) (p.(initial_lr))
    (p.(lr)) (p.(initial_noise_factor)) (p.(lr_rampdown_length))
    (p.(lr_rampup_length)) (p.(noise_ramp_length)) (p.(latent_expr))
    (p.(target_image)) (p.(loss)) (p.(cur_step)) (p.(g_ema))
    (p.(latent_mean)) (p.(latent_std)) (p.(latent_in)) (p.(opt))
    (p.(img_gen)).
Definition set_lr (v : R) (p : Projector) : Projector :=
  mkProjector (p.(num_steps)) (p.(n_mean_latent)) (p.(mse_strength))
    (p.(initial_lr)) v (p.(initial_noise_factor)) (p.(lr_rampdown_length))
    (p.(lr_rampup_length)) (p.(noise_ramp_length)) (p.(latent_expr))
    (p.(target_image)) (p.(loss)) (p.(cur_step)) (p.(g_ema))
    (p.(latent_mean)) (p.(latent_std)) (p.(latent_in)) (p.(opt))
    (p.(img_gen)).
Definition set_latent_expr (v : option (list (list R))) (p : Projector) : Projector :=
  mkProjector (p.(num_steps)) (p.(n_mean_latent)) (p.(mse_strength))
    (p.(initial_lr)) (p.(lr)) (p.(initial_noise_factor))
    (p.(lr_rampdown_length)) (p.(lr_rampup_length)) (p.(noise_ramp_length))
    v (p.(target_image)) (p.(loss)) (p.(cur_step)) (p.(g_ema))
    (p.(latent_mean)) (p.(latent_std)) (p.(latent_in)) (p.(opt))
    (p.(img_gen)).
Definition set_target_image (v : option Image) (p : Projector) : Projector :=
  mkProjector (p.(num_steps)) (p.(n_mean_latent)) (p.(mse_strength))
    (p.(initial_lr)) (p.(lr)) (p.(initial_noise_factor))
    (p.(lr_rampdown_length)) (p.(lr_rampup_length)) (p.(noise_ramp_length))
    (p.(latent_expr)) v (p.(loss)) (p.(cur_step)) (p.(g_ema))
    (p.(latent_mean)) (p.(latent_std)) (p.(latent_in)) (p.(opt))
    (p.(img_gen)).
Definition set_loss (v : option R) (p : Projector) : Projector :=
  mkProjector (p.(num_steps)) (p.(n_mean_latent)) (p.(mse_strength))
    (p.(initial_lr)) (p.(lr)) (p.(initial_noise_factor))
    (p.(lr_rampdown_length)) (p.(lr_rampup_length)) (p.(noise_ramp_length))
    (p.(latent_expr)) (p.(target_image)) v (p.(cur_step)) (p.(g_ema))
    (p.(latent_mean)) (p.(latent_std)) (p.(latent_in)) (p.(opt))
    (p.(img_gen)).
Definition set_cur_step (v : option Z) (p : Projector) : Projector :=
  mkProjector (p.(num_steps)) (p.(n_mean_latent)) (p.(mse_strength))
    (p.(initial_lr)) (p.(lr)) (p.(initial_noise_factor))
    (p.(lr_rampdown_length)) (p.(lr_rampup_length)) (p.(noise_ramp_length))
    (p.(latent_expr)) (p.(target_image)) (p.(loss)) v (p.(g_ema))
    (p.(latent_mean)) (p.(latent_std)) (p.(latent_in)) (p.(opt))
    (p.(img_gen)).
Definition set_opt (v : Adam) (p : Projector) : Projector :=
  mkProjector (p.(num_steps)) (p.(n_mean_latent)) (p.(mse_strength))
    (p.(initial_lr)) (p.(lr)) (p.(initial_noise_factor))
    (p.(lr_rampdown_length)) (p.(lr_rampup_length)) (p.(noise_ramp_length))
    (p.(latent_expr)) (p.(target_image)) (p.(loss)) (p.(cur_step))
    (p.(g_ema)) (p.(latent_mean)) (p.(latent_std)) (p.(latent_in)) v
    (p.(img_gen)).
Definition set_img_gen (v : option Image) (p : Projector) : Projector :=
  mkProjector (p.(num_steps)) (p.(n_mean_latent)) (p.(mse_strength))
    (p.(initial_lr)) (p.(lr)) (p.(initial_noise_factor))
    (p.(lr_rampdown_length)) (p.(lr_rampup_length)) (p.(noise_ramp_length))
    (p.(latent_expr)) (p.(target_image)) (p.(loss)) (p.(cur_step))
    (p.(g_ema)) (p.(latent_mean)) (p.(latent_std)) (p.(latent_in)) (p.(opt))
    v.

(** ** The method monad and the methods *)

Section Projector.
Context `{E : Externals}.

(** The program state: the projector object, the tensor objects and their
    storages, the global random generator, and the ghost log of [step]
    invocations. *)
Record State : Type := mkState {
  self : Projector;
  objects : gmap positive tensor;
  memory : gmap positive (list (list R));
  rng : Rng;
  steps_log : list (Z * R);
}.

Definition set_self (v : Projector) (s : State) : State :=
  mkState v (objects s) (memory s) (rng s) (steps_log s).
Definition set_objects (v : gmap positive tensor) (s : State) : State :=
  mkState (self s) v (memory s) (rng s) (steps_log s).
Definition set_memory (v : gmap positive (list (list R))) (s : State) : State :=
  mkState (self s) (objects s) v (rng s) (steps_log s).
Definition set_rng (v : Rng) (s : State) : State :=
  mkState (self s) (objects s) (memory s) v (steps_log s).
Definition set_steps_log (v : list (Z * R)) (s : State) : State :=
  mkState (self s) (objects s) (memory s) (rng s) v.

Definition M (A : Type) : Type := State → result (A * State).

Global Instance M_ret : MRet M := λ A a s, Ok (a, s).
Global Instance M_bind : MBind M := λ A B f m s,
  match m s with
  | Ok (a, s') => f a s'
  | Raise e => Raise e
  end.

Definition raise {A} (e : exn) : M A := λ _, Raise e.
Definition get : M State := λ s, Ok (s, s).
Definition modify (f : State → State) : M unit := λ s, Ok ((), f s).
Definition get_self : M Projector := λ s, Ok (self s, s).
Definition modify_self (f : Projector → Projector) : M unit :=
  modify (λ s, set_self (f (self s)) s).

(** Reading an attribute that holds [None] (or does not exist yet). *)
Definition from_option {A} (e : exn) (o : option A) : M A :=
  match o with
  | Some a => mret a
  | None => raise e
  end.

(** Python's true division [a / b] on numbers. *)
Definition py_div (a b : R) : M R :=
  if Req_EM_T b 0 then raise ZeroDivisionError else mret (a / b).

(** [for x in xs: body(x)] *)
Fixpoint for_each {A} (xs : list A) (body : A → M unit) : M unit :=
  match xs with
  | [] => mret ()
  | x :: xs' => body x ;; for_each xs' body
  end.

(** [range(n)] *)
Definition range (n : Z) : list Z := map Z.of_nat (seq 0 (Z.to_nat n)).

(** The data a tensor object currently holds. *)
Definition tensor_value (s : State) (r : ref) : list (list R) :=
  memory s !!! storage (objects s !!! r).

(** [torch.randn_like(x)]: draws from the global generator. *)
Definition draw_like (x : list (list R)) : M (list (list R)) := λ s,
  let sample := randn_like x (rng s) in Ok (sample.1, set_rng sample.2 s).

(** *** The optimizer *)

(** [opt.zero_grad()]: drops the gradient of every parameter.  (Older torch
    versions zero it in place instead; the gradient accumulated by the next
    [backward()] is the same.) *)
Definition zero_grad (o : Adam) (objs : gmap positive tensor)
    : gmap positive tensor :=
  foldl (λ acc grp, foldl (λ acc p, alter (set_grad None) p acc) acc (params grp))
        objs (param_groups o).

(** [loss.backward()] for a loss computed from the single leaf [leaf] as
    [f]: the gradient is accumulated into [leaf.grad]. *)
Definition backward (f : list (list R) → R) (leaf : ref) : M unit :=
  s ← get;
  let x := objects s !!! leaf in
  if requires_grad x then
    let g := autograd f (memory s !!! storage x) in
    let g' := match grad x with None => g | Some g0 => madd g0 g end in
    modify (set_objects (<[leaf := set_grad (Some g') x]> (objects s)))
  else raise RuntimeError.

Definition adam_param (lr : R) (objs : gmap positive tensor) (p : ref)
    (acc : gmap positive (list (list R)) * gmap positive adam_state)
    : gmap positive (list (list R)) * gmap positive adam_state :=
  let x := objs !!! p in
  match grad x with
  | None => acc
  | Some g =>
      let u := adam_update lr (acc.2 !! p) (acc.1 !!! storage x) g in
      (<[storage x := u.1]> acc.1, <[p := u.2]> acc.2)
  end.

(** [opt.step()]: every parameter that has a gradient is updated in place. *)
Definition opt_step : M unit :=
  s ← get;
  let o := opt (self s) in
  let r :=
    foldl (λ acc grp,
             foldl (λ acc p, adam_param (group_lr grp) (objects s) p acc)
                   acc (params grp))
          (memory s, opt_state o) (param_groups o) in
  modify (λ s, set_memory r.1
                 (set_self (set_opt (mkAdam (param_groups o) r.2) (self s)) s)).

(** *** Methods *)

Definition update_lr (t : R) : M unit :=
  p ← get_self;
  d ← py_div (1.0 - t) (lr_rampdown_length p);
  let lr_ramp := Rmin 1.0 d in
  let lr_ramp := 0.5 - 0.5 * cos (lr_ramp * PI) in
  u ← py_div t (lr_rampup_length p);
  let lr_ramp := lr_ramp * Rmin 1.0 u in
  modify_self (set_lr (initial_lr p * lr_ramp));;
  p ← get_self;
  match param_groups (opt p) with
  | [] => raise IndexError
  | grp :: rest =>
      modify_self (set_opt (mkAdam (mkGroup (params grp) (lr p) :: rest)
                                   (opt_state (opt p))))
  end.

(** Batch-dimension promotion of [prepare_input]:
    [if len(target_image.shape) == 3: target_image = target_image.unsqueeze(0)]. *)
Definition promoted (target_image : Image) : Image :=
  if (length (shape target_image) =? 3)%nat
  then unsqueeze0 target_image else target_image.

Definition prepare_input (target_image : Image) : M unit :=
  let target_image := promoted target_image in
  h ← from_option IndexError (shape target_image !! 2%nat);
  let target_image :=
    if (256 <? h)%nat then downsample_256 target_image else target_image in
  modify_self (set_target_image (Some target_image)).

(** [noise_strength] of [step], as a function of the progress fraction. *)
Definition noise_strength (p : Projector) (t : R) : M R :=
  q ← py_div t (noise_ramp_length p);
  mret (latent_std p * initial_noise_factor p * (Rmax 0.0 (1.0 - q)) ^ 2).

(** The image the generator renders for a latent, downsampled:
    [utils.downsample_256(g_ema([w.unsqueeze(0)], input_is_latent=True,
    noise=g_ema.noises)[0])]. *)
Definition render (g : Generator) (w : list (list R)) : Image :=
  downsample_256 (forward g [[w]] true (noises g)).1.

(** The scalar loss of a generated image. *)
Definition loss_of (p : Projector) (target : Image) (img : Image) : R :=
  let l := vsum (lpips img target) in
  if Req_EM_T (mse_strength p) 0 then l
  else l + mse_loss img target * mse_strength p.

Definition step : M unit :=
  p ← get_self;
  cur ← from_option TypeError (cur_step p);
  t ← py_div (IZR cur) (IZR (num_steps p));
  (* ghost: record this invocation *)
  modify (λ s, set_steps_log (steps_log s ++ [(cur, t)]) s);;
  (* Add noise to dlatents *)
  strength ← noise_strength p t;
  s ← get;
  z ← draw_like (tensor_value s (latent_in p));
  let latent_noise := mscale z strength in
  modify_self (set_latent_expr (Some (madd (tensor_value s (latent_in p)) latent_noise)));;
  (* Update learning rate *)
  update_lr t;;
  (* Train *)
  modify_self (set_img_gen
    (Some (render (g_ema p) (madd (tensor_value s (latent_in p)) latent_noise))));;
  target ← from_option AttributeError (target_image p);
  let objective (x : list (list R)) : R :=
    loss_of p target (render (g_ema p) (madd x latent_noise)) in
  modify_self (set_loss (Some (objective (tensor_value s (latent_in p)))));;
  (* Update params *)
  s ← get;
  modify (set_objects (zero_grad (opt (self s)) (objects s)));;
  backward objective (latent_in p);;
  opt_step.

(** The body of the loop of [run]. *)
Definition loop_body (i_step : Z) : M unit :=
  modify_self (set_cur_step (Some i_step));;
  step.

Definition run (target_images : Image) (steps : Z) : M unit :=
  modify_self (set_num_steps steps);;
  prepare_input target_images;;
  p ← get_self;
  for_each (range (num_steps p)) loop_body.

Definition get_images : M Image :=
  s ← get;
  let p := self s in
  mret (forward (g_ema p) [[tensor_value s (latent_in p)]] true (noises (g_ema p))).1.

(** [x.detach()]: a new tensor object on the storage of [x], cut from the
    graph. *)
Definition detach (x : ref) : M ref :=
  s ← get;
  let r := fresh (dom (objects s)) in
  modify (set_objects (<[r := mkTensor (storage (objects s !!! x)) false None]> (objects s)));;
  mret r.

Definition get_latents : M ref :=
  p ← get_self;
  detach (latent_in p).

(** *** Construction *)

(** The statistics of the latent distribution, from the mapped samples
    [latent_out]:
    [latent_mean = latent_out.mean(0)] and
    [latent_std = ((latent_out - latent_mean).pow(2).sum() / n_mean_latent) ** 0.5]. *)
Definition latent_stats (n_mean_latent : Z) (latent_out : list (list R))
    : list R * R :=
  let latent_mean := mean0 latent_out in
  (latent_mean,
   sqrt (msum (mmap (λ x, x ^ 2) (msub_row latent_out latent_mean))
         / IZR n_mean_latent)).

(** [Projector.__init__].  The constructor runs in the tensor store
    [objs]/[mem] of its caller; [initial_latent], when given, is a tensor
    object of that store.  It reseeds the global generator, so the
    generator's previous state is not an input. *)
Definition init (g : Generator) (steps : Z)
    (mse initial_learning_rate noise_factor rampdown rampup noise_ramp : R)
    (initial_latent : option ref)
    (objs : gmap positive tensor) (mem : gmap positive (list (list R)))
    (log : list (Z * R)) : State :=
  let n_mean := 10000%Z in
  (* Find latent stats *)
  let sample := randn (Z.to_nat n_mean) 512 (manual_seed 123) in
  let latent_out := style g sample.1 in
  let stats := latent_stats n_mean latent_out in
  let '(latent, objs, mem) :=
    match initial_latent with
    | None =>
        let l := fresh (dom mem) in
        let r := fresh (dom objs) in
        (r, <[r := mkTensor l false None]> objs,
            <[l := repeat_rows [stats.1] (n_latent g)]> mem)
    | Some r => (r, objs, mem)
    end in
  let objs := alter (set_requires_grad true) latent objs in
  (* Init optimizer *)
  let adam := mkAdam [mkGroup [latent] initial_learning_rate] ∅ in
  mkState
    (mkProjector steps n_mean mse initial_learning_rate initial_learning_rate
       noise_factor rampdown rampup noise_ramp None None None None
       g stats.1 stats.2 latent adam None)
    objs mem sample.2 log.

End Projector.

(** * Invariants and frames *)

Section Invariants.
Context `{E : Externals}.

(** A projector as [__init__] leaves it: the optimizer has one parameter
    group over the stored latent alone, and the stored latent is a live
    tensor object that requires grad. *)
Definition constructed (s : State) : Prop :=
  (∃ l, param_groups (opt (self s)) = [mkGroup [latent_in (self s)] l]) ∧
  (∃ x, objects s !! latent_in (self s) = Some x ∧ requires_grad x = true).

Definition positive_ramps (p : Projector) : Prop :=
  0 < lr_rampdown_length p ∧ 0 < lr_rampup_length p ∧ 0 < noise_ramp_length p.

(** The attributes fixed at construction: the latent statistics, the
    generator, the identity of the stored latent and the hyper-parameters. *)
Definition same_configuration (p p' : Projector) : Prop :=
  latent_in p' = latent_in p ∧
  latent_mean p' = latent_mean p ∧
  latent_std p' = latent_std p ∧
  g_ema p' = g_ema p ∧
  n_mean_latent p' = n_mean_latent p ∧
  mse_strength p' = mse_strength p ∧
  initial_lr p' = initial_lr p ∧
  initial_noise_factor p' = initial_noise_factor p ∧
  lr_rampdown_length p' = lr_rampdown_length p ∧
  lr_rampup_length p' = lr_rampup_length p ∧
  noise_ramp_length p' = noise_ramp_length p.

(** Every tensor object other than the stored latent is untouched, and the
    stored latent stays on its storage. *)
Definition same_tensors (s s' : State) : Prop :=
  (∀ r, r ≠ latent_in (self s) → objects s' !! r = objects s !! r) ∧
  storage <$> objects s' !! latent_in (self s)
    = storage <$> objects s !! latent_in (self s).

End Invariants.

(** * The specification's formulas *)

(** Effective learning rate:
    [initial_learning_rate × ramp_down_eased × ramp_up]. *)
Definition lr_schedule (initial_learning_rate rampdown rampup t : R) : R :=
  initial_learning_rate
  * (0.5 - 0.5 * cos (Rmin 1 ((1 - t) / rampdown) * PI))
  * Rmin 1 (t / rampup).

(** Noise magnitude:
    [latent_spread × initial_noise_factor × max(0, 1 − t / noise_ramp_length)²]. *)
Definition noise_magnitude (spread factor noise_ramp t : R) : R :=
  spread * factor * (Rmax 0 (1 - t / noise_ramp))².

(** Entry [(i, j)] of a 2-D tensor. *)
Definition entry (x : list (list R)) (i j : nat) : R := nth j (nth i x []) 0.

(** Sum of [f 0 .. f (n-1)]. *)
Fixpoint big_sum (n : nat) (f : nat → R) : R :=
  match n with
  | O => 0
  | S n' => big_sum n' f + f n'
  end.

(** Mean of column [j] over the [n] samples. *)
Definition column_mean (x : list (list R)) (n : nat) (j : nat) : R :=
  big_sum n (λ i, entry x i j) / INR n.

(** Squared deviation from the column means, summed over all [n] samples
    and all [d] dimensions. *)
Definition total_sq_dev (x : list (list R)) (n d : nat) : R :=
  big_sum n (λ i, big_sum d (λ j, (entry x i j - column_mean x n j)²)).

(** Root-mean-square deviation over all dimensions and samples. *)
Definition rms_spread (x : list (list R)) (n d : nat) : R :=
  sqrt (total_sq_dev x n d / (INR n * INR d)).

(** The larger of the two spatial dimensions of a batched image
    (shape [B, C, H, W]). *)
Definition larger_spatial_dim (img : Image) : nat :=
  Nat.max (nth 2 (shape img) 0%nat) (nth 3 (shape img) 0%nat).

Section Readings.
Context `{E : Externals}.

(** The reading under which the optimizer update of a step starts from the
    perturbed latent: the stored latent after the step is the Adam update of
    [latent_expr] with the accumulated gradient. *)
Definition update_starts_from_perturbed (s s' : State) : Prop :=
  let r := latent_in (self s) in
  ∃ perturbed g,
    latent_expr (self s') = Some perturbed ∧
    grad <$> objects s' !! r = Some (Some g) ∧
    tensor_value s' r
      = (adam_update (lr (self s')) (opt_state (opt (self s)) !! r) perturbed g).1.

End Readings.

(** * Stand-ins for the collaborators

    Small concrete collaborators on which the model can be run: a
    generator whose mapping network keeps the first two coordinates and
    whose synthesis renders a latent as the image of its entries, a
    perceptual loss that is the difference of the pixel sums, a resampler
    that only resets the spatial size, and a counter in place of the random
    generator ([randn_like] fills the sample with the counter's value).  The
    loss of a step is then the sum of the entries of the perturbed latent
    minus a constant, whose gradient is [1] in every entry: that is what the
    stand-in for [autograd] returns. *)

Definition toy_generator : Generator :=
  {| style := map (take 2);
     forward := λ styles _ _,
       (mkImage [1; 3; 1024; 1024]%nat (concat (concat (concat styles))), None);
     n_latent := 1;
     noises := [] |}.

Definition toy_externals : Externals :=
  {| Rng := nat;
     manual_seed := Z.to_nat;
     randn := λ n m k,
       (map (λ i, repeat (INR (k + i)) m) (seq 0 n), (k + n)%nat);
     randn_like := λ x k, (mmap (λ _, INR k) x, S k);
     lpips := λ a b, [vsum (pixels a) - vsum (pixels b)];
     mse_loss := λ _ _, 0;
     downsample_256 := λ img,
       mkImage (take 2 (shape img) ++ [256; 256]%nat) (pixels img);
     autograd := λ _ x, mmap (λ _, 1) x |}.

(** A projector with the default hyper-parameters whose stored latent is the
    1×1 tensor [[0]], for a latent distribution of mean [0] and spread [1]. *)
Definition toy_projector : Projector :=
  mkProjector 1000 10000 0 0.1 0.1 0.05 0.25 0.05 0.75 None None None None
    toy_generator [0] 1 1%positive
    (mkAdam [mkGroup [1%positive] 0.1] ∅) None.

Definition toy_state : @State toy_externals :=
  @mkState toy_externals toy_projector
    {[1%positive := mkTensor 1%positive true None]}
    {[1%positive := [[0]]]}
    1%nat [].

Definition toy_target : Image := mkImage [3; 256; 256]%nat [].

(** A target that is wider than 256 but not taller. *)
Definition toy_wide : Image := mkImage [3; 200; 300]%nat [].

Section StandInStates.
#[local] Existing Instance toy_externals.

(** The state in which [run toy_target 1], called on [toy_state], invokes
    [step]. *)
Definition toy_entry : State :=
  set_self (set_cur_step (Some 0%Z)
             (set_target_image (Some (unsqueeze0 toy_target))
               (set_num_steps 1 toy_projector))) toy_state.

(** The mapped samples from which the constructor estimates the latent
    statistics, for the stand-in generator. *)
Definition toy_latent_out : list (list R) :=
  style toy_generator (randn (Z.to_nat 10000) 512 (manual_seed 123)).1.

(** A summary of a state of the stand-in projector: the stored latent is
    [[a]], Adam has made [k] updates with moment estimates [[m]] and [[v]],
    the random generator is at [c]. *)
Definition toy_at (s : State) (a : R) (k : nat) (m v : R) (i : option Z) (T : Z)
    (tg : option Image) (c : nat) : Prop :=
  same_configuration toy_projector (self s) ∧
  (∃ l, param_groups (opt (self s)) = [mkGroup [1%positive] l]) ∧
  (∃ x, objects s !! 1%positive = Some x ∧ storage x = 1%positive ∧ requires_grad x = true) ∧
  memory s !! 1%positive = Some [[a]] ∧
  default (mkAdamState 0 [[0]] [[0]]) (opt_state (opt (self s)) !! 1%positive)
    = mkAdamState k [[m]] [[v]] ∧
  cur_step (self s) = i ∧
  num_steps (self s) = T ∧
  target_image (self s) = tg ∧
  rng s = c.

Definition toy_rate (t : R) : R :=
  0.1 * ((0.5 - 0.5 * cos (Rmin 1.0 ((1.0 - t) / 0.25) * PI)) * Rmin 1.0 (t / 0.05)).

Definition toy_next (rate a : R) (k : nat) (m v : R) : R :=
  a + (m * beta1 + (1 - beta1) * 1)
      / (sqrt (v * beta2 + (1 - beta2) * (1 * 1)) / sqrt (1 - beta2 ^ S k) + adam_eps)
      * - (rate / (1 - beta1 ^ S k)).

End StandInStates.

(** Record and state normalisation for symbolic execution. *)
Ltac norm :=
  unfold tensor_value;
  cbn [self objects memory rng steps_log
       set_self set_objects set_memory set_rng set_steps_log tensor_value
       num_steps n_mean_latent mse_strength initial_lr lr initial_noise_factor
       lr_rampdown_length lr_rampup_length noise_ramp_length latent_expr
       target_image loss cur_step g_ema latent_mean latent_std latent_in opt
       img_gen set_num_steps set_lr set_latent_expr set_target_image set_loss
       set_cur_step set_opt set_img_gen param_groups opt_state params group_lr
       fst snd].

Ltac norm_in H :=
  unfold tensor_value in H;
  cbn [self objects memory rng steps_log
       set_self set_objects set_memory set_rng set_steps_log tensor_value
       num_steps n_mean_latent mse_strength initial_lr lr initial_noise_factor
       lr_rampdown_length lr_rampup_length noise_ramp_length latent_expr
       target_image loss cur_step g_ema latent_mean latent_std latent_in opt
       img_gen set_num_steps set_lr set_latent_expr set_target_image set_loss
       set_cur_step set_opt set_img_gen param_groups opt_state params group_lr
       fst snd] in H.

(** * Noise maps: [noise_regularization] and [normalize_noise]

    A noise map is a tensor of shape [[1, 1, H, W]], modelled by its [H]
    rows.  [self.noises] is never assigned by [__init__]; both methods are
    modelled as functions of that attribute, [None] standing for the missing
    attribute.  A torch result that is not a number (a mean of no element,
    [0/0]) is [None]. *)

(** [x.numel()] *)
Definition numel (x : list (list R)) : nat := length (concat x).

(** [x.mean()] *)
Definition tmean (x : list (list R)) : option R :=
  if (numel x =? 0)%nat then None else Some (msum x / INR (numel x)).

(** [x.std()], with Bessel's correction *)
Definition tstd (x : list (list R)) : option R :=
  if (numel x <=? 1)%nat then None
  else mean ← tmean x;
       Some (sqrt (msum (mmap (λ a, (a - mean) ^ 2) x) / INR (numel x - 1))).

(** [x.roll(1, dims=d)] along one dimension: the last entry comes first. *)
Definition roll1 {A} (l : list A) : list A :=
  drop (length l - 1) l ++ take (length l - 1) l.

(** [a + b] and [a.pow(2)] on possibly-nan scalars *)
Definition nan_add (a b : option R) : option R :=
  x ← a; y ← b; Some (x + y).
Definition nan_pow2 (a : option R) : option R := (λ x, x ^ 2) <$> a.

(** One level of the pyramid:
    [(noise * noise.roll(1, dims=3)).mean().pow(2)
     + (noise * noise.roll(1, dims=2)).mean().pow(2)]. *)
Definition level_term (noise : list (list R)) : option R :=
  nan_add (nan_pow2 (tmean (mzip Rmult noise (map roll1 noise))))
          (nan_pow2 (tmean (mzip Rmult noise (roll1 noise)))).

(** [noise.reshape([1, 1, size // 2, 2, size // 2, 2]).mean(dim=[3, 5])] on a
    [size × size] map: the mean of every 2×2 block. *)
Fixpoint pool_row (r1 r2 : list R) : list R :=
  match r1, r2 with
  | a :: b :: r1', c :: d :: r2' => (a + b + c + d) / 4 :: pool_row r1' r2'
  | _, _ => []
  end.
Fixpoint pool (x : list (list R)) : list (list R) :=
  match x with
  | r1 :: r2 :: x' => pool_row r1 r2 :: pool x'
  | _ => []
  end.

(** The [while True] loop of [noise_regularization] for one noise map.
    [reshape] raises when the number of elements does not fit the new
    shape. *)
Equations pyramid (size : nat) (noise : list (list R)) (reg_loss : option R)
    : result (option R) by wf size lt :=
pyramid size noise reg_loss with decide (size ≤ 8)%nat := {
  | left _ => Ok (nan_add reg_loss (level_term noise))
  | right _ =>
      if (numel noise =? 1 * 1 * (size / 2) * 2 * (size / 2) * 2)%nat
      then pyramid (size / 2) (pool noise) (nan_add reg_loss (level_term noise))
      else Raise RuntimeError }.
Next Obligation. intros. apply Nat.div_lt; lia. Qed.

Fixpoint reg_noises (noises : list (list (list R))) (reg_loss : option R)
    : result (option R) :=
  match noises with
  | [] => Ok reg_loss
  | noise :: rest =>
      match pyramid (length noise) noise reg_loss with
      | Ok reg_loss => reg_noises rest reg_loss
      | Raise e => Raise e
      end
  end.

Definition noise_regularization (noises : option (list (list (list R))))
    : result (option R) :=
  match noises with
  | None => Raise AttributeError
  | Some noises => reg_noises noises (Some 0.0)
  end.

(** [noise.data.add_(-mean).div_(std)]: the new content of one noise map;
    [None] when it is filled with nan. *)
Definition normalized (noise : list (list R)) : option (list (list R)) :=
  mean ← tmean noise;
  std ← tstd noise;
  if Req_EM_T std 0 then None
  else Some (mmap (λ a, (a + - mean) / std) noise).

(** [normalize_noise]: the content of each noise map afterwards. *)
Definition normalize_noise (noises : option (list (list (list R))))
    : result (list (option (list (list R)))) :=
  match noises with
  | None => Raise AttributeError
  | Some noises => Ok (map normalized noises)
  end.

(** A [n × n] map. *)
Definition square (n : nat) (x : list (list R)) : Prop :=
  length x = n ∧ Forall (λ r, length r = n) x.

(** Sizes [m · 2^j] with [1 <= m <= 8]. *)
Definition dyadic_size (n : nat) : Prop :=
  ∃ m j, (1 ≤ m ≤ 8)%nat ∧ n = (m * 2 ^ j)%nat.

(** Two 2-D tensors of the same shape. *)
Definition same_shape (a b : list (list R)) : Prop :=
  Forall2 (λ r r', length r = length r') a b.

(** * The script: output paths and the batch loop

    The script is modelled from [proj = Projector(g)] on.  The file system
    is a collaborator ([Files]): [os.path.isdir], [glob.glob] and the loading
    of an image file are its functions.  What the script writes is the list
    of [output]s it returns; [os.makedirs] and console output are not
    modelled.  Strings are lists of characters. *)

Global Instance result_ret : MRet result := λ A a, Ok a.
Global Instance result_bind : MBind result := λ A B f r,
  match r with
  | Ok a => f a
  | Raise e => Raise e
  end.

(** [s.split(sep)] for a one-character separator *)
Fixpoint split (sep : ascii) (s : list ascii) : list (list ascii) :=
  match s with
  | [] => [[]]
  | c :: s' =>
      if Ascii.eqb c sep then [] :: split sep s'
      else match split sep s' with
           | piece :: pieces => (c :: piece) :: pieces
           | [] => [[c]]
           end
  end.

(** [xs[-1]] and [xs[0]] *)
Definition py_last {A} (xs : list A) : result A :=
  match last xs with
  | Some x => Ok x
  | None => Raise IndexError
  end.
Definition py_first {A} (xs : list A) : result A :=
  match xs with
  | x :: _ => Ok x
  | [] => Raise IndexError
  end.

(** [save_dir = args.output_dir;
     if save_dir[-1] != '/': save_dir = save_dir + '/'] *)
Definition save_dir_of (output_dir : list ascii) : result (list ascii) :=
  c ← py_last output_dir;
  if negb (Ascii.eqb c "/") then mret (output_dir ++ ["/"%char])
  else mret output_dir.

(** [file.split('/')[-1].split('.')[0]] *)
Definition stem (file : list ascii) : result (list ascii) :=
  name ← py_last (split "/" file);
  py_first (split "." name).

Definition png_suffix : list ascii := String.list_ascii_of_string "_p.png".
Definition latent_suffix : list ascii := String.list_ascii_of_string "_p.latent.pt".

(** What the script writes: [save_image(generated, path, ...)] and
    [torch.save(latents.detach().cpu(), path)]. *)
Inductive output : Type :=
| SaveImage (path : list ascii) (img : Image)
| SaveLatent (path : list ascii) (data : list (list R)).

Definition out_path (o : output) : list ascii :=
  match o with SaveImage p _ => p | SaveLatent p _ => p end.

(** The file system as the script reads it.  [open_image file] is the
    tensor [transform(Image.open(file).convert('RGB'))], of shape
    [[3, H, W]]; loading is taken to succeed. *)
Record Files : Type := mkFiles {
  isdir : list ascii → bool;
  glob : list ascii → list (list ascii);
  open_image : list ascii → Image }.

Definition png_pattern : list ascii := String.list_ascii_of_string "*.png".
Definition jpg_pattern : list ascii := String.list_ascii_of_string "*.jpg".

(** [a <= b] on strings: by code points, a proper prefix first. *)
Fixpoint str_leb (a b : list ascii) : bool :=
  match a, b with
  | [], _ => true
  | _ :: _, [] => false
  | x :: a', y :: b' =>
      if (nat_of_ascii x <? nat_of_ascii y)%nat then true
      else if (nat_of_ascii y <? nat_of_ascii x)%nat then false
      else str_leb a' b'
  end.

Definition str_le (a b : list ascii) : Prop := Is_true (str_leb a b).

Global Instance str_le_dec : RelDecision str_le := λ a b, Is_true_dec (str_leb a b).

(** [sorted(xs)] on strings *)
Definition sorted (xs : list (list ascii)) : list (list ascii) :=
  merge_sort str_le xs.

Section Script.
Context `{E : Externals}.

Definition lift {A} (r : result A) : M A := λ s,
  match r with
  | Ok a => Ok (a, s)
  | Raise e => Raise e
  end.

(** The loop [for i, file in enumerate(sorted(image_files))], from index
    [i] on. *)
Fixpoint project_files (fs : Files) (i : nat) (image_files : list (list ascii))
    (save_dir : list ascii) (bool_save_image : bool) : M (list output) :=
  match image_files with
  | [] => mret []
  | file :: rest =>
      (* Load image *)
      let target_image := open_image fs file in
      (* Run projector *)
      run target_image (if (i =? 0)%nat then 2000 else 100);;
      (* Collect results *)
      generated ← get_images;
      latents ← get_latents;
      (* Save results *)
      name ← lift (stem file);
      let save_str := save_dir ++ name in
      let images :=
        if bool_save_image then [SaveImage (save_str ++ png_suffix) generated]
        else [] in
      cpu ← detach latents;
      s ← get;
      let saved := SaveLatent (save_str ++ latent_suffix) (tensor_value s cpu) in
      later ← project_files fs (S i) rest save_dir bool_save_image;
      mret (images ++ saved :: later)
  end.

(** The files to project and whether images are saved: a directory gives
    what the two patterns match, anything else is taken as one file. *)
Definition image_files_of (fs : Files) (path : list ascii)
    : list (list ascii) * bool :=
  if isdir fs path
  then (glob fs (path ++ png_pattern) ++ glob fs (path ++ jpg_pattern), false)
  else ([path], true).

(** The script from [proj = Projector(g)] on; [path] is [--input]. *)
Definition main (fs : Files) (g : Generator) (path output_dir : list ascii)
    (objs : gmap positive tensor) (mem : gmap positive (list (list R)))
    (log : list (Z * R)) : result (list output * State) :=
  let proj := init g 1000 0 0.1 0.05 0.25 0.05 0.75 None objs mem log in
  (* Load target image *)
  let '(image_files, bool_save_image) := image_files_of fs path in
  (* Specify save_dir *)
  match save_dir_of output_dir with
  | Ok save_dir =>
      (* Project images *)
      project_files fs 0 (sorted image_files) save_dir bool_save_image proj
  | Raise e => Raise e
  end.

(** The entries [step] logs during a run of [T] steps. *)
Definition steps_of (T : Z) : list (Z * R) :=
  map (λ i, (i, IZR i / IZR T)) (range T).

End Script.

(** * Well-formed targets and the optimiser's update count *)

Section Targets.
Context `{E : Externals}.

(** The target that [prepare_input] stores. *)
Definition prepared (target_image : Image) : Image :=
  let target_image := promoted target_image in
  match shape target_image !! 2%nat with
  | Some h => if (256 <? h)%nat then downsample_256 target_image else target_image
  | None => target_image
  end.

(** The perceptual loss and the pixel loss compare two images of equal
    shape; on other arguments torch faults, while [lpips] and [mse_loss] are
    total here.  A target is comparable when, once prepared, it has the shape
    of every image [step] generates: the statements about the normal return
    of [run] are made for such targets. *)
Definition comparable (g : Generator) (target_image : Image) : Prop :=
  ∀ w, shape (render g w) = shape (prepared target_image).

(** The number of updates Adam has made to the stored latent:
    [opt.state[latent_in]['step']], and [0] before the first update. *)
Definition updates_made (s : State) : nat :=
  match opt_state (opt (self s)) !! latent_in (self s) with
  | Some st => adam_step st
  | None => 0
  end.

End Targets.

(** * Shapes of the latent and of the Adam moments *)

(** The Adam moments, when there are any, have the shape of their
    parameter. *)
Definition moments_shaped (st : option adam_state) (p : list (list R)) : Prop :=
  ∀ st0, st = Some st0 → same_shape p (exp_avg st0) ∧ same_shape p (exp_avg_sq st0).

Section Shapes.
Context `{E : Externals}.

(** The stored latent and the optimiser's moments for it agree in shape. *)
Definition well_shaped (s : State) : Prop :=
  moments_shaped (opt_state (opt (self s)) !! latent_in (self s))
                 (tensor_value s (latent_in (self s))).

End Shapes.

(** * Further stand-ins *)

(** A target without channel dimension. *)
Definition toy_matrix : Image := mkImage [256; 256]%nat [].

Section MoreStandIns.
#[local] Existing Instance toy_externals.

(** The stand-in projector with [lr_rampdown_length = 0]. *)
Definition toy_no_rampdown : State :=
  set_self
    (mkProjector 1000 10000 0 0.1 0.1 0.05 0 0.05 0.75 None None None None
       toy_generator [0] 1 1%positive
       (mkAdam [mkGroup [1%positive] 0.1] ∅) None)
    toy_state.

(** A file system in which [in/] is a directory with the files [b.png] and
    [a.jpg], every image file loading as [toy_target]. *)
Definition toy_files : Files :=
  {| isdir := λ path, bool_decide (path = String.list_ascii_of_string "in/");
     glob := λ pattern,
       if bool_decide (pattern = String.list_ascii_of_string "in/*.png")
       then [String.list_ascii_of_string "in/b.png"]
       else if bool_decide (pattern = String.list_ascii_of_string "in/*.jpg")
       then [String.list_ascii_of_string "in/a.jpg"]
       else [];
     open_image := λ _, toy_target |}.

(** A projector constructed with [lr_rampdown_length = 0]. *)
Definition toy_flat_rampdown : State :=
  init toy_generator 1000 0 0.1 0.05 0 0.05 0.75 None ∅ ∅ [].

Definition toy_output_dir : list ascii := String.list_ascii_of_string "out".

End MoreStandIns.

(** * Properties *)

(** ** The schedules as real functions *)

Lemma lr_schedule_start l d u : u ≠ 0 → lr_schedule l d u 0 = 0.
Proof.
  intros Hu. unfold lr_schedule.
  replace (0 / u) with 0 by (field; exact Hu).
  rewrite (Rmin_right 1 0) by lra. lra.
Qed.

Lemma lr_schedule_plateau l d u t :
  0 < d → 0 < u → d <= 1 - t → u <= t → lr_schedule l d u t = l.
Proof.
  intros Hd Hu H1 H2. unfold lr_schedule.
  assert (1 <= (1 - t) / d).
  { apply (Rmult_le_reg_r d); [exact Hd|]. field_simplify; lra. }
  assert (1 <= t / u).
  { apply (Rmult_le_reg_r u); [exact Hu|]. field_simplify; lra. }
  rewrite !Rmin_left by assumption.
  rewrite Rmult_1_l, cos_PI. lra.
Qed.

Lemma cos_near_zero eps : 0 < eps → ∃ a, 0 < a ∧ ∀ x, Rabs x < a → 1 - cos x < eps.
Proof.
  intros Heps.
  destruct (continuity_cos 0 eps Heps) as (a & Ha & Hc).
  exists a. split; [exact Ha|]. intros x Hx.
  destruct (Req_dec x 0) as [->|Hne].
  - rewrite cos_0. lra.
  - specialize (Hc x). simpl in Hc. unfold Rdist in Hc.
    rewrite cos_0, Rminus_0_r in Hc.
    assert (Hlt : Rabs (cos x - 1) < eps).
    { apply Hc. split; [|exact Hx]. split; [exact I|]. intros Heq. apply Hne. by symmetry. }
    apply Rabs_def2 in Hlt. lra.
Qed.

Lemma lr_schedule_end l d u :
  0 < d → 0 < u →
  ∀ eps, 0 < eps → ∃ delta, 0 < delta ∧
    ∀ t, 1 - delta < t < 1 → Rabs (lr_schedule l d u t) < eps.
Proof.
  intros Hd Hu eps Heps.
  assert (Hl : 0 < Rabs l + 1) by (pose proof (Rabs_pos l); lra).
  destruct (cos_near_zero (eps / (Rabs l + 1))) as (a & Ha & Hcos).
  { by apply Rdiv_lt_0_compat. }
  assert (Hpi := PI_RGT_0).
  exists (Rmin (Rmin 1 d) (d * a / PI)). split.
  { repeat apply Rmin_glb_lt; try lra.
    apply Rdiv_lt_0_compat; [|exact Hpi]. by apply Rmult_lt_0_compat. }
  intros t [Ht1 Ht2].
  assert (Hm1 : 1 - t < 1).
  { pose proof (Rmin_l (Rmin 1 d) (d * a / PI)). pose proof (Rmin_l 1 d). lra. }
  assert (Hm2 : 1 - t < d).
  { pose proof (Rmin_l (Rmin 1 d) (d * a / PI)). pose proof (Rmin_r 1 d). lra. }
  assert (Hm3 : 1 - t < d * a / PI).
  { pose proof (Rmin_r (Rmin 1 d) (d * a / PI)). lra. }
  set (x := (1 - t) / d).
  assert (Hx0 : 0 < x) by (apply Rdiv_lt_0_compat; lra).
  assert (Hx1 : x < 1).
  { apply (Rmult_lt_reg_r d); [exact Hd|]. unfold x. field_simplify; lra. }
  assert (Hxa : x * PI < a).
  { unfold x. apply (Rmult_lt_reg_r (d / PI)).
    { apply Rdiv_lt_0_compat; lra. }
    field_simplify; lra. }
  unfold lr_schedule. fold x. rewrite (Rmin_right 1 x) by lra.
  assert (Hc : 1 - cos (x * PI) < eps / (Rabs l + 1)).
  { apply Hcos. rewrite Rabs_pos_eq; [exact Hxa|]. apply Rmult_le_pos; lra. }
  assert (Hc0 : 0 <= 1 - cos (x * PI)) by (pose proof (COS_bound (x * PI)); lra).
  assert (Hr : 0 <= Rmin 1 (t / u) <= 1).
  { split; [|apply Rmin_l]. apply Rmin_glb; [lra|].
    apply Rlt_le, Rdiv_lt_0_compat; lra. }
  set (e := 1 - cos (x * PI)) in *. set (r := Rmin 1 (t / u)) in *.
  replace (l * (0.5 - 0.5 * cos (x * PI)) * r) with (l * (0.5 * e * r)) by (unfold e; lra).
  rewrite Rabs_mult. rewrite (Rabs_pos_eq (0.5 * e * r)) by nra.
  assert (He : e * (Rabs l + 1) < eps).
  { apply (Rmult_lt_reg_r (/ (Rabs l + 1))); [by apply Rinv_0_lt_compat|].
    rewrite Rmult_assoc, Rinv_r by lra. unfold Rdiv in Hc. lra. }
  pose proof (Rabs_pos l). nra.
Qed.

Lemma noise_magnitude_mono c f n t1 t2 :
  0 <= c → 0 <= f → 0 < n → t1 <= t2 →
  noise_magnitude c f n t2 <= noise_magnitude c f n t1.
Proof.
  intros Hc Hf Hn Ht. unfold noise_magnitude.
  assert (Hq : t1 / n <= t2 / n).
  { unfold Rdiv. apply Rmult_le_compat_r; [|exact Ht]. apply Rlt_le. by apply Rinv_0_lt_compat. }
  assert (H1 : 0 <= Rmax 0 (1 - t2 / n)) by apply Rmax_l.
  assert (H2 : Rmax 0 (1 - t2 / n) <= Rmax 0 (1 - t1 / n)).
  { apply Rle_max_compat_l. lra. }
  unfold Rsqr. apply Rmult_le_compat_l; [by apply Rmult_le_pos|]. nra.
Qed.

Lemma noise_magnitude_off c f n t :
  0 < n → n <= t → noise_magnitude c f n t = 0.
Proof.
  intros Hn Ht. unfold noise_magnitude.
  assert (1 <= t / n).
  { apply (Rmult_le_reg_r n); [exact Hn|]. field_simplify; lra. }
  rewrite Rmax_left by lra. unfold Rsqr. lra.
Qed.

(** ** Sums over tensors *)

Lemma big_sum_ext n f g :
  (∀ i, (i < n)%nat → f i = g i) → big_sum n f = big_sum n g.
Proof.
  induction n as [|n IH]; intros H; [done|]. cbn [big_sum].
  rewrite IH by (intros; apply H; lia). rewrite H by lia. done.
Qed.

Lemma big_sum_shift n f : big_sum (S n) f = f 0%nat + big_sum n (λ i, f (S i)).
Proof.
  induction n as [|n IH]; [cbn; lra|].
  change (big_sum (S (S n)) f) with (big_sum (S n) f + f (S n)).
  rewrite IH. cbn [big_sum]. lra.
Qed.

Lemma big_sum_nonneg n f : (∀ i, (i < n)%nat → 0 <= f i) → 0 <= big_sum n f.
Proof.
  induction n as [|n IH]; intros H; [cbn; lra|]. cbn [big_sum].
  assert (0 <= big_sum n f) by (apply IH; intros; apply H; lia).
  assert (0 <= f n) by (apply H; lia). lra.
Qed.

Lemma big_sum_ge_term n f k :
  (∀ i, (i < n)%nat → 0 <= f i) → (k < n)%nat → f k <= big_sum n f.
Proof.
  induction n as [|n IH]; intros H Hk; [lia|]. cbn [big_sum].
  assert (0 <= big_sum n f) by (apply big_sum_nonneg; intros; apply H; lia).
  assert (0 <= f n) by (apply H; lia).
  destruct (decide (k = n)) as [->|]; [lra|].
  assert (f k <= big_sum n f) by (apply IH; [intros; apply H|]; lia). lra.
Qed.

Lemma nth_vzip f (a b : list R) j :
  (j < length a)%nat → (j < length b)%nat →
  nth j (vzip f a b) 0 = f (nth j a 0) (nth j b 0).
Proof.
  revert b j. induction a as [|x a IH]; intros [|y b] j Ha Hb; simpl in *; try lia.
  destruct j; [done|]. apply IH; lia.
Qed.

Lemma length_vzip f (a b : list R) :
  length a = length b → length (vzip f a b) = length a.
Proof. intros H. unfold vzip. rewrite length_zip_with. lia. Qed.

Lemma sum0_cons r x :
  x ≠ [] → sum0 (r :: x) = vadd r (sum0 x).
Proof. by destruct x. Qed.

Lemma sum0_length d x :
  x ≠ [] → Forall (λ r, length r = d) x → length (sum0 x) = d.
Proof.
  induction x as [|r x IH]; intros Hne Hall; [done|].
  apply Forall_cons in Hall as [Hr Hx].
  destruct x as [|r' x]; [done|].
  rewrite sum0_cons by done. unfold vadd. rewrite length_vzip; [done|].
  rewrite IH; done.
Qed.

Lemma sum0_nth d x j :
  x ≠ [] → Forall (λ r, length r = d) x → (j < d)%nat →
  nth j (sum0 x) 0 = big_sum (length x) (λ i, entry x i j).
Proof.
  induction x as [|r x IH]; intros Hne Hall Hj; [done|].
  apply Forall_cons in Hall as [Hr Hx].
  destruct x as [|r' x].
  - cbn. unfold entry. cbn. lra.
  - rewrite sum0_cons by done.
    unfold vadd. rewrite nth_vzip.
    + rewrite IH by done.
      change (length (r :: r' :: x)) with (S (length (r' :: x))).
      rewrite big_sum_shift. reflexivity.
    + lia.
    + rewrite (sum0_length d); done.
Qed.

Lemma mean0_length d x :
  x ≠ [] → Forall (λ r, length r = d) x → length (mean0 x) = d.
Proof. intros. unfold mean0. rewrite length_map. by apply sum0_length. Qed.

Lemma mean0_nth d x j :
  x ≠ [] → Forall (λ r, length r = d) x → (j < d)%nat →
  nth j (mean0 x) 0 = column_mean x (length x) j.
Proof.
  intros Hne Hall Hj. unfold mean0, column_mean.
  rewrite <- (sum0_nth d) by done.
  replace 0 with (0 / INR (length x)) at 1 by (unfold Rdiv; ring).
  by rewrite (map_nth (λ a, a / INR (length x))).
Qed.

Lemma vsum_big_sum (l : list R) : vsum l = big_sum (length l) (λ j, nth j l 0).
Proof.
  induction l as [|a l IH]; [done|].
  change (length (a :: l)) with (S (length l)). rewrite big_sum_shift.
  cbn [vsum foldr nth]. fold (vsum l). by rewrite IH.
Qed.

Lemma msum_big_sum (m : list (list R)) :
  msum m = big_sum (length m) (λ i, vsum (nth i m [])).
Proof.
  unfold msum. rewrite vsum_big_sum, length_map.
  apply big_sum_ext. intros i _.
  change 0 with (vsum []) at 1. by rewrite (map_nth vsum).
Qed.

Lemma sq_dev_sum d x (mean : list R) :
  Forall (λ r, length r = d) x → length mean = d →
  msum (mmap (λ a, a ^ 2) (msub_row x mean))
  = big_sum (length x) (λ i, big_sum d (λ j, (entry x i j - nth j mean 0)²)).
Proof.
  intros Hall Hm. rewrite msum_big_sum.
  unfold mmap, msub_row. rewrite !length_map.
  apply big_sum_ext. intros i Hi.
  change (@nil R) with (map (λ a, a ^ 2) (vzip Rminus [] mean)) at 1.
  rewrite (map_nth (map (λ a : R, a ^ 2))).
  rewrite (map_nth (λ r, vzip Rminus r mean)).
  assert (Hlen : length (nth i x []) = d).
  { rewrite Forall_forall in Hall. apply Hall. apply list_elem_of_In, nth_In. exact Hi. }
  rewrite vsum_big_sum, length_map, length_vzip by congruence. rewrite Hlen.
  apply big_sum_ext. intros j Hj.
  replace 0 with ((λ a, a ^ 2) 0) at 1 by (cbn; ring).
  rewrite (map_nth (λ a, a ^ 2)).
  rewrite nth_vzip by lia. unfold entry. by rewrite Rsqr_pow2.
Qed.

Lemma total_sq_dev_nonneg x n d : 0 <= total_sq_dev x n d.
Proof.
  unfold total_sq_dev. apply big_sum_nonneg. intros i _.
  apply big_sum_nonneg. intros j _. apply Rle_0_sqr.
Qed.

Lemma total_sq_dev_pos x n d i1 i2 j :
  (i1 < n)%nat → (i2 < n)%nat → (j < d)%nat →
  entry x i1 j ≠ entry x i2 j → 0 < total_sq_dev x n d.
Proof.
  intros H1 H2 Hj Hne.
  assert (Hterm : ∀ i, (i < n)%nat →
    (entry x i j - column_mean x n j)² <= total_sq_dev x n d).
  { intros i Hi. unfold total_sq_dev.
    etrans; [|apply (big_sum_ge_term n _ i); [|exact Hi]].
    - apply (big_sum_ge_term d (λ j, (entry x i j - column_mean x n j)²) j); [|exact Hj].
      intros. apply Rle_0_sqr.
    - intros. apply big_sum_nonneg. intros. apply Rle_0_sqr. }
  destruct (Rle_lt_or_eq_dec _ _ (total_sq_dev_nonneg x n d)) as [Hpos|Hz]; [exact Hpos|].
  exfalso. apply Hne.
  assert (E1 := Hterm i1 H1). assert (E2 := Hterm i2 H2).
  rewrite <- Hz in E1, E2.
  assert (Z1 : (entry x i1 j - column_mean x n j)² = 0).
  { apply Rle_antisym; [exact E1|apply Rle_0_sqr]. }
  assert (Z2 : (entry x i2 j - column_mean x n j)² = 0).
  { apply Rle_antisym; [exact E2|apply Rle_0_sqr]. }
  apply Rsqr_0_uniq in Z1, Z2. lra.
Qed.

(** ** Symbolic execution of the methods *)

Section Execution.
Context `{E : Externals}.

Lemma bind_ok {A B} (m : M A) (f : A → M B) s a s' :
  m s = Ok (a, s') → (m ≫= f) s = f a s'.
Proof. intros H. unfold mbind, M_bind. by rewrite H. Qed.

Lemma py_div_ok a b s : b ≠ 0 → py_div a b s = Ok (a / b, s).
Proof. intros Hb. unfold py_div. by destruct (Req_EM_T b 0). Qed.

Lemma update_lr_ok t s grp rest :
  lr_rampdown_length (self s) ≠ 0 →
  lr_rampup_length (self s) ≠ 0 →
  param_groups (opt (self s)) = grp :: rest →
  let p := self s in
  let v := initial_lr p * ((0.5 - 0.5 * cos (Rmin 1.0 ((1.0 - t) / lr_rampdown_length p) * PI))
                           * Rmin 1.0 (t / lr_rampup_length p)) in
  update_lr t s =
    Ok ((), set_self (set_opt (mkAdam (mkGroup (params grp) v :: rest) (opt_state (opt p)))
                              (set_lr v p)) s).
Proof.
  intros Hd Hu Hg p v. unfold update_lr.
  erewrite bind_ok by reflexivity.
  erewrite bind_ok by (apply py_div_ok; exact Hd).
  erewrite bind_ok by (apply py_div_ok; exact Hu).
  erewrite bind_ok by reflexivity.
  erewrite bind_ok by reflexivity.
  cbn [self set_self set_lr opt param_groups]. rewrite Hg.
  reflexivity.
Qed.

Lemma insert_alter_same {A} (f : A → A) (r : positive) (a : A) (m : gmap positive A) :
  <[r := a]> (alter f r m) = <[r := a]> m.
Proof.
  apply map_eq. intros k. destruct (decide (k = r)) as [->|Hne].
  - by rewrite !lookup_insert_eq.
  - rewrite !lookup_insert_ne by done. by rewrite lookup_alter_ne.
Qed.

Lemma backward_ok f r s x :
  objects s !! r = Some x →
  requires_grad x = true →
  backward f r s =
    Ok ((), set_objects
              (<[r := set_grad
                        (Some (let g := autograd f (memory s !!! storage x) in
                               match grad x with None => g | Some g0 => madd g0 g end))
                        x]> (objects s)) s).
Proof.
  intros Hx Hrg. unfold backward.
  erewrite bind_ok by reflexivity.
  rewrite (lookup_total_correct _ _ _ Hx), Hrg. reflexivity.
Qed.

Lemma opt_step_ok s r l x g :
  param_groups (opt (self s)) = [mkGroup [r] l] →
  objects s !! r = Some x →
  grad x = Some g →
  let upd := adam_update l (opt_state (opt (self s)) !! r) (memory s !!! storage x) g in
  opt_step s =
    Ok ((), set_memory (<[storage x := upd.1]> (memory s))
              (set_self (set_opt (mkAdam [mkGroup [r] l]
                                         (<[r := upd.2]> (opt_state (opt (self s)))))
                                 (self s)) s)).
Proof.
  intros Hg Hx Hgr upd. unfold opt_step.
  erewrite bind_ok by reflexivity.
  rewrite Hg. cbn [foldl params group_lr]. unfold adam_param.
  rewrite (lookup_total_correct _ _ _ Hx), Hgr.
  reflexivity.
Qed.

Lemma step_exec s i x tgt l0 :
  let p := self s in
  let t := IZR i / IZR (num_steps p) in
  let v0 := memory s !!! storage x in
  let sample := randn_like v0 (rng s) in
  let noise := mscale sample.1
    (latent_std p * initial_noise_factor p * Rmax 0.0 (1.0 - t / noise_ramp_length p) ^ 2) in
  let rate := initial_lr p
    * ((0.5 - 0.5 * cos (Rmin 1.0 ((1.0 - t) / lr_rampdown_length p) * PI))
       * Rmin 1.0 (t / lr_rampup_length p)) in
  let objective := λ y, loss_of p tgt (render (g_ema p) (madd y noise)) in
  let g := autograd objective v0 in
  let upd := adam_update rate (opt_state (opt p) !! latent_in p) v0 g in
  cur_step p = Some i →
  IZR (num_steps p) ≠ 0 →
  noise_ramp_length p ≠ 0 →
  lr_rampdown_length p ≠ 0 →
  lr_rampup_length p ≠ 0 →
  param_groups (opt p) = [mkGroup [latent_in p] l0] →
  objects s !! latent_in p = Some x →
  requires_grad x = true →
  target_image p = Some tgt →
  step s = Ok ((), mkState
     (set_opt (mkAdam [mkGroup [latent_in p] rate]
                      (<[latent_in p := upd.2]> (opt_state (opt p))))
       (set_loss (Some (objective v0))
         (set_img_gen (Some (render (g_ema p) (madd v0 noise)))
           (set_lr rate (set_latent_expr (Some (madd v0 noise)) p)))))
     (<[latent_in p := set_grad (Some g) x]> (objects s))
     (<[storage x := upd.1]> (memory s))
     sample.2
     (steps_log s ++ [(i, t)])).
Proof.
  intros p t v0 sample noise rate objective g upd Hi HN Hn Hd Hu Hg Hx Hrg Ht.
  assert (Hx' : objects s !!! latent_in p = x) by by apply lookup_total_correct.
  unfold step.
  erewrite bind_ok by reflexivity. fold p. rewrite Hi.
  erewrite bind_ok by reflexivity.
  erewrite bind_ok by (apply py_div_ok; exact HN). fold t.
  erewrite bind_ok by reflexivity.
  unfold noise_strength.
  erewrite bind_ok.
  2:{ erewrite bind_ok by (apply py_div_ok; exact Hn). reflexivity. }
  erewrite bind_ok by reflexivity.
  erewrite bind_ok by reflexivity.
  norm. rewrite Hx'. fold v0. fold sample. fold noise.
  erewrite bind_ok by reflexivity.
  erewrite bind_ok.
  2:{ apply update_lr_ok; norm; try assumption. fold p. exact Hg. }
  norm. fold p. fold rate.
  erewrite bind_ok by reflexivity.
  rewrite Ht.
  erewrite bind_ok by reflexivity.
  erewrite bind_ok by reflexivity. fold objective.
  erewrite bind_ok by reflexivity.
  erewrite bind_ok by reflexivity.
  norm. unfold zero_grad. norm. cbn [foldl].
  assert (Hz : alter (set_grad None) (latent_in p) (objects s) !!! latent_in p
               = set_grad None x).
  { apply lookup_total_correct. by rewrite lookup_alter_eq, Hx. }
  assert (Hz' : alter (set_grad None) (latent_in p) (objects s) !! latent_in p
               = Some (set_grad None x)).
  { by rewrite lookup_alter_eq, Hx. }
  erewrite bind_ok.
  2:{ apply backward_ok; [exact Hz'|exact Hrg]. }
  norm. cbn [requires_grad set_grad grad storage]. fold v0. fold g.
  cbn [foldl]. change (set_grad (Some g) (set_grad None x)) with (set_grad (Some g) x).
  rewrite insert_alter_same.
  erewrite opt_step_ok.
  2:{ norm. reflexivity. }
  2:{ norm. apply lookup_insert_eq. }
  2:{ reflexivity. }
  norm. cbn [requires_grad set_grad grad storage]. fold v0. fold upd.
  reflexivity.
Qed.

Lemma same_configuration_refl p : same_configuration p p.
Proof. by repeat split. Qed.

Lemma same_configuration_trans p1 p2 p3 :
  same_configuration p1 p2 → same_configuration p2 p3 → same_configuration p1 p3.
Proof. unfold same_configuration. intuition congruence. Qed.

Lemma same_tensors_refl s : same_tensors s s.
Proof. by split. Qed.

Lemma same_tensors_trans s1 s2 s3 :
  latent_in (self s2) = latent_in (self s1) →
  same_tensors s1 s2 → same_tensors s2 s3 → same_tensors s1 s3.
Proof.
  intros Hl [H1 H1'] [H2 H2']. rewrite Hl in *. split.
  - intros r Hr. rewrite H2 by done. by apply H1.
  - congruence.
Qed.

Lemma step_total s i tgt :
  constructed s →
  positive_ramps (self s) →
  cur_step (self s) = Some i →
  num_steps (self s) ≠ 0%Z →
  target_image (self s) = Some tgt →
  ∃ s', step s = Ok ((), s') ∧
        constructed s' ∧
        same_configuration (self s) (self s') ∧
        same_tensors s s' ∧
        num_steps (self s') = num_steps (self s) ∧
        target_image (self s') = target_image (self s) ∧
        cur_step (self s') = Some i ∧
        steps_log s' = steps_log s ++ [(i, IZR i / IZR (num_steps (self s)))].
Proof.
  intros [[l0 Hg] (x & Hx & Hrg)] (Hd & Hu & Hn) Hi HN Ht.
  eexists. split.
  { eapply step_exec; eauto; try lra. by apply not_0_IZR. }
  norm. split; [|split; [|split; [|by rewrite Hi]]].
  - split; norm; [by eexists|].
    eexists. rewrite lookup_insert_eq. split; [reflexivity|exact Hrg].
  - by repeat split.
  - split; norm.
    + intros r Hr. by rewrite lookup_insert_ne.
    + by rewrite lookup_insert_eq, Hx.
Qed.

Lemma prepare_input_exec target s h :
  shape (promoted target) !! 2%nat = Some h →
  prepare_input target s =
    Ok ((), set_self (set_target_image
                        (Some (if (256 <? h)%nat then downsample_256 (promoted target)
                               else promoted target)) (self s)) s).
Proof.
  intros Hh. unfold prepare_input. fold (promoted target). rewrite Hh.
  erewrite bind_ok by reflexivity. reflexivity.
Qed.

Lemma promoted_has_height target :
  (3 ≤ length (shape target))%nat → is_Some (shape (promoted target) !! 2%nat).
Proof.
  intros Hlen. apply lookup_lt_is_Some. unfold promoted.
  destruct (length (shape target) =? 3)%nat; simpl; lia.
Qed.

Lemma last_cons_default {A} (x d : A) (l : list A) :
  List.last (x :: l) d = List.last l x.
Proof.
  revert x d. induction l as [|y l IH]; intros x d; [done|].
  change (List.last (x :: y :: l) d) with (List.last (y :: l) d).
  by rewrite (IH y d), (IH y x).
Qed.

Lemma loop_exec tgt T : ∀ k a s,
  constructed s →
  positive_ramps (self s) →
  num_steps (self s) = T →
  T ≠ 0%Z ∨ k = 0%nat →
  target_image (self s) = Some tgt →
  ∃ s', for_each (map Z.of_nat (seq a k)) loop_body s = Ok ((), s') ∧
        constructed s' ∧
        positive_ramps (self s') ∧
        same_configuration (self s) (self s') ∧
        same_tensors s s' ∧
        num_steps (self s') = T ∧
        target_image (self s') = Some tgt ∧
        cur_step (self s')
          = List.last (map Some (map Z.of_nat (seq a k))) (cur_step (self s)) ∧
        steps_log s' = steps_log s
                       ++ map (λ i, (i, IZR i / IZR T)) (map Z.of_nat (seq a k)).
Proof.
  induction k as [|k IH]; intros a s Hc Hr HT HT0 Ht.
  - exists s. cbn [seq map for_each]. rewrite app_nil_r.
    split; [reflexivity|]. split; [exact Hc|]. split; [exact Hr|].
    split; [apply same_configuration_refl|]. split; [apply same_tensors_refl|].
    done.
  - destruct HT0 as [HT0|?]; [|done].
    cbn [seq map for_each].
    set (s1 := set_self (set_cur_step (Some (Z.of_nat a)) (self s)) s).
    destruct (step_total s1 (Z.of_nat a) tgt)
      as (s2 & Hs2 & Hc2 & Hf2 & Ht2 & HN2 & Htg2 & Hcur2 & Hl2);
      try (subst s1; norm; done).
    { subst s1. norm. congruence. }
    destruct (IH (S a) s2)
      as (s3 & Hs3 & Hc3 & Hr3 & Hf3 & Ht3 & HN3 & Htg3 & Hcur3 & Hl3).
    { exact Hc2. }
    { destruct Hf2 as (_&_&_&_&_&_&_&_&H1&H2&H3). destruct Hr as (?&?&?).
      unfold positive_ramps. subst s1. norm_in H1. norm_in H2. norm_in H3.
      rewrite H1, H2, H3. done. }
    { rewrite HN2. subst s1. norm. exact HT. }
    { by left. }
    { rewrite Htg2. subst s1. norm. exact Ht. }
    exists s3. split.
    { erewrite bind_ok; [exact Hs3|].
      unfold loop_body. erewrite bind_ok by reflexivity. exact Hs2. }
    split; [exact Hc3|]. split; [exact Hr3|]. split.
    { eapply same_configuration_trans; [|exact Hf3]. exact Hf2. }
    split.
    { eapply (same_tensors_trans s s2 s3).
      - destruct Hf2 as (H&_). exact H.
      - exact Ht2.
      - exact Ht3. }
    split; [exact HN3|]. split; [exact Htg3|]. split.
    { rewrite Hcur3, Hcur2. symmetry. apply last_cons_default. }
    rewrite Hl3, Hl2. subst s1. norm. rewrite HT. by rewrite <- app_assoc.
Qed.

Lemma run_exec target T s h :
  constructed s →
  positive_ramps (self s) →
  shape (promoted target) !! 2%nat = Some h →
  let img := if (256 <? h)%nat then downsample_256 (promoted target) else promoted target in
  let s0 := set_self (set_target_image (Some img) (set_num_steps T (self s))) s in
  ∃ s', run target T s = Ok ((), s') ∧
        for_each (range T) loop_body s0 = Ok ((), s') ∧
        constructed s' ∧
        positive_ramps (self s') ∧
        same_configuration (self s) (self s') ∧
        same_tensors s s' ∧
        num_steps (self s') = T ∧
        target_image (self s') = Some img ∧
        cur_step (self s') = List.last (map Some (range T)) (cur_step (self s)) ∧
        steps_log s' = steps_log s ++ map (λ i, (i, IZR i / IZR T)) (range T).
Proof.
  intros Hc Hr Hh img s0.
  destruct (loop_exec img T (Z.to_nat T) 0 s0) as (s' & Hs' & Hrest);
    try (subst s0; norm; done).
  { destruct (decide (T = 0%Z)) as [->|]; [by right|by left]. }
  exists s'. split; [|split; [exact Hs'|exact Hrest]].
  unfold run. erewrite bind_ok by reflexivity.
  erewrite bind_ok by (apply prepare_input_exec; exact Hh).
  erewrite bind_ok by reflexivity. exact Hs'.
Qed.

Lemma range_length T : length (range T) = Z.to_nat T.
Proof. unfold range. by rewrite length_map, length_seq. Qed.

Lemma range_lookup T k : (k < Z.to_nat T)%nat → range T !! k = Some (Z.of_nat k).
Proof.
  intros Hk. unfold range. rewrite list_lookup_fmap, lookup_seq_lt by done. done.
Qed.

Lemma range_bounds T i : i ∈ range T → (0 ≤ i < T)%Z.
Proof.
  unfold range. intros Hi. apply list_elem_of_fmap in Hi as (k & -> & Hk).
  apply elem_of_seq in Hk. lia.
Qed.

Lemma progress_fraction_bounds T i : (0 ≤ i < T)%Z → 0 <= IZR i / IZR T < 1.
Proof.
  intros [H0 H1].
  assert (0 <= IZR i) by by apply IZR_le.
  assert (IZR i < IZR T) by by apply IZR_lt.
  assert (0 < IZR T) by lra.
  split.
  - apply Rmult_le_pos; [done|]. apply Rlt_le. by apply Rinv_0_lt_compat.
  - apply (Rmult_lt_reg_r (IZR T)); [done|]. unfold Rdiv.
    rewrite Rmult_assoc, Rinv_l by lra. lra.
Qed.

(** *** Construction *)

Lemma init_stats g steps mse l nf rd ru nr il objs mem log :
  let s := init g steps mse l nf rd ru nr il objs mem log in
  let latent_out := style g (randn (Z.to_nat 10000) 512 (manual_seed 123)).1 in
  latent_mean (self s) = mean0 latent_out ∧
  latent_std (self s)
    = sqrt (msum (mmap (λ x, x ^ 2) (msub_row latent_out (mean0 latent_out)))
            / IZR 10000).
Proof. unfold init. destruct il; done. Qed.

Lemma latent_stats_spec d (x : list (list R)) n :
  length x = Z.to_nat n → (0 < n)%Z →
  Forall (λ r, length r = d) x →
  length (latent_stats n x).1 = d ∧
  (∀ j, (j < d)%nat → nth j (latent_stats n x).1 0 = column_mean x (Z.to_nat n) j) ∧
  (latent_stats n x).2 = sqrt (total_sq_dev x (Z.to_nat n) d / IZR n).
Proof.
  intros Hlen Hn Hall.
  assert (Hne : x ≠ []).
  { intros ->. simpl in Hlen. lia. }
  unfold latent_stats. cbn [fst snd]. split; [by apply mean0_length|]. split.
  - intros j Hj. rewrite <- Hlen. by apply (mean0_nth d).
  - f_equal. f_equal.
    rewrite (sq_dev_sum d) by (done || by apply mean0_length).
    unfold total_sq_dev. rewrite Hlen.
    apply big_sum_ext. intros i _. apply big_sum_ext. intros j Hj.
    rewrite (mean0_nth d) by done. by rewrite Hlen.
Qed.

Lemma std_vs_rms x n d :
  (0 < n)%Z → (0 < d)%nat →
  sqrt (total_sq_dev x (Z.to_nat n) d / IZR n)
  = sqrt (INR d) * rms_spread x (Z.to_nat n) d.
Proof.
  intros Hn Hd. unfold rms_spread.
  assert (HN : INR (Z.to_nat n) = IZR n).
  { rewrite INR_IZR_INZ. f_equal. lia. }
  assert (0 < IZR n) by (by apply (IZR_lt 0)).
  assert (0 < INR d) by (by apply (lt_INR 0)).
  rewrite HN, <- sqrt_mult.
  - f_equal. field. lra.
  - lra.
  - apply Rmult_le_pos; [apply total_sq_dev_nonneg|].
    apply Rlt_le, Rinv_0_lt_compat. by apply Rmult_lt_0_compat.
Qed.

Lemma std_neq_rms x n d :
  (0 < n)%Z → (1 < d)%nat → 0 < total_sq_dev x (Z.to_nat n) d →
  sqrt (total_sq_dev x (Z.to_nat n) d / IZR n) ≠ rms_spread x (Z.to_nat n) d.
Proof.
  intros Hn Hd Hpos. unfold rms_spread.
  assert (HN : INR (Z.to_nat n) = IZR n).
  { rewrite INR_IZR_INZ. f_equal. lia. }
  assert (0 < IZR n) by (by apply (IZR_lt 0)).
  assert (1 < INR d) by (by apply (lt_INR 1)).
  rewrite HN.
  set (T := total_sq_dev x (Z.to_nat n) d) in *.
  assert (Hlt : T / (IZR n * INR d) < T / IZR n).
  { unfold Rdiv. apply Rmult_lt_compat_l; [exact Hpos|].
    apply Rinv_lt_contravar; nra. }
  assert (0 <= T / (IZR n * INR d)).
  { apply Rlt_le, Rdiv_lt_0_compat; nra. }
  pose proof (sqrt_lt_1_alt _ _ (conj H1 Hlt)). lra.
Qed.

Lemma repeat_rows_single (r : list R) n : repeat_rows [r] n = repeat r n.
Proof. unfold repeat_rows. induction n as [|n IH]; [done|]. cbn. by rewrite IH. Qed.

Lemma init_fresh g steps mse l nf rd ru nr objs mem log :
  let s := init g steps mse l nf rd ru nr None objs mem log in
  let r := latent_in (self s) in
  r = fresh (dom objs) ∧
  objects s = <[r := mkTensor (fresh (dom mem)) true None]> objs ∧
  memory s = <[fresh (dom mem) := repeat (latent_mean (self s)) (n_latent g)]> mem ∧
  opt (self s) = mkAdam [mkGroup [r] l] ∅.
Proof.
  unfold init. cbn. split; [done|]. split; [|split; [|done]].
  - apply map_eq. intros k. destruct (decide (k = fresh (dom objs))) as [->|Hne].
    + by rewrite lookup_alter_eq, !lookup_insert_eq.
    + rewrite lookup_alter_ne by done. by rewrite !lookup_insert_ne.
  - by rewrite repeat_rows_single.
Qed.

Lemma init_given g steps mse l nf rd ru nr r objs mem log :
  let s := init g steps mse l nf rd ru nr (Some r) objs mem log in
  latent_in (self s) = r ∧
  objects s = alter (set_requires_grad true) r objs ∧
  memory s = mem ∧
  opt (self s) = mkAdam [mkGroup [r] l] ∅.
Proof. unfold init. by cbn. Qed.

Lemma init_hyper g steps mse l nf rd ru nr il objs mem log :
  let p := self (init g steps mse l nf rd ru nr il objs mem log) in
  num_steps p = steps ∧ n_mean_latent p = 10000%Z ∧ mse_strength p = mse ∧
  initial_lr p = l ∧ lr p = l ∧ initial_noise_factor p = nf ∧
  lr_rampdown_length p = rd ∧ lr_rampup_length p = ru ∧ noise_ramp_length p = nr ∧
  g_ema p = g ∧ cur_step p = None ∧ target_image p = None.
Proof. unfold init. destruct il; by cbn. Qed.

End Execution.

(** ** Running the model on the stand-ins *)

Section StandInRuns.
#[local] Existing Instance toy_externals.

Lemma adam_update_1x1 rate o a k m v :
  default (mkAdamState 0 [[0]] [[0]]) o = mkAdamState k [[m]] [[v]] →
  adam_update rate o [[a]] [[1]]
  = ([[toy_next rate a k m v]],
     mkAdamState (S k) [[m * beta1 + (1 - beta1) * 1]]
                 [[v * beta2 + (1 - beta2) * (1 * 1)]]).
Proof.
  intros Hst. unfold adam_update.
  change (zeros_like [[a]]) with [[0]]. rewrite Hst.
  cbn [adam_step exp_avg exp_avg_sq mmap map fst snd mscale madd mzip vzip zip_with].
  reflexivity.
Qed.

Lemma toy_step s a k m v i T c :
  toy_at s a k m v (Some i) T (Some (unsqueeze0 toy_target)) c →
  T ≠ 0%Z →
  let t := IZR i / IZR T in
  ∃ s', step s = Ok ((), s') ∧
        toy_at s' (toy_next (toy_rate t) a k m v) (S k)
               (m * beta1 + (1 - beta1) * 1) (v * beta2 + (1 - beta2) * (1 * 1))
               (Some i) T (Some (unsqueeze0 toy_target)) (S c) ∧
        latent_expr (self s')
          = Some [[a + INR c * (1 * 0.05 * Rmax 0.0 (1.0 - t / 0.75) ^ 2)]] ∧
        lr (self s') = toy_rate t ∧
        grad <$> objects s' !! 1%positive = Some (Some [[1]]).
Proof.
  intros (Hcfg & [l Hg] & (x & Hx & Hsx & Hrg) & Hmem & Hst & Hi & HT & Htg & Hc) HT0 t.
  destruct Hcfg as (Hli & Hlm & Hls & Hge & Hnm & Hms & Hil & Hnf & Hrd & Hru & Hnr).
  cbn [toy_projector latent_in latent_mean latent_std g_ema n_mean_latent mse_strength
       initial_lr initial_noise_factor lr_rampdown_length lr_rampup_length
       noise_ramp_length] in *.
  assert (Hv0 : memory s !!! storage x = [[a]]).
  { rewrite Hsx. by apply lookup_total_correct. }
  eexists. split.
  { eapply (step_exec s i x (unsqueeze0 toy_target) l); rewrite ?Hli, ?HT, ?Hnr, ?Hrd, ?Hru;
      try done; try lra. by apply not_0_IZR. }
  rewrite Hv0, Hli, HT, Hnr, Hrd, Hru, Hil, Hls, Hnf, Hc, Hsx. fold t.
  cbn [randn_like autograd toy_externals mmap map fst snd mscale madd mzip vzip zip_with].
  fold (toy_rate t).
  assert (Hupd := adam_update_1x1 (toy_rate t) _ a k m v Hst).
  rewrite Hupd. split; [|split; [|split]].
  - unfold toy_at. norm.
    split; [by repeat split|]. split; [by eexists|]. split.
    { eexists. rewrite lookup_insert_eq. by repeat split. }
    split; [by rewrite lookup_insert_eq|]. split; [by rewrite lookup_insert_eq|].
    done.
  - norm. reflexivity.
  - norm. reflexivity.
  - norm. by rewrite lookup_insert_eq.
Qed.

Lemma toy_rate_0 T : toy_rate (0 / IZR T) = 0.
Proof.
  unfold toy_rate. replace (0 / IZR T / 0.05) with 0 by (unfold Rdiv; ring).
  rewrite (Rmin_right 1.0 0) by lra. ring.
Qed.

Lemma toy_rate_half : toy_rate (1 / 2) = 0.1.
Proof.
  unfold toy_rate. rewrite !Rmin_left by lra.
  replace (1.0 * PI) with PI by lra. rewrite cos_PI. lra.
Qed.

Lemma toy_loop_body s a k m v i T c j :
  toy_at s a k m v i T (Some (unsqueeze0 toy_target)) c →
  T ≠ 0%Z →
  let t := IZR j / IZR T in
  ∃ s', loop_body j s = Ok ((), s') ∧
        toy_at s' (toy_next (toy_rate t) a k m v) (S k)
               (m * beta1 + (1 - beta1) * 1) (v * beta2 + (1 - beta2) * (1 * 1))
               (Some j) T (Some (unsqueeze0 toy_target)) (S c) ∧
        latent_expr (self s')
          = Some [[a + INR c * (1 * 0.05 * Rmax 0.0 (1.0 - t / 0.75) ^ 2)]] ∧
        lr (self s') = toy_rate t ∧
        grad <$> objects s' !! 1%positive = Some (Some [[1]]).
Proof.
  intros Hat HT t.
  destruct (toy_step (set_self (set_cur_step (Some j) (self s)) s) a k m v j T c)
    as (s' & Hs' & Hrest); [|exact HT|].
  { destruct Hat as (H1 & H2 & H3 & H4 & H5 & H6 & H7 & H8 & H9).
    unfold toy_at. norm. done. }
  exists s'. split; [|exact Hrest].
  unfold loop_body. erewrite bind_ok by reflexivity. exact Hs'.
Qed.

Lemma toy_prologue s a k m v i T tg c T' :
  toy_at s a k m v i T tg c →
  toy_at (set_self (set_target_image (Some (unsqueeze0 toy_target))
                      (set_num_steps T' (self s))) s) a k m v i T'
         (Some (unsqueeze0 toy_target)) c.
Proof.
  intros (H1 & H2 & H3 & H4 & H5 & H6 & H7 & H8 & H9). unfold toy_at. norm. done.
Qed.

Lemma toy_prepare_input (s : State) :
  prepare_input toy_target s
  = Ok ((), set_self (set_target_image (Some (unsqueeze0 toy_target)) (self s)) s).
Proof. by rewrite (prepare_input_exec toy_target s 256). Qed.

Lemma toy_state_at : toy_at toy_state 0 0 0 0 None 1000 None 1.
Proof.
  unfold toy_at, toy_state. norm. cbn [toy_projector opt param_groups opt_state
    cur_step num_steps target_image].
  split; [apply same_configuration_refl|]. split; [by eexists|]. split.
  { eexists. by rewrite lookup_singleton_eq. }
  split; [by rewrite lookup_singleton_eq|]. split; [by rewrite lookup_empty|].
  done.
Qed.

(** One step: [run toy_target 1]. *)
Lemma toy_run1 s a k m v i T tg c :
  toy_at s a k m v i T tg c →
  ∃ s', run toy_target 1 s = Ok ((), s') ∧
        toy_at s' (toy_next 0 a k m v) (S k)
               (m * beta1 + (1 - beta1) * 1) (v * beta2 + (1 - beta2) * (1 * 1))
               (Some 0%Z) 1 (Some (unsqueeze0 toy_target)) (S c) ∧
        latent_expr (self s') = Some [[a + INR c * 0.05]] ∧
        lr (self s') = 0 ∧
        grad <$> objects s' !! 1%positive = Some (Some [[1]]).
Proof.
  intros Hat.
  destruct (toy_loop_body _ a k m v i 1 c 0%Z (toy_prologue s a k m v i T tg c 1 Hat))
    as (s' & Hs' & Hat' & Hle & Hlr & Hgr); [done|].
  rewrite toy_rate_0 in Hat', Hlr.
  exists s'. split; [|split; [exact Hat'|split; [|split; [exact Hlr|exact Hgr]]]].
  - unfold run. erewrite bind_ok by reflexivity.
    erewrite bind_ok by apply toy_prepare_input.
    erewrite bind_ok by reflexivity. norm.
    change (range 1) with [0%Z]. cbn [for_each].
    erewrite bind_ok by exact Hs'. reflexivity.
  - rewrite Hle. do 3 f_equal.
    replace (0 / 1 / 0.75) with 0 by (unfold Rdiv; ring).
    rewrite Rmax_right by lra. lra.
Qed.

(** Two steps: [run toy_target 2]. *)
Lemma toy_run2 s a k m v i T tg c :
  toy_at s a k m v i T tg c →
  let m1 := m * beta1 + (1 - beta1) * 1 in
  let v1 := v * beta2 + (1 - beta2) * (1 * 1) in
  ∃ s', run toy_target 2 s = Ok ((), s') ∧
        toy_at s' (toy_next 0.1 (toy_next 0 a k m v) (S k) m1 v1) (S (S k))
               (m1 * beta1 + (1 - beta1) * 1) (v1 * beta2 + (1 - beta2) * (1 * 1))
               (Some 1%Z) 2 (Some (unsqueeze0 toy_target)) (S (S c)).
Proof.
  intros Hat m1 v1.
  destruct (toy_loop_body _ a k m v i 2 c 0%Z (toy_prologue s a k m v i T tg c 2 Hat))
    as (s1 & Hs1 & Hat1 & _); [done|].
  rewrite toy_rate_0 in Hat1.
  destruct (toy_loop_body _ _ _ _ _ _ 2 _ 1%Z Hat1) as (s2 & Hs2 & Hat2 & _); [done|].
  rewrite toy_rate_half in Hat2.
  exists s2. split; [|exact Hat2].
  unfold run. erewrite bind_ok by reflexivity.
  erewrite bind_ok by apply toy_prepare_input.
  erewrite bind_ok by reflexivity. norm.
  change (range 2) with [0%Z; 1%Z]. cbn [for_each].
  erewrite bind_ok by exact Hs1.
  erewrite bind_ok by exact Hs2. reflexivity.
Qed.

Lemma toy_next_rate_0 a k m v : toy_next 0 a k m v = a.
Proof. unfold toy_next, Rdiv. ring. Qed.

Lemma toy_next_moves a k m v :
  0 < m → 0 <= v → toy_next 0.1 a (S k) m v < a.
Proof.
  intros Hm Hv. unfold toy_next.
  set (m' := m * beta1 + (1 - beta1) * 1).
  set (v' := v * beta2 + (1 - beta2) * (1 * 1)).
  assert (Hb1 : 0 < 1 - beta1 ^ S (S k)).
  { assert (beta1 ^ S (S k) < 1); [|lra].
    apply pow_lt_1_compat; [unfold beta1; lra|lia]. }
  assert (Hb2 : 0 < 1 - beta2 ^ S (S k)).
  { assert (beta2 ^ S (S k) < 1); [|lra].
    apply pow_lt_1_compat; [unfold beta2; lra|lia]. }
  assert (Hm' : 0 < m') by (unfold m', beta1; lra).
  assert (Hd : 0 < sqrt v' / sqrt (1 - beta2 ^ S (S k)) + adam_eps).
  { assert (0 <= sqrt v' / sqrt (1 - beta2 ^ S (S k))).
    { apply Rmult_le_pos; [apply sqrt_pos|].
      apply Rlt_le, Rinv_0_lt_compat. by apply sqrt_lt_R0. }
    unfold adam_eps. lra. }
  assert (Hq : 0 < m' / (sqrt v' / sqrt (1 - beta2 ^ S (S k)) + adam_eps)).
  { by apply Rdiv_lt_0_compat. }
  assert (Hs : 0 < 0.1 / (1 - beta1 ^ S (S k))).
  { apply Rdiv_lt_0_compat; lra. }
  nra.
Qed.

Lemma toy_constructed : constructed toy_state.
Proof.
  split; [by eexists|]. eexists. split; [apply lookup_singleton_eq|done].
Qed.

Lemma toy_positive_ramps : positive_ramps (self toy_state).
Proof. unfold positive_ramps. cbn. lra. Qed.

Lemma toy_target_shape : (3 ≤ length (shape toy_target))%nat.
Proof. cbn. lia. Qed.

End StandInRuns.

(** ** The claims *)

Section Claims.
Context `{E : Externals}.

Lemma rate_formula l d u t :
  l * ((0.5 - 0.5 * cos (Rmin 1.0 ((1.0 - t) / d) * PI)) * Rmin 1.0 (t / u))
  = lr_schedule l d u t.
Proof.
  unfold lr_schedule. replace 1.0 with 1 by lra. ring.
Qed.

Lemma strength_formula c f n t :
  c * f * Rmax 0.0 (1.0 - t / n) ^ 2 = noise_magnitude c f n t.
Proof.
  unfold noise_magnitude. rewrite Rsqr_pow2.
  replace 1.0 with 1 by lra. replace 0.0 with 0 by lra. reflexivity.
Qed.

Lemma range_last T d :
  (1 ≤ T)%Z → List.last (map Some (range T)) d = Some (T - 1)%Z.
Proof.
  intros HT. unfold range.
  destruct (Z.to_nat T) as [|n] eqn:Hn; [lia|].
  rewrite seq_S, !map_app. cbn [map Nat.add]. rewrite last_last.
  f_equal. lia.
Qed.

Lemma prepared_height target h :
  shape (promoted target) !! 2%nat = Some h →
  prepared target
  = if (256 <? h)%nat then downsample_256 (promoted target) else promoted target.
Proof. intros Hh. unfold prepared. by rewrite Hh. Qed.

(** Every [step] is one update of the stored latent by Adam. *)
Lemma step_updates s i tgt :
  constructed s →
  positive_ramps (self s) →
  cur_step (self s) = Some i →
  num_steps (self s) ≠ 0%Z →
  target_image (self s) = Some tgt →
  ∃ s', step s = Ok ((), s') ∧ updates_made s' = S (updates_made s).
Proof.
  intros [[l0 Hg] (x & Hx & Hrg)] (Hd & Hu & Hn) Hi HN Ht.
  eexists. split.
  { eapply step_exec; eauto; try lra. by apply not_0_IZR. }
  unfold updates_made. norm. rewrite lookup_insert_eq.
  unfold adam_update. cbn [snd adam_step].
  by destruct (opt_state (opt (self s)) !! latent_in (self s)).
Qed.

Lemma loop_updates tgt T : ∀ k a s,
  constructed s →
  positive_ramps (self s) →
  num_steps (self s) = T →
  T ≠ 0%Z ∨ k = 0%nat →
  target_image (self s) = Some tgt →
  ∃ s', for_each (map Z.of_nat (seq a k)) loop_body s = Ok ((), s') ∧
        updates_made s' = (updates_made s + k)%nat.
Proof.
  induction k as [|k IH]; intros a s Hc Hr HT HT0 Ht.
  - exists s. split; [reflexivity|lia].
  - destruct HT0 as [HT0|?]; [|done].
    cbn [seq map for_each].
    set (s1 := set_self (set_cur_step (Some (Z.of_nat a)) (self s)) s).
    assert (Hc1 : constructed s1) by exact Hc.
    assert (Hr1 : positive_ramps (self s1)) by exact Hr.
    assert (HN1 : num_steps (self s1) ≠ 0%Z) by (subst s1; norm; congruence).
    assert (Ht1 : target_image (self s1) = Some tgt) by exact Ht.
    destruct (step_total s1 (Z.of_nat a) tgt Hc1 Hr1 eq_refl HN1 Ht1)
      as (s2 & Hs2 & Hc2 & Hf2 & _ & HN2 & Htg2 & _).
    destruct (step_updates s1 (Z.of_nat a) tgt Hc1 Hr1 eq_refl HN1 Ht1)
      as (s2' & Hs2' & Hup).
    assert (s2' = s2) as -> by congruence.
    destruct (IH (S a) s2) as (s3 & Hs3 & Hup3).
    { exact Hc2. }
    { destruct Hf2 as (_&_&_&_&_&_&_&_&H1&H2&H3). destruct Hr as (?&?&?).
      unfold positive_ramps. subst s1. norm_in H1. norm_in H2. norm_in H3.
      rewrite H1, H2, H3. done. }
    { rewrite HN2. exact HT. }
    { by left. }
    { rewrite Htg2. exact Ht. }
    exists s3. split.
    { erewrite bind_ok; [exact Hs3|].
      unfold loop_body. erewrite bind_ok by reflexivity. exact Hs2. }
    rewrite Hup3, Hup. change (updates_made s1) with (updates_made s). lia.
Qed.

(** C1.  For every call [run target T] with [T >= 1] on a constructed
    projector with positive ramp lengths and a comparable target of at least
    three dimensions, the call returns without raising; it is the sequence
    of the [T] invocations of [step] with the step index going through
    [0 .. T-1] in order, each of them one update of the stored latent by
    Adam, so that Adam's update count grows by exactly [T]; every progress
    fraction [t = i / T] lies in [0, 1).  With [T = 1] the call is exactly
    one [step], with step index [0] and [t = 0], and one update. *)
Theorem run_executes_every_step target T s :
  constructed s →
  positive_ramps (self s) →
  (3 ≤ length (shape target))%nat →
  comparable (g_ema (self s)) target →
  (1 ≤ T)%Z →
  let s0 :=
    set_self (set_target_image (Some (prepared target)) (set_num_steps T (self s))) s in
  ∃ s', run target T s = Ok ((), s') ∧
        for_each (range T) (λ i, modify_self (set_cur_step (Some i));; step) s0
          = Ok ((), s') ∧
        updates_made s' = (updates_made s + Z.to_nat T)%nat ∧
        cur_step (self s') = Some (T - 1)%Z ∧
        steps_log s' = steps_log s ++ map (λ i, (i, IZR i / IZR T)) (range T) ∧
        length (range T) = Z.to_nat T ∧
        (∀ k, (k < Z.to_nat T)%nat → range T !! k = Some (Z.of_nat k)) ∧
        (∀ i, i ∈ range T → 0 <= IZR i / IZR T < 1) ∧
        (T = 1%Z →
           step (set_self (set_cur_step (Some 0%Z) (self s0)) s0) = Ok ((), s') ∧
           updates_made s' = S (updates_made s) ∧
           steps_log s' = steps_log s ++ [(0%Z, 0)]).
Proof.
  intros Hc Hr Hshape _ HT s0.
  destruct (promoted_has_height target Hshape) as [h Hh].
  destruct (run_exec target T s h Hc Hr Hh)
    as (s' & Hrun & Hloop & _ & _ & _ & _ & _ & _ & Hcur & Hlog).
  rewrite <- (prepared_height target h Hh) in Hloop. fold s0 in Hloop.
  destruct (loop_updates (prepared target) T (Z.to_nat T) 0 s0)
    as (s'' & Hloop' & Hup); try (subst s0; norm; done).
  { left. lia. }
  assert (s'' = s') as ->.
  { unfold range in Hloop. rewrite Hloop in Hloop'. congruence. }
  change (updates_made s0) with (updates_made s) in Hup.
  exists s'. split; [exact Hrun|]. split; [exact Hloop|]. split; [exact Hup|].
  split; [by rewrite Hcur, range_last|]. split; [exact Hlog|].
  split; [apply range_length|]. split; [apply range_lookup|]. split.
  - intros i Hi. apply progress_fraction_bounds. by apply range_bounds.
  - intros ->. split; [|split].
    + change (range 1) with [0%Z] in Hloop. cbn [for_each] in Hloop.
      unfold mbind at 1, M_bind in Hloop.
      destruct (loop_body 0%Z s0) as [[[] s1]|e] eqn:Hbody; [|discriminate].
      change (Ok ((), s1) = Ok ((), s')) in Hloop. injection Hloop as ->.
      exact Hbody.
    + rewrite Hup. change (Z.to_nat 1) with 1%nat. lia.
    + rewrite Hlog. change (range 1) with [0%Z]. cbn [map].
      do 3 f_equal. unfold Rdiv. ring.
Qed.

(** C2.  [update_lr t] sets both [self.lr] and the learning rate of the
    optimizer's parameter group to
    [initial_learning_rate × (0.5 − 0.5·cos(min(1, (1−t)/lr_rampdown_length)·π))
     × min(1, t/lr_rampup_length)].
    That rate is [0] at [t = 0], equals [initial_learning_rate] once both
    ramps saturate, and tends to [0] as [t] approaches [1]. *)
Theorem update_lr_follows_schedule s t :
  0 < lr_rampdown_length (self s) →
  0 < lr_rampup_length (self s) →
  param_groups (opt (self s)) ≠ [] →
  let p := self s in
  let rate := lr_schedule (initial_lr p) (lr_rampdown_length p) (lr_rampup_length p) in
  (∃ s', update_lr t s = Ok ((), s') ∧
         lr (self s') = rate t ∧
         group_lr <$> head (param_groups (opt (self s'))) = Some (rate t)) ∧
  rate 0 = 0 ∧
  (∀ u, lr_rampdown_length p <= 1 - u → lr_rampup_length p <= u →
        rate u = initial_lr p) ∧
  (∀ eps, 0 < eps → ∃ delta, 0 < delta ∧
        ∀ u, 1 - delta < u < 1 → Rabs (rate u) < eps).
Proof.
  intros Hd Hu Hg p rate. split; [|split; [|split]].
  - destruct (param_groups (opt (self s))) as [|grp rest] eqn:Hgs; [done|].
    eexists. split.
    { apply (update_lr_ok t s grp rest); [lra|lra|exact Hgs]. }
    norm. fold p. rewrite rate_formula. done.
  - apply lr_schedule_start. unfold p. lra.
  - intros u H1 H2. by apply lr_schedule_plateau.
  - by apply lr_schedule_end.
Qed.

Lemma step_effect s i tgt :
  constructed s →
  positive_ramps (self s) →
  cur_step (self s) = Some i →
  num_steps (self s) ≠ 0%Z →
  target_image (self s) = Some tgt →
  let p := self s in
  let t := IZR i / IZR (num_steps p) in
  let stored := tensor_value s (latent_in p) in
  let noise :=
    mscale (randn_like stored (rng s)).1
      (noise_magnitude (latent_std p) (initial_noise_factor p) (noise_ramp_length p) t) in
  let perturbed := madd stored noise in
  let gradient :=
    autograd (λ y, loss_of p tgt (render (g_ema p) (madd y noise))) stored in
  let rate := lr_schedule (initial_lr p) (lr_rampdown_length p) (lr_rampup_length p) t in
  ∃ s', step s = Ok ((), s') ∧
        latent_expr (self s') = Some perturbed ∧
        img_gen (self s') = Some (render (g_ema p) perturbed) ∧
        loss (self s') = Some (loss_of p tgt (render (g_ema p) perturbed)) ∧
        grad <$> objects s' !! latent_in p = Some (Some gradient) ∧
        tensor_value s' (latent_in p)
          = (adam_update rate (opt_state (opt p) !! latent_in p) stored gradient).1.
Proof.
  intros [[l0 Hg] (x & Hx & Hrg)] (Hd & Hu & Hn) Hi HN Ht p t stored noise perturbed
    gradient rate.
  assert (Hst : stored = memory s !!! storage x).
  { unfold stored, tensor_value. by rewrite (lookup_total_correct _ _ _ Hx). }
  eexists. split.
  { eapply step_exec; eauto; try lra. by apply not_0_IZR. }
  norm. fold p. fold t. rewrite <- Hst.
  rewrite strength_formula, rate_formula. fold noise. fold perturbed. fold gradient.
  fold rate.
  split; [done|]. split; [done|]. split; [done|]. split.
  - by rewrite lookup_insert_eq.
  - rewrite lookup_total_insert_eq. cbn [storage set_grad].
    by rewrite lookup_total_insert_eq.
Qed.

(** C3.  The noise magnitude of a step is
    [latent_std × initial_noise_factor × max(0, 1 − t/noise_ramp_length)²],
    and this is the factor by which [step] scales the standard-normal sample
    it adds to the stored latent.  For non-negative [latent_std] and
    [initial_noise_factor] it is non-increasing in [t] and is exactly [0] for
    every [t >= noise_ramp_length]. *)
Theorem noise_strength_anneals s :
  let p := self s in
  0 <= latent_std p →
  0 <= initial_noise_factor p →
  0 < noise_ramp_length p →
  let magnitude :=
    noise_magnitude (latent_std p) (initial_noise_factor p) (noise_ramp_length p) in
  (∀ t, noise_strength p t s = Ok (magnitude t, s)) ∧
  (∀ i tgt,
     constructed s → positive_ramps p → cur_step p = Some i →
     num_steps p ≠ 0%Z → target_image p = Some tgt →
     let stored := tensor_value s (latent_in p) in
     ∃ s', step s = Ok ((), s') ∧
           latent_expr (self s')
             = Some (madd stored
                       (mscale (randn_like stored (rng s)).1
                               (magnitude (IZR i / IZR (num_steps p)))))) ∧
  (∀ t1 t2, 0 <= t1 → t1 <= t2 → t2 < 1 → magnitude t2 <= magnitude t1) ∧
  (∀ t, noise_ramp_length p <= t → magnitude t = 0).
Proof.
  intros p Hs Hf Hn magnitude. split; [|split; [|split]].
  - intros t. unfold noise_strength.
    erewrite bind_ok by (apply py_div_ok; lra).
    unfold magnitude. rewrite <- strength_formula. reflexivity.
  - intros i tgt Hc Hr Hi HN Ht stored.
    destruct (step_effect s i tgt Hc Hr Hi HN Ht) as (s' & Hs' & Hle & _).
    exists s'. split; [exact Hs'|exact Hle].
  - intros t1 t2 _ Ht _. by apply noise_magnitude_mono.
  - intros t Ht. by apply noise_magnitude_off.
Qed.

(** C4, as amended.  In every step the generated image, the loss and the
    gradient are computed through the perturbed latent (stored latent plus
    scaled noise), but the optimizer update starts from the stored latent
    itself: the stored latent after the step is the Adam update of the
    stored latent before the step, with the gradient of the loss taken
    through the perturbation. *)
Theorem step_updates_stored_latent s i tgt :
  constructed s →
  positive_ramps (self s) →
  cur_step (self s) = Some i →
  num_steps (self s) ≠ 0%Z →
  target_image (self s) = Some tgt →
  let p := self s in
  let t := IZR i / IZR (num_steps p) in
  let stored := tensor_value s (latent_in p) in
  let noise :=
    mscale (randn_like stored (rng s)).1
      (noise_magnitude (latent_std p) (initial_noise_factor p) (noise_ramp_length p) t) in
  let perturbed := madd stored noise in
  let gradient :=
    autograd (λ y, loss_of p tgt (render (g_ema p) (madd y noise))) stored in
  let rate := lr_schedule (initial_lr p) (lr_rampdown_length p) (lr_rampup_length p) t in
  ∃ s', step s = Ok ((), s') ∧
        latent_expr (self s') = Some perturbed ∧
        img_gen (self s') = Some (render (g_ema p) perturbed) ∧
        loss (self s') = Some (loss_of p tgt (render (g_ema p) perturbed)) ∧
        grad <$> objects s' !! latent_in p = Some (Some gradient) ∧
        tensor_value s' (latent_in p)
          = (adam_update rate (opt_state (opt p) !! latent_in p) stored gradient).1.
Proof. apply step_effect. Qed.

(** C5, as amended.  The latent mean computed at construction is the
    elementwise mean of the [N = 10000] mapped samples, and the scalar spread
    is [sqrt (total squared deviation / N)]: the sum over all samples and
    dimensions of the squared deviation is divided by the number of samples
    only, which makes the spread [sqrt dimensionality] times the
    root-mean-square deviation. *)
Theorem init_latent_statistics g steps mse l nf rd ru nr il objs mem log d :
  let latent_out := style g (randn (Z.to_nat 10000) 512 (manual_seed 123)).1 in
  let s := init g steps mse l nf rd ru nr il objs mem log in
  let n := Z.to_nat 10000 in
  length latent_out = n →
  Forall (λ r, length r = d) latent_out →
  length (latent_mean (self s)) = d ∧
  (∀ j, (j < d)%nat → nth j (latent_mean (self s)) 0 = column_mean latent_out n j) ∧
  latent_std (self s) = sqrt (total_sq_dev latent_out n d / 10000) ∧
  ((0 < d)%nat → latent_std (self s) = sqrt (INR d) * rms_spread latent_out n d).
Proof.
  intros latent_out s n Hlen Hall.
  destruct (init_stats g steps mse l nf rd ru nr il objs mem log) as [Hm Hs].
  destruct (latent_stats_spec d latent_out 10000 Hlen ltac:(lia) Hall) as (H1 & H2 & H3).
  fold latent_out in Hm, Hs. fold s in Hm, Hs.
  unfold latent_stats in H1, H2, H3. cbn [fst snd] in H1, H2, H3.
  rewrite Hm, Hs. split; [exact H1|]. split; [exact H2|]. split; [exact H3|].
  intros Hd. rewrite H3. by apply std_vs_rms.
Qed.

Lemma prepare_input_target target s h :
  shape (promoted target) !! 2%nat = Some h →
  ∃ s', prepare_input target s = Ok ((), s') ∧
        target_image (self s')
          = Some (if (256 <? h)%nat then downsample_256 (promoted target)
                  else promoted target) ∧
        s' = set_self (set_target_image (target_image (self s')) (self s)) s.
Proof.
  intros Hh. eexists. split; [by apply prepare_input_exec|]. by norm.
Qed.

(** C6, as amended.  [prepare_input] passes the target (after
    batch-dimension promotion) through [utils.downsample_256] if and only if
    its height, dimension 2 of the promoted tensor, exceeds 256; otherwise
    the promoted target is stored unchanged.  Nothing but [target_image]
    changes. *)
Theorem prepare_input_downsamples_tall_targets target s h :
  shape (promoted target) !! 2%nat = Some h →
  ∃ s', prepare_input target s = Ok ((), s') ∧
        ((256 < h)%nat →
           target_image (self s') = Some (downsample_256 (promoted target))) ∧
        ((h ≤ 256)%nat → target_image (self s') = Some (promoted target)) ∧
        s' = set_self (set_target_image (target_image (self s')) (self s)) s.
Proof.
  intros Hh. destruct (prepare_input_target target s h Hh) as (s' & Hs' & Ht & Hf).
  exists s'. split; [exact Hs'|]. split; [|split; [|exact Hf]].
  - intros Hlt. rewrite Ht. by rewrite (proj2 (Nat.ltb_lt 256 h) Hlt).
  - intros Hle. rewrite Ht. by rewrite (proj2 (Nat.ltb_ge 256 h) Hle).
Qed.

(** C7.  [run target T] executes its steps from a state that differs from
    the state it was called in only by [num_steps] and [target_image]: the
    stored latent, the optimizer and its state are those left by
    construction or by the previous run.  At the end the step count, the
    target and (for [T >= 1]) the step counter are replaced, while the latent
    statistics, the identity and storage of the stored latent and the
    configuration are unchanged, and the projector is ready for another
    run. *)
Theorem run_keeps_latent_and_optimizer target T s h :
  constructed s →
  positive_ramps (self s) →
  shape (promoted target) !! 2%nat = Some h →
  let img :=
    if (256 <? h)%nat then downsample_256 (promoted target) else promoted target in
  let entry := set_self (set_target_image (Some img) (set_num_steps T (self s))) s in
  ∃ s', run target T s = Ok ((), s') ∧
        for_each (range T) loop_body entry = Ok ((), s') ∧
        (opt (self entry) = opt (self s) ∧
         cur_step (self entry) = cur_step (self s) ∧
         tensor_value entry (latent_in (self entry)) = tensor_value s (latent_in (self s)) ∧
         objects entry = objects s ∧ memory entry = memory s ∧
         same_configuration (self s) (self entry)) ∧
        (num_steps (self s') = T ∧
         target_image (self s') = Some img ∧
         ((1 ≤ T)%Z → cur_step (self s') = Some (T - 1)%Z)) ∧
        (latent_mean (self s') = latent_mean (self s) ∧
         latent_std (self s') = latent_std (self s) ∧
         same_configuration (self s) (self s') ∧
         same_tensors s s') ∧
        (constructed s' ∧ positive_ramps (self s')).
Proof.
  intros Hc Hr Hh img entry.
  destruct (run_exec target T s h Hc Hr Hh)
    as (s' & Hrun & Hloop & Hc' & Hr' & Hcfg & Hten & HN & Htg & Hcur & _).
  exists s'. split; [exact Hrun|]. split; [exact Hloop|]. split.
  { subst entry. norm. by repeat split. }
  split.
  { split; [exact HN|]. split; [exact Htg|].
    intros HT. rewrite Hcur. by apply range_last. }
  split; [|done].
  split; [apply Hcfg|]. split; [apply Hcfg|]. done.
Qed.

Lemma get_latents_exec s :
  let r := fresh (dom (objects s)) in
  get_latents s
  = Ok (r, set_objects
             (<[r := mkTensor (storage (objects s !!! latent_in (self s))) false None]>
                (objects s)) s).
Proof. reflexivity. Qed.

Lemma fresh_ref_other (objs : gmap positive tensor) r x :
  objs !! r = Some x → fresh (dom objs) ≠ r.
Proof.
  intros Hx Heq. apply (is_fresh (dom objs)). rewrite Heq.
  apply elem_of_dom. by eexists.
Qed.

(** C9.  [get_images()] returns the image the generator renders for the
    current stored latent, without noise, and leaves the whole state
    unchanged.  [get_latents()] leaves the projector, every storage, the
    random generator and every existing tensor object unchanged; it only
    adds the tensor object it returns. *)
Theorem result_extraction_is_pure s :
  let p := self s in
  get_images s
    = Ok ((forward (g_ema p) [[tensor_value s (latent_in p)]] true (noises (g_ema p))).1, s) ∧
  ∃ r s', get_latents s = Ok (r, s') ∧
          self s' = self s ∧
          memory s' = memory s ∧
          rng s' = rng s ∧
          steps_log s' = steps_log s ∧
          objects s !! r = None ∧
          (∀ k, k ≠ r → objects s' !! k = objects s !! k) ∧
          (∀ k, is_Some (objects s !! k) → tensor_value s' k = tensor_value s k).
Proof.
  intros p. split; [reflexivity|].
  eexists _, _. split; [apply get_latents_exec|]. norm.
  assert (Hfresh : objects s !! fresh (dom (objects s)) = None).
  { apply not_elem_of_dom, is_fresh. }
  repeat split; try done.
  - intros k Hk. by rewrite lookup_insert_ne.
  - intros k [x Hx]. rewrite lookup_total_insert_ne; [done|].
    by apply (fresh_ref_other _ _ x).
Qed.

Lemma constructed_more_objects s r y :
  constructed s → objects s !! r = None →
  constructed (set_objects (<[r := y]> (objects s)) s).
Proof.
  intros [Hg (x & Hx & Hrg)] Hr. split; [exact Hg|]. norm.
  exists x. split; [|exact Hrg]. rewrite lookup_insert_ne; [done|].
  intros ->. congruence.
Qed.

Lemma get_latents_alias s :
  constructed s →
  positive_ramps (self s) →
  ∃ r s1, get_latents s = Ok (r, s1) ∧
    r ≠ latent_in (self s) ∧
    requires_grad <$> objects s1 !! r = Some false ∧
    grad <$> objects s1 !! r = Some None ∧
    storage <$> objects s1 !! r = storage <$> objects s1 !! latent_in (self s) ∧
    tensor_value s1 r = tensor_value s (latent_in (self s)) ∧
    (∀ target T, (3 ≤ length (shape target))%nat →
       ∃ s2, run target T s1 = Ok ((), s2) ∧
             tensor_value s2 r = tensor_value s2 (latent_in (self s2))).
Proof.
  intros Hc Hr.
  pose proof Hc as [_ (x & Hx & Hrg)].
  set (r := fresh (dom (objects s))).
  assert (Hfresh : objects s !! r = None) by apply not_elem_of_dom, is_fresh.
  assert (Hne : r ≠ latent_in (self s)) by by apply (fresh_ref_other _ _ x).
  assert (Hxt : objects s !!! latent_in (self s) = x) by by apply lookup_total_correct.
  set (s1 := set_objects (<[r := mkTensor (storage x) false None]> (objects s)) s).
  assert (Hget : get_latents s = Ok (r, s1)).
  { rewrite get_latents_exec. fold r. by rewrite Hxt. }
  assert (Hc1 : constructed s1) by by apply constructed_more_objects.
  exists r, s1. split; [exact Hget|]. split; [exact Hne|].
  split. { subst s1. norm. by rewrite lookup_insert_eq. }
  split. { subst s1. norm. by rewrite lookup_insert_eq. }
  split. { subst s1. norm. rewrite lookup_insert_eq, lookup_insert_ne by done. by rewrite Hx. }
  split. { subst s1. norm. by rewrite !lookup_total_insert_eq, Hxt. }
  intros target T Hshape.
  destruct (promoted_has_height target Hshape) as [h Hh].
  destruct (run_exec target T s1 h Hc1 Hr Hh)
    as (s2 & Hrun & _ & _ & _ & Hcfg & [Hoth Hsto] & _).
  exists s2. split; [exact Hrun|].
  destruct Hcfg as (Hli & _). subst s1. norm_in Hli. norm_in Hoth. norm_in Hsto.
  rewrite lookup_insert_ne in Hsto by done. rewrite Hx in Hsto.
  specialize (Hoth r Hne). rewrite lookup_insert_eq in Hoth.
  rewrite Hli. unfold tensor_value.
  destruct (objects s2 !! latent_in (self s)) as [y|] eqn:Hy; [|done].
  rewrite (lookup_total_correct _ _ _ Hoth), (lookup_total_correct _ _ _ Hy).
  cbn in Hsto. cbn [storage]. congruence.
Qed.

(** C8, as amended.  [get_latents()] returns a new tensor object, distinct
    from the stored latent, that requires no gradient and has none attached,
    and that shares the storage of the stored latent: it holds the current
    stored latent when returned and, after any later [run], whatever the
    stored latent holds then. *)
Theorem get_latents_shares_storage s :
  constructed s →
  positive_ramps (self s) →
  ∃ r s1, get_latents s = Ok (r, s1) ∧
    r ≠ latent_in (self s) ∧
    requires_grad <$> objects s1 !! r = Some false ∧
    grad <$> objects s1 !! r = Some None ∧
    storage <$> objects s1 !! r = storage <$> objects s1 !! latent_in (self s) ∧
    tensor_value s1 r = tensor_value s (latent_in (self s)) ∧
    (∀ target T, (3 ≤ length (shape target))%nat →
       ∃ s2, run target T s1 = Ok ((), s2) ∧
             tensor_value s2 r = tensor_value s2 (latent_in (self s2))).
Proof. apply get_latents_alias. Qed.

(** C10.  Constructed without an initial latent, the projector stores a
    fresh tensor holding [n_latent] copies of the estimated latent mean,
    with [requires_grad] set, and Adam is created over that tensor alone.
    The estimated latent mean is the mean over the samples of the 10000
    standard-normal vectors of dimension 512, drawn under seed 123 and mapped
    by the generator's [style]; it is also what [latent_mean] holds.  When
    the mapped samples are 10000 rows of [d] entries, every row of the
    stored latent has [d] entries, the [j]-th being the mean of column [j].
    Constructed with an initial latent, it stores that very tensor object,
    with [requires_grad] set, and Adam is created over it alone. *)
Theorem init_latent_and_optimizer g steps mse l nf rd ru nr objs mem log :
  (let s := init g steps mse l nf rd ru nr None objs mem log in
   let r := latent_in (self s) in
   let latent_out := style g (randn (Z.to_nat 10000) 512 (manual_seed 123)).1 in
   objects s !! r = Some (mkTensor (fresh (dom mem)) true None) ∧
   objs !! r = None ∧ mem !! fresh (dom mem) = None ∧
   tensor_value s r = repeat (latent_mean (self s)) (n_latent g) ∧
   latent_mean (self s) = mean0 latent_out ∧
   tensor_value s r = repeat (mean0 latent_out) (n_latent g) ∧
   length (tensor_value s r) = n_latent g ∧
   (∀ d, length latent_out = Z.to_nat 10000 →
         Forall (λ row, length row = d) latent_out →
         ∀ row, row ∈ tensor_value s r →
           length row = d ∧
           ∀ j, (j < d)%nat → nth j row 0 = column_mean latent_out (Z.to_nat 10000) j) ∧
   opt (self s) = mkAdam [mkGroup [r] l] ∅ ∧
   constructed s) ∧
  (∀ r x, objs !! r = Some x →
     let s := init g steps mse l nf rd ru nr (Some r) objs mem log in
     latent_in (self s) = r ∧
     objects s !! r = Some (set_requires_grad true x) ∧
     (∀ k, k ≠ r → objects s !! k = objs !! k) ∧
     memory s = mem ∧
     tensor_value s r = mem !!! storage x ∧
     opt (self s) = mkAdam [mkGroup [r] l] ∅ ∧
     constructed s).
Proof.
  split.
  - intros s r latent_out.
    destruct (init_fresh g steps mse l nf rd ru nr objs mem log) as (Hr & Ho & Hm & Hopt).
    fold s in Hr, Ho, Hm, Hopt. fold r in Hr, Ho, Hm, Hopt.
    destruct (init_stats g steps mse l nf rd ru nr None objs mem log) as [Hmean _].
    fold s in Hmean. fold latent_out in Hmean.
    assert (Hlook : objects s !! r = Some (mkTensor (fresh (dom mem)) true None)).
    { rewrite Ho. apply lookup_insert_eq. }
    assert (Hval : tensor_value s r = repeat (latent_mean (self s)) (n_latent g)).
    { unfold tensor_value. rewrite (lookup_total_correct _ _ _ Hlook). cbn [storage].
      rewrite Hm. apply lookup_total_insert_eq. }
    split; [exact Hlook|]. split.
    { rewrite Hr. apply not_elem_of_dom, is_fresh. }
    split. { apply not_elem_of_dom, is_fresh. }
    split; [exact Hval|]. split; [exact Hmean|].
    split; [by rewrite Hval, Hmean|].
    split; [by rewrite Hval, repeat_length|].
    split.
    { intros d Hlen Hrows row Hrow.
      rewrite Hval, Hmean in Hrow. apply list_elem_of_In, repeat_spec in Hrow. subst row.
      destruct (latent_stats_spec d latent_out 10000 Hlen ltac:(lia) Hrows)
        as (Hd & Hcol & _).
      split; [exact Hd|exact Hcol]. }
    split; [exact Hopt|].
    split; [exists l; by rewrite Hopt|]. by eexists.
  - intros r x Hx s.
    destruct (init_given g steps mse l nf rd ru nr r objs mem log) as (Hr & Ho & Hm & Hopt).
    fold s in Hr, Ho, Hm, Hopt.
    assert (Hlook : objects s !! r = Some (set_requires_grad true x)).
    { by rewrite Ho, lookup_alter_eq, Hx. }
    split; [exact Hr|]. split; [exact Hlook|]. split.
    { intros k Hk. rewrite Ho. by apply lookup_alter_ne. }
    split; [exact Hm|]. split.
    { unfold tensor_value. by rewrite (lookup_total_correct _ _ _ Hlook), Hm. }
    split; [exact Hopt|].
    split; [exists l; by rewrite Hopt, Hr|]. rewrite Hr. by eexists.
Qed.

End Claims.

(** ** The claims on the stand-ins *)

Section StandInClaims.
#[local] Existing Instance toy_externals.

Lemma toy_at_value s a k m v i T tg c :
  toy_at s a k m v i T tg c → tensor_value s 1%positive = [[a]].
Proof.
  intros (_ & _ & (x & Hx & Hsx & _) & Hmem & _). unfold tensor_value.
  rewrite (lookup_total_correct _ _ _ Hx), Hsx. by apply lookup_total_correct.
Qed.

Lemma toy_entry_at :
  toy_at toy_entry 0 0 0 0 (Some 0%Z) 1 (Some (unsqueeze0 toy_target)) 1.
Proof.
  pose proof (toy_prologue _ _ _ _ _ _ _ _ _ 1 toy_state_at) as (H1&H2&H3&H4&H5&H6&H7&H8&H9).
  unfold toy_at, toy_entry. norm. norm_in H1. norm_in H2. done.
Qed.

(** C4, counterexample.  On the stand-ins, the single step of
    [run toy_target 1] perturbs the latent to [[0.05]] but leaves the stored
    latent as it was; the stored latent is not the Adam update of the
    perturbed latent. *)
Lemma step_update_starts_from_stored_latent :
  ∃ s', step toy_entry = Ok ((), s') ∧
        run toy_target 1 toy_state = Ok ((), s') ∧
        latent_expr (self s') = Some [[0 + INR 1 * 0.05]] ∧
        tensor_value s' 1%positive = tensor_value toy_entry 1%positive ∧
        ¬ update_starts_from_perturbed toy_entry s'.
Proof.
  destruct (toy_step toy_entry 0 0 0 0 0%Z 1 1 toy_entry_at ltac:(done))
    as (s' & Hstep & Hat & Hle & Hlr & Hgr).
  rewrite toy_rate_0 in Hat, Hlr.
  assert (Hrun : run toy_target 1 toy_state = Ok ((), s')).
  { unfold run. erewrite bind_ok by reflexivity.
    erewrite bind_ok by apply toy_prepare_input.
    erewrite bind_ok by reflexivity. norm.
    change (range 1) with [0%Z]. cbn [for_each].
    erewrite bind_ok; [reflexivity|].
    unfold loop_body. erewrite bind_ok by reflexivity. exact Hstep. }
  replace (0 / 1 / 0.75) with 0 in Hle by (unfold Rdiv; ring).
  rewrite Rmax_right in Hle by lra.
  replace (1 * 0.05 * (1.0 - 0) ^ 2) with 0.05 in Hle by lra.
  assert (Hval : tensor_value s' 1%positive = [[0]]).
  { rewrite (toy_at_value _ _ _ _ _ _ _ _ _ Hat). by rewrite toy_next_rate_0. }
  exists s'. split; [exact Hstep|]. split; [exact Hrun|]. split; [exact Hle|]. split.
  { by rewrite Hval, (toy_at_value _ _ _ _ _ _ _ _ _ toy_entry_at). }
  intros (perturbed & g & Hp & Hg & Hupd).
  change (latent_in (self toy_entry)) with 1%positive in Hg, Hupd.
  rewrite Hle in Hp. rewrite Hgr in Hg. injection Hp as <-. injection Hg as <-.
  rewrite Hlr, Hval in Hupd.
  rewrite (adam_update_1x1 0 _ _ 0 0 0) in Hupd by done.
  cbn [fst] in Hupd. rewrite toy_next_rate_0 in Hupd.
  injection Hupd as Hupd. cbn [INR] in Hupd. lra.
Qed.

Lemma toy_at_more_objects s a k m v i T tg c r y :
  toy_at s a k m v i T tg c → r ≠ 1%positive →
  toy_at (set_objects (<[r := y]> (objects s)) s) a k m v i T tg c.
Proof.
  intros (H1&H2&(x & Hx & Hsx)&H4&H5&H6&H7&H8&H9) Hr. unfold toy_at. norm.
  split; [done|]. split; [done|]. split; [|done].
  exists x. by rewrite lookup_insert_ne.
Qed.

(** C8, counterexample.  On the stand-ins, the tensor returned by
    [get_latents()] holds [[0]] when returned and a different value after a
    subsequent [run] of two steps. *)
Lemma get_latents_result_follows_later_steps :
  ∃ r s1 s2, get_latents toy_state = Ok (r, s1) ∧
             run toy_target 2 s1 = Ok ((), s2) ∧
             tensor_value s1 r = [[0]] ∧
             tensor_value s2 r ≠ tensor_value s1 r.
Proof.
  destruct (get_latents_alias toy_state toy_constructed toy_positive_ramps)
    as (r & s1 & Hget & Hne & _ & _ & _ & Hv1 & Hlater).
  destruct (Hlater toy_target 2%Z toy_target_shape) as (s2 & Hrun & Hv2).
  change (latent_in (self toy_state)) with 1%positive in Hv1, Hne.
  rewrite (toy_at_value _ _ _ _ _ _ _ _ _ toy_state_at) in Hv1.
  assert (Hat1 : toy_at s1 0 0 0 0 None 1000 None 1).
  { rewrite get_latents_exec in Hget. injection Hget as <- <-.
    apply toy_at_more_objects; [apply toy_state_at|exact Hne]. }
  destruct (toy_run2 s1 _ _ _ _ _ _ _ _ Hat1) as (s2' & Hrun' & Hat2).
  rewrite Hrun in Hrun'. injection Hrun' as <-.
  assert (Hli : latent_in (self s2) = 1%positive).
  { destruct Hat2 as ((H & _) & _). exact H. }
  rewrite Hli, (toy_at_value _ _ _ _ _ _ _ _ _ Hat2) in Hv2.
  exists r, s1, s2. split; [exact Hget|]. split; [exact Hrun|]. split; [exact Hv1|].
  rewrite Hv1, Hv2. intros [= Heq].
  pose proof (toy_next_moves (toy_next 0 0 0 0 0) 0
                (0 * beta1 + (1 - beta1) * 1) (0 * beta2 + (1 - beta2) * (1 * 1))) as Hlt.
  rewrite toy_next_rate_0 in Hlt, Heq.
  assert (toy_next 0.1 0 1 (0 * beta1 + (1 - beta1) * 1)
            (0 * beta2 + (1 - beta2) * (1 * 1)) < 0).
  { apply Hlt; unfold beta1, beta2; lra. }
  lra.
Qed.

Lemma toy_latent_out_length : length toy_latent_out = Z.to_nat 10000.
Proof.
  unfold toy_latent_out. cbn [style toy_generator randn toy_externals fst].
  by rewrite !length_map, length_seq.
Qed.

Lemma toy_latent_out_rows : Forall (λ r, length r = 2%nat) toy_latent_out.
Proof.
  unfold toy_latent_out. cbn [style toy_generator randn toy_externals fst].
  apply Forall_forall. intros r Hr.
  apply list_elem_of_fmap in Hr as (r' & -> & Hr').
  apply list_elem_of_fmap in Hr' as (i & -> & _).
  rewrite length_take, repeat_length. reflexivity.
Qed.

Lemma toy_latent_out_entry i :
  (i < Z.to_nat 10000)%nat →
  entry toy_latent_out i 0 = INR (Z.to_nat 123 + i).
Proof.
  intros Hi. unfold entry, toy_latent_out.
  cbn [style toy_generator randn toy_externals fst manual_seed].
  erewrite (nth_lookup_Some _ i []).
  2:{ rewrite !list_lookup_fmap, lookup_seq_lt by exact Hi. reflexivity. }
  exact (eq_refl : nth 0 (take 2 (repeat (INR (Z.to_nat 123 + (0 + i))) (S (S 510)))) 0 = _).
Qed.

Lemma toy_total_sq_dev_pos : 0 < total_sq_dev toy_latent_out (Z.to_nat 10000) 2.
Proof.
  apply (total_sq_dev_pos _ _ _ 0 1 0); try lia.
  rewrite !toy_latent_out_entry by lia.
  apply not_INR. lia.
Qed.

(** C5, counterexample.  For the stand-in generator, whose latents have
    two dimensions, the spread computed at construction differs from the
    root-mean-square deviation over all samples and dimensions. *)
Lemma latent_std_is_not_rms_spread :
  let s := init toy_generator 1000 0 0.1 0.05 0.25 0.05 0.75 None ∅ ∅ [] in
  length toy_latent_out = Z.to_nat 10000 ∧
  Forall (λ r, length r = 2%nat) toy_latent_out ∧
  latent_std (self s) ≠ rms_spread toy_latent_out (Z.to_nat 10000) 2.
Proof.
  intros s. split; [apply toy_latent_out_length|]. split; [apply toy_latent_out_rows|].
  destruct (init_stats toy_generator 1000 0 0.1 0.05 0.25 0.05 0.75 None ∅ ∅ []) as [_ Hs].
  fold s in Hs. fold toy_latent_out in Hs.
  destruct (latent_stats_spec 2 toy_latent_out 10000 toy_latent_out_length ltac:(lia)
              toy_latent_out_rows) as (_ & _ & H3).
  unfold latent_stats in H3. cbn [snd] in H3.
  rewrite Hs, H3.
  apply std_neq_rms; [lia|lia|apply toy_total_sq_dev_pos].
Qed.

(** C6, counterexample.  A 200×300 target has a larger spatial dimension
    above 256, yet [prepare_input] stores it without downsampling. *)
Lemma prepare_input_keeps_wide_target :
  ∃ s', prepare_input toy_wide toy_state = Ok ((), s') ∧
        (256 < larger_spatial_dim (promoted toy_wide))%nat ∧
        target_image (self s') = Some (promoted toy_wide) ∧
        downsample_256 (promoted toy_wide) ≠ promoted toy_wide.
Proof.
  destruct (prepare_input_target toy_wide toy_state 200 eq_refl) as (s' & Hs' & Ht & _).
  exists s'. split; [exact Hs'|]. split; [|split; [exact Ht|]].
  - unfold larger_spatial_dim. cbn. lia.
  - intros H. apply (f_equal (λ img, nth 2 (shape img) 0%nat)) in H. cbn in H. lia.
Qed.

(** ** Instances of the theorems on the stand-ins *)

Lemma toy_comparable : comparable toy_generator toy_target.
Proof. intros w. reflexivity. Qed.

(** C1 on the stand-ins: one step, with [t = 0], and one update. *)
Lemma run_executes_every_step_witness :
  ∃ s', run toy_target 1 toy_state = Ok ((), s') ∧
        updates_made s' = 1%nat ∧ steps_log s' = [(0%Z, 0)].
Proof.
  destruct (run_executes_every_step toy_target 1 toy_state
              toy_constructed toy_positive_ramps toy_target_shape toy_comparable
              ltac:(lia))
    as (s' & Hrun & _ & _ & _ & _ & _ & _ & _ & H1).
  destruct (H1 eq_refl) as (_ & Hup & Hlog).
  exists s'. split; [exact Hrun|]. split; [exact Hup|exact Hlog].
Defined.

Lemma toy_groups : param_groups (opt (self toy_state)) ≠ [].
Proof. done. Qed.

(** C2 on the stand-ins: the default schedule starts at [0]. *)
Lemma update_lr_follows_schedule_witness :
  lr_schedule 0.1 0.25 0.05 0 = 0.
Proof.
  exact (proj1 (proj2 (update_lr_follows_schedule toy_state 0
     (proj1 toy_positive_ramps) (proj1 (proj2 toy_positive_ramps)) toy_groups))).
Defined.

Lemma toy_stats_nonneg :
  0 <= latent_std toy_projector ∧ 0 <= initial_noise_factor toy_projector
  ∧ 0 < noise_ramp_length toy_projector.
Proof. cbn. lra. Qed.

(** C3 on the stand-ins: the noise strength at [t = 1]. *)
Lemma noise_strength_anneals_witness :
  noise_strength toy_projector 1 toy_state
  = Ok (noise_magnitude 1 0.05 0.75 1, toy_state).
Proof.
  exact (proj1 (noise_strength_anneals toy_state
     (proj1 toy_stats_nonneg) (proj1 (proj2 toy_stats_nonneg))
     (proj2 (proj2 toy_stats_nonneg))) 1).
Defined.

(** C4 on the stand-ins: the first step of [run toy_target 1]. *)
Lemma step_updates_stored_latent_witness :
  ∃ s', step toy_entry = Ok ((), s') ∧
        grad <$> objects s' !! 1%positive = Some (Some [[1]]).
Proof.
  destruct (step_updates_stored_latent toy_entry 0%Z (unsqueeze0 toy_target))
    as (s' & Hs' & _ & _ & _ & Hg & _).
  - split; [by eexists|]. eexists. split; [apply lookup_singleton_eq|done].
  - unfold positive_ramps. cbn. lra.
  - reflexivity.
  - discriminate.
  - reflexivity.
  - exists s'. split; [exact Hs'|exact Hg].
Defined.

(** C5 on the stand-ins: the latent mean has two coordinates. *)
Lemma init_latent_statistics_witness :
  length (latent_mean (self (init toy_generator 1000 0 0.1 0.05 0.25 0.05 0.75
                               None ∅ ∅ []))) = 2%nat.
Proof.
  exact (proj1 (init_latent_statistics toy_generator 1000 0 0.1 0.05 0.25 0.05 0.75
                  None ∅ ∅ [] 2 toy_latent_out_length toy_latent_out_rows)).
Defined.

(** C6 on the stand-ins: a 256×256 target is stored as it is. *)
Lemma prepare_input_downsamples_tall_targets_witness :
  ∃ s', prepare_input toy_target toy_state = Ok ((), s') ∧
        target_image (self s') = Some (promoted toy_target).
Proof.
  destruct (prepare_input_downsamples_tall_targets toy_target toy_state 256 eq_refl)
    as (s' & Hs' & _ & Hle & _).
  exists s'. split; [exact Hs'|]. apply Hle. lia.
Defined.

(** C7 on the stand-ins: a run of two steps. *)
Lemma run_keeps_latent_and_optimizer_witness :
  ∃ s', run toy_target 2 toy_state = Ok ((), s') ∧
        latent_std (self s') = 1 ∧ cur_step (self s') = Some 1%Z.
Proof.
  destruct (run_keeps_latent_and_optimizer toy_target 2 toy_state 256
              toy_constructed toy_positive_ramps eq_refl)
    as (s' & Hrun & _ & _ & (_ & _ & Hcur) & (_ & Hstd & _) & _).
  exists s'. split; [exact Hrun|]. split; [exact Hstd|]. apply Hcur. lia.
Defined.

(** C8 on the stand-ins: the returned tensor is a new object. *)
Lemma get_latents_shares_storage_witness :
  ∃ r s1, get_latents toy_state = Ok (r, s1) ∧ r ≠ 1%positive.
Proof.
  destruct (get_latents_shares_storage toy_state toy_constructed toy_positive_ramps)
    as (r & s1 & Hget & Hne & _).
  exists r, s1. split; [exact Hget|exact Hne].
Defined.

(** C10 on the stand-ins: construction with an initial latent. *)
Lemma init_latent_and_optimizer_witness :
  latent_in (self (init toy_generator 1000 0 0.1 0.05 0.25 0.05 0.75 (Some 1%positive)
                     {[1%positive := mkTensor 1%positive false None]}
                     {[1%positive := [[0]]]} [])) = 1%positive.
Proof.
  exact (proj1 (proj2 (init_latent_and_optimizer toy_generator 1000 0 0.1 0.05 0.25
     0.05 0.75 {[1%positive := mkTensor 1%positive false None]}
     {[1%positive := [[0]]]} []) 1%positive (mkTensor 1%positive false None)
     (lookup_singleton_eq _ _))).
Defined.

End StandInClaims.

(** * Further properties: noise maps, schedule shape, edge cases and the script *)

(** ** Noise maps *)

Lemma vsum_app (a b : list R) : vsum (a ++ b) = vsum a + vsum b.
Proof.
  unfold vsum. induction a as [|x a IH]; simpl; [lra|]. rewrite IH. lra.
Qed.

Lemma msum_concat (x : list (list R)) : msum x = vsum (concat x).
Proof.
  unfold msum. induction x as [|r x IH]; [done|].
  cbn [map concat]. rewrite vsum_app, <- IH. reflexivity.
Qed.

Lemma concat_mmap f (x : list (list R)) : concat (mmap f x) = map f (concat x).
Proof.
  unfold mmap. induction x as [|r x IH]; [done|].
  cbn [map concat]. by rewrite IH, map_app.
Qed.

Lemma numel_mmap f x : numel (mmap f x) = numel x.
Proof. unfold numel. by rewrite concat_mmap, length_map. Qed.

Lemma vsum_map_shift_scale m s (l : list R) :
  vsum (map (λ a, (a + - m) / s) l) = (vsum l - INR (length l) * m) / s.
Proof.
  induction l as [|a l IH].
  - cbn. unfold Rdiv. ring.
  - cbn [map vsum foldr]. fold (vsum (map (λ a, (a + - m) / s) l)). fold (vsum l).
    rewrite IH. change (length (a :: l)) with (S (length l)). rewrite S_INR.
    unfold Rdiv. ring.
Qed.

Lemma vsum_map_sq_scaled m s (l : list R) :
  vsum (map (λ b, (b - 0) ^ 2) (map (λ a, (a + - m) / s) l))
  = vsum (map (λ a, (a - m) ^ 2) l) * (/ s * / s).
Proof.
  induction l as [|a l IH].
  - cbn. ring.
  - cbn [map vsum foldr].
    fold (vsum (map (λ b, (b - 0) ^ 2) (map (λ a, (a + - m) / s) l))).
    fold (vsum (map (λ a, (a - m) ^ 2) l)).
    rewrite IH. unfold Rdiv. ring.
Qed.

Lemma vsum_sq_nonneg m (l : list R) : 0 <= vsum (map (λ a, (a - m) ^ 2) l).
Proof.
  induction l as [|a l IH]; cbn [map vsum foldr]; [lra|].
  fold (vsum (map (λ a, (a - m) ^ 2) l)).
  pose proof (pow2_ge_0 (a - m)). lra.
Qed.

Lemma tstd_inv x s :
  tstd x = Some s →
  (2 ≤ numel x)%nat ∧
  let mean := vsum (concat x) / INR (numel x) in
  tmean x = Some mean ∧
  s = sqrt (vsum (map (λ a, (a - mean) ^ 2) (concat x)) / INR (numel x - 1)).
Proof.
  unfold tstd, tmean. intros H.
  destruct (numel x <=? 1)%nat eqn:Hn; [done|].
  apply Nat.leb_gt in Hn.
  destruct (numel x =? 0)%nat eqn:Hz; [apply Nat.eqb_eq in Hz; lia|].
  cbn in H. injection H as <-.
  split; [lia|]. rewrite !msum_concat, concat_mmap. done.
Qed.

Lemma normalized_spec x s :
  tstd x = Some s → s ≠ 0 →
  ∃ y, normalized x = Some y ∧
       map length y = map length x ∧
       tmean y = Some 0 ∧
       tstd y = Some 1.
Proof.
  intros Hs Hs0. pose proof (tstd_inv x s Hs) as (Hn & Hm & Hsv).
  set (n := numel x) in *. set (mean := vsum (concat x) / INR n) in *.
  set (V := vsum (map (λ a, (a - mean) ^ 2) (concat x))) in *.
  set (y := mmap (λ a, (a + - mean) / s) x).
  assert (HnR : 0 < INR n) by (apply lt_0_INR; lia).
  assert (Hn1 : 0 < INR (n - 1)) by (apply lt_0_INR; lia).
  assert (Hny : numel y = n) by apply numel_mmap.
  assert (Hsumy : msum y = 0).
  { unfold y. rewrite msum_concat, concat_mmap, vsum_map_shift_scale.
    fold (numel x). fold n. unfold mean, Rdiv. field. split; lra. }
  assert (Hmy : tmean y = Some 0).
  { unfold tmean. rewrite Hny.
    destruct (n =? 0)%nat eqn:Hz; [apply Nat.eqb_eq in Hz; lia|].
    rewrite Hsumy. f_equal. unfold Rdiv. ring. }
  exists y. split; [|split; [|split; [exact Hmy|]]].
  - unfold normalized. rewrite Hm, Hs. cbn.
    destruct (Req_EM_T s 0); [done|]. reflexivity.
  - unfold y, mmap. rewrite <- list_fmap_compose. apply list_fmap_ext.
    intros i r _. cbn. by rewrite length_map.
  - unfold tstd. rewrite Hny, Hmy.
    destruct (n <=? 1)%nat eqn:Hle; [apply Nat.leb_le in Hle; lia|].
    cbn. f_equal.
    rewrite msum_concat, concat_mmap. unfold y at 1. rewrite concat_mmap.
    rewrite vsum_map_sq_scaled. fold V.
    assert (HV : 0 <= V / INR (n - 1)).
    { apply Rmult_le_pos; [apply vsum_sq_nonneg|]. apply Rlt_le. by apply Rinv_0_lt_compat. }
    assert (Hss : s * s = V / INR (n - 1)).
    { rewrite Hsv. by apply sqrt_sqrt. }
    replace (V * (/ s * / s) / INR (n - 1)) with 1; [apply sqrt_1|].
    assert (HVs : V = s * s * INR (n - 1)).
    { rewrite Hss. field. lra. }
    rewrite HVs. field. split; lra.
Qed.

Lemma normalized_inv x y :
  normalized x = Some y → ∃ s, tstd x = Some s ∧ s ≠ 0.
Proof.
  unfold normalized. destruct (tmean x) as [m|]; [|done]. cbn.
  destruct (tstd x) as [s|]; [|done]. cbn.
  destruct (Req_EM_T s 0); [done|]. intros _. by exists s.
Qed.

Lemma vsum_sq_zero m (l : list R) :
  vsum (map (λ a, (a - m) ^ 2) l) = 0 → ∀ a, a ∈ l → a = m.
Proof.
  induction l as [|b l IH]; intros H a Ha; [by apply elem_of_nil in Ha|].
  cbn [map vsum foldr] in H. fold (vsum (map (λ a, (a - m) ^ 2) l)) in H.
  pose proof (pow2_ge_0 (b - m)). pose proof (vsum_sq_nonneg m l).
  apply elem_of_cons in Ha as [->|Ha].
  - assert (Hz : (b - m) ^ 2 = 0) by lra.
    cbn [pow] in Hz. nra.
  - apply IH; [lra|exact Ha].
Qed.

Lemma vsum_constant c (l : list R) :
  (∀ a, a ∈ l → a = c) → vsum l = INR (length l) * c.
Proof.
  induction l as [|b l IH]; intros H; [cbn; ring|].
  cbn [vsum foldr]. fold (vsum l). rewrite IH.
  - change (length (b :: l)) with (S (length l)). rewrite S_INR.
    rewrite (H b) by (apply elem_of_cons; by left). ring.
  - intros a Ha. apply H. apply elem_of_cons. by right.
Qed.

Lemma vsum_sq_constant m (l : list R) :
  (∀ a, a ∈ l → a = m) → vsum (map (λ a, (a - m) ^ 2) l) = 0.
Proof.
  induction l as [|b l IH]; intros H; [done|].
  cbn [map vsum foldr]. fold (vsum (map (λ a, (a - m) ^ 2) l)). rewrite IH.
  - rewrite (H b) by (apply elem_of_cons; by left). ring.
  - intros a Ha. apply H. apply elem_of_cons. by right.
Qed.

Lemma normalized_nan x :
  normalized x = None ↔ ∀ a b, a ∈ concat x → b ∈ concat x → a = b.
Proof.
  split.
  - intros Hnone a b Ha Hb.
    destruct (tstd x) as [s|] eqn:Hs.
    + pose proof (tstd_inv x s Hs) as (Hn & Hm & Hsv). cbn zeta in Hm, Hsv.
      assert (Hs0 : s = 0).
      { unfold normalized in Hnone. rewrite Hm, Hs in Hnone. cbn in Hnone.
        by destruct (Req_EM_T s 0). }
      assert (Hn1 : 0 < INR (numel x - 1)) by (apply lt_0_INR; lia).
      set (mean := vsum (concat x) / INR (numel x)) in *.
      assert (HV : vsum (map (λ a, (a - mean) ^ 2) (concat x)) = 0).
      { pose proof (vsum_sq_nonneg mean (concat x)) as Hge.
        rewrite Hs0 in Hsv. symmetry in Hsv. apply sqrt_eq_0 in Hsv.
        - apply (Rmult_eq_compat_r (INR (numel x - 1))) in Hsv.
          unfold Rdiv in Hsv. rewrite Rmult_assoc, Rinv_l in Hsv by lra. lra.
        - apply Rmult_le_pos; [exact Hge|]. apply Rlt_le. by apply Rinv_0_lt_compat. }
      rewrite (vsum_sq_zero mean _ HV a Ha), (vsum_sq_zero mean _ HV b Hb). done.
    + unfold tstd in Hs.
      destruct (numel x <=? 1)%nat eqn:Hle.
      * apply Nat.leb_le in Hle. unfold numel in Hle.
        destruct (concat x) as [|c [|c' l]]; cbn in Hle; try lia.
        -- by apply elem_of_nil in Ha.
        -- apply list_elem_of_singleton in Ha, Hb. congruence.
      * apply Nat.leb_gt in Hle. unfold tmean in Hs.
        destruct (numel x =? 0)%nat eqn:Hz; [apply Nat.eqb_eq in Hz; lia|done].
  - intros Hall. unfold normalized.
    destruct (tmean x) as [m|] eqn:Hm; [|done]. cbn.
    destruct (tstd x) as [s|] eqn:Hs; [|done]. cbn.
    destruct (Req_EM_T s 0); [done|]. exfalso.
    pose proof (tstd_inv x s Hs) as (Hn & Hm' & Hsv). cbn zeta in Hm', Hsv.
    set (mean := vsum (concat x) / INR (numel x)) in *.
    assert (HnR : 0 < INR (numel x)) by (apply lt_0_INR; lia).
    assert (Hc : ∀ a, a ∈ concat x → a = mean).
    { intros a Ha.
      assert (Hsum : vsum (concat x) = INR (length (concat x)) * a).
      { apply vsum_constant. intros b Hb. by apply Hall. }
      unfold mean. rewrite Hsum. fold (numel x). field. lra. }
    rewrite (vsum_sq_constant mean _ Hc) in Hsv.
    unfold Rdiv in Hsv. rewrite Rmult_0_l, sqrt_0 in Hsv. done.
Qed.

Lemma normalized_idempotent x y :
  normalized x = Some y → normalized y = Some y.
Proof.
  intros Hy. destruct (normalized_inv x y Hy) as (s & Hs & Hs0).
  destruct (normalized_spec x s Hs Hs0) as (y' & Hy' & _ & Hm & Hsd).
  assert (y' = y) as -> by congruence.
  unfold normalized. rewrite Hm, Hsd. cbn.
  destruct (Req_EM_T 1 0) as [H|_]; [lra|]. f_equal.
  unfold mmap. rewrite <- (list_fmap_id y) at 2. apply list_fmap_ext.
  intros i r _. rewrite <- (list_fmap_id r) at 2. apply list_fmap_ext.
  intros j a _. cbn. field.
Qed.

Lemma numel_rect (x : list (list R)) c :
  Forall (λ r, length r = c) x → numel x = (length x * c)%nat.
Proof.
  unfold numel. induction 1 as [|r x Hr _ IH]; [done|].
  cbn [concat length]. rewrite length_app, IH, Hr. lia.
Qed.

Lemma pool_row_spec k : ∀ r1 r2,
  length r1 = (2 * k)%nat → length r2 = (2 * k)%nat →
  length (pool_row r1 r2) = k ∧ vsum (pool_row r1 r2) = (vsum r1 + vsum r2) / 4.
Proof.
  induction k as [|k IH]; intros r1 r2 H1 H2.
  - destruct r1, r2; try done. cbn. split; [done|]. unfold Rdiv. ring.
  - destruct r1 as [|a [|b r1]]; try (cbn in H1; lia).
    destruct r2 as [|c [|d r2]]; try (cbn in H2; lia).
    cbn in H1, H2. destruct (IH r1 r2) as [Hl Hs]; [lia|lia|].
    cbn [pool_row length vsum foldr]. fold (vsum (pool_row r1 r2)).
    fold (vsum r1). fold (vsum r2). rewrite Hl, Hs. split; [done|].
    unfold Rdiv. ring.
Qed.

Lemma pool_spec j k : ∀ x,
  length x = (2 * k)%nat → Forall (λ r, length r = (2 * j)%nat) x →
  length (pool x) = k ∧ Forall (λ r, length r = j) (pool x) ∧
  msum (pool x) = msum x / 4.
Proof.
  induction k as [|k IH]; intros x Hx Hall.
  - destruct x; [|done]. cbn. split; [done|]. split; [done|].
    unfold msum. cbn. unfold Rdiv. ring.
  - destruct x as [|r1 [|r2 x]]; try (cbn in Hx; lia).
    apply Forall_cons in Hall as [H1 Hall]. apply Forall_cons in Hall as [H2 Hall].
    cbn in Hx. destruct (IH x) as (Hl & Hf & Hs); [lia|done|].
    destruct (pool_row_spec j r1 r2 H1 H2) as [Hrl Hrs].
    cbn [pool length]. rewrite Hl. split; [done|]. split.
    { by apply Forall_cons. }
    unfold msum in *. cbn [map vsum foldr].
    fold (vsum (map vsum (pool x))). fold (vsum (map vsum x)).
    rewrite Hrs, Hs. unfold Rdiv. ring.
Qed.

Lemma pool_square h x : square (2 * h) x → square h (pool x).
Proof.
  intros [Hl Hall]. destruct (pool_spec h h x Hl Hall) as (H1 & H2 & _). by split.
Qed.

Lemma numel_square n x : square n x → numel x = (n * n)%nat.
Proof. intros [Hl Hall]. by rewrite (numel_rect x n Hall), Hl. Qed.

Lemma pool_mean h x :
  (1 ≤ h)%nat → square (2 * h) x → tmean (pool x) = tmean x.
Proof.
  intros Hh Hsq. pose proof (pool_square h x Hsq) as Hp.
  destruct Hsq as [Hl Hall]. destruct (pool_spec h h x Hl Hall) as (_ & _ & Hs).
  unfold tmean. rewrite (numel_square h _ Hp), (numel_square (2 * h) x (conj Hl Hall)).
  destruct (h * h =? 0)%nat eqn:E1; [apply Nat.eqb_eq in E1; nia|].
  destruct (2 * h * (2 * h) =? 0)%nat eqn:E2; [apply Nat.eqb_eq in E2; nia|].
  f_equal. rewrite Hs.
  assert (0 < INR h) by (apply lt_0_INR; lia).
  rewrite !mult_INR. change (INR 2) with 2. field. lra.
Qed.

Lemma length_roll1 {A} (l : list A) : length (roll1 l) = length l.
Proof. unfold roll1. rewrite length_app, length_drop, length_take. lia. Qed.

Lemma Forall_roll1 {A} (P : A → Prop) (l : list A) : Forall P l → Forall P (roll1 l).
Proof.
  intros H. unfold roll1. apply Forall_app. split.
  - by apply Forall_drop.
  - by apply Forall_take.
Qed.

Lemma mzip_rows f n (x y : list (list R)) :
  Forall (λ r, length r = n) x → Forall (λ r, length r = n) y →
  Forall (λ r, length r = n) (mzip f x y).
Proof.
  intros Hx. revert y. unfold mzip.
  induction Hx as [|r x Hr _ IH]; intros [|r' y] Hy; cbn; try done.
  apply Forall_cons in Hy as [Hr' Hy]. apply Forall_cons. split.
  - unfold vzip. rewrite length_zip_with. lia.
  - by apply IH.
Qed.

Lemma mzip_square f n x y : square n x → square n y → square n (mzip f x y).
Proof.
  intros [Hx Hax] [Hy Hay]. split.
  - unfold mzip. rewrite length_zip_with. lia.
  - by apply mzip_rows.
Qed.

Lemma tmean_square n x : (1 ≤ n)%nat → square n x → ∃ m, tmean x = Some m.
Proof.
  intros Hn Hsq. unfold tmean. rewrite (numel_square n x Hsq).
  destruct (n * n =? 0)%nat eqn:E; [apply Nat.eqb_eq in E; nia|]. by eexists.
Qed.

Lemma level_term_square n x :
  (1 ≤ n)%nat → square n x → ∃ t, level_term x = Some t ∧ 0 <= t.
Proof.
  intros Hn Hsq. pose proof Hsq as [Hl Hall].
  assert (H1 : square n (map roll1 x)).
  { split; [by rewrite length_map|].
    apply Forall_fmap. eapply Forall_impl; [exact Hall|].
    intros r Hr. cbn. by rewrite length_roll1. }
  assert (H2 : square n (roll1 x)).
  { split; [by rewrite length_roll1|]. by apply Forall_roll1. }
  destruct (tmean_square n _ Hn (mzip_square Rmult n x _ Hsq H1)) as [a Ha].
  destruct (tmean_square n _ Hn (mzip_square Rmult n x _ Hsq H2)) as [b Hb].
  unfold level_term. rewrite Ha, Hb. cbn. eexists. split; [reflexivity|].
  pose proof (pow2_ge_0 a). pose proof (pow2_ge_0 b). lra.
Qed.

Lemma pyramid_step size noise reg_loss :
  pyramid size noise reg_loss
  = if decide (size ≤ 8)%nat then Ok (nan_add reg_loss (level_term noise))
    else if (numel noise =? 1 * 1 * (size / 2) * 2 * (size / 2) * 2)%nat
         then pyramid (size / 2) (pool noise) (nan_add reg_loss (level_term noise))
         else Raise RuntimeError.
Proof.
  rewrite pyramid_equation_1.
  destruct (decide (size ≤ 8)%nat); [reflexivity|].
  apply pyramid_clause_1_equation_2.
Qed.

Lemma dyadic_small n : (1 ≤ n ≤ 8)%nat → dyadic_size n.
Proof. intros H. exists n, 0%nat. split; [done|]. cbn. lia. Qed.

Lemma dyadic_double h : (1 ≤ h)%nat → dyadic_size h → dyadic_size (2 * h).
Proof.
  intros _ (m & j & Hm & ->). exists m, (S j). split; [done|].
  rewrite Nat.pow_succ_r'. lia.
Qed.

Lemma dyadic_half h : (8 < 2 * h)%nat → dyadic_size (2 * h) → dyadic_size h.
Proof.
  intros Hh (m & j & Hm & Hn). destruct j as [|j].
  - cbn in Hn. lia.
  - exists m, j. split; [done|]. rewrite Nat.pow_succ_r' in Hn. nia.
Qed.

Lemma dyadic_odd h : (8 < 2 * h + 1)%nat → ¬ dyadic_size (2 * h + 1).
Proof.
  intros Hh (m & j & Hm & Hn). destruct j as [|j].
  - cbn in Hn. lia.
  - rewrite Nat.pow_succ_r' in Hn. nia.
Qed.

Lemma pyramid_spec : ∀ n x a,
  (1 ≤ n)%nat → square n x → 0 <= a →
  (dyadic_size n ∧ ∃ r, pyramid n x (Some a) = Ok (Some r) ∧ a <= r)
  ∨ (¬ dyadic_size n ∧ pyramid n x (Some a) = Raise RuntimeError).
Proof.
  induction n as [n IH] using lt_wf_ind. intros x a Hn Hsq Ha.
  destruct (level_term_square n x Hn Hsq) as (t & Ht & Ht0).
  rewrite pyramid_step, Ht. cbn [nan_add mbind option_bind].
  destruct (decide (n ≤ 8)%nat) as [Hle|Hgt].
  { left. split; [by apply dyadic_small|]. eexists. split; [reflexivity|]. lra. }
  rewrite (numel_square n x Hsq).
  pose proof (Nat.div_mod_eq n 2) as Hdm.
  pose proof (Nat.mod_upper_bound n 2 ltac:(lia)) as Hmod.
  set (h := (n / 2)%nat) in *.
  destruct (decide (n mod 2 = 0)%nat) as [Heven|Hodd].
  - assert (Hn2 : n = (2 * h)%nat) by lia.
    destruct (n * n =? 1 * 1 * h * 2 * h * 2)%nat eqn:E;
      [|apply Nat.eqb_neq in E; nia].
    assert (Hsqh : square h (pool x)).
    { apply pool_square. by rewrite <- Hn2. }
    destruct (IH h ltac:(lia) (pool x) (a + t) ltac:(lia) Hsqh ltac:(lra))
      as [(Hd & r & Hr & Har)|(Hd & Hr)].
    + left. split; [rewrite Hn2; apply dyadic_double; [lia|done]|].
      exists r. split; [exact Hr|lra].
    + right. split; [|exact Hr]. intros Hdn. apply Hd.
      apply dyadic_half; [lia|by rewrite <- Hn2].
  - assert (Hn2 : n = (2 * h + 1)%nat) by lia.
    destruct (n * n =? 1 * 1 * h * 2 * h * 2)%nat eqn:E;
      [apply Nat.eqb_eq in E; nia|].
    right. split; [|reflexivity]. rewrite Hn2. apply dyadic_odd. lia.
Qed.

Lemma reg_noises_spec : ∀ noises a,
  Forall (λ x, (1 ≤ length x)%nat ∧ square (length x) x) noises → 0 <= a →
  (Forall (λ x, dyadic_size (length x)) noises
   ∧ ∃ r, reg_noises noises (Some a) = Ok (Some r) ∧ a <= r)
  ∨ (Exists (λ x, ¬ dyadic_size (length x)) noises
     ∧ reg_noises noises (Some a) = Raise RuntimeError).
Proof.
  intros ns. induction ns as [|x ns IH]; intros a Hall Ha.
  - left. split; [done|]. exists a. split; [reflexivity|lra].
  - apply Forall_cons in Hall as [[Hn Hsq] Hall]. cbn [reg_noises].
    destruct (pyramid_spec (length x) x a Hn Hsq Ha) as [(Hd & r & Hr & Har)|(Hd & Hr)].
    + rewrite Hr. destruct (IH r Hall ltac:(lra)) as [(Hds & r' & Hr' & Har')|(Hex & Hr')].
      * left. split; [by apply Forall_cons|]. exists r'. split; [exact Hr'|lra].
      * right. split; [by apply Exists_cons_tl|exact Hr'].
    + rewrite Hr. right. split; [by apply Exists_cons_hd|reflexivity].
Qed.

(** *** Constant noise maps *)

Lemma roll1_replicate {A} n (a : A) : roll1 (replicate n a) = replicate n a.
Proof.
  unfold roll1. rewrite length_replicate, drop_replicate, take_replicate.
  rewrite <- replicate_add. f_equal. lia.
Qed.

Lemma vsum_replicate n d : vsum (replicate n d) = INR n * d.
Proof.
  induction n as [|n IH]; [cbn; ring|].
  rewrite replicate_S. cbn [vsum foldr]. fold (vsum (replicate n d)).
  rewrite IH, S_INR. ring.
Qed.

Lemma msum_constant n m d : msum (replicate n (replicate m d)) = INR n * (INR m * d).
Proof.
  unfold msum. change (map vsum) with (fmap (M:=list) vsum).
  rewrite fmap_replicate, vsum_replicate, vsum_replicate. reflexivity.
Qed.

Lemma square_constant n d : square n (replicate n (replicate n d)).
Proof.
  split; [apply length_replicate|]. apply Forall_replicate, length_replicate.
Qed.

Lemma tmean_constant n d :
  (1 ≤ n)%nat → tmean (replicate n (replicate n d)) = Some d.
Proof.
  intros Hn. unfold tmean. rewrite (numel_square n _ (square_constant n d)).
  destruct (n * n =? 0)%nat eqn:E; [apply Nat.eqb_eq in E; nia|].
  f_equal. rewrite msum_constant, mult_INR.
  assert (0 < INR n) by (apply lt_0_INR; lia). field. lra.
Qed.

Lemma level_term_constant n c :
  (1 ≤ n)%nat →
  level_term (replicate n (replicate n c)) = Some ((c * c) ^ 2 + (c * c) ^ 2).
Proof.
  intros Hn. unfold level_term.
  change (map roll1) with (fmap (M:=list) (@roll1 R)).
  rewrite fmap_replicate, !roll1_replicate.
  unfold mzip, vzip. rewrite !zip_with_replicate.
  rewrite tmean_constant by done. reflexivity.
Qed.

Lemma pool_row_constant k c :
  pool_row (replicate (2 * k) c) (replicate (2 * k) c)
  = replicate k ((c + c + c + c) / 4).
Proof.
  induction k as [|k IH]; [done|].
  replace (2 * S k)%nat with (S (S (2 * k))) by lia.
  cbn [replicate pool_row]. by rewrite IH.
Qed.

Lemma pool_replicate k (r : list R) :
  pool (replicate (2 * k) r) = replicate k (pool_row r r).
Proof.
  induction k as [|k IH]; [done|].
  replace (2 * S k)%nat with (S (S (2 * k))) by lia.
  cbn [replicate pool]. by rewrite IH.
Qed.

Lemma pool_constant h c :
  pool (replicate (2 * h) (replicate (2 * h) c)) = replicate h (replicate h c).
Proof.
  rewrite pool_replicate, pool_row_constant.
  replace ((c + c + c + c) / 4) with c by lra. reflexivity.
Qed.

Lemma pyramid_constant k c a :
  pyramid (2 ^ (k + 3)) (replicate (2 ^ (k + 3)) (replicate (2 ^ (k + 3)) c)) (Some a)
  = Ok (Some (a + INR (k + 1) * ((c * c) ^ 2 + (c * c) ^ 2))).
Proof.
  revert a. induction k as [|k IH]; intros a.
  - change (2 ^ (0 + 3))%nat with 8%nat.
    rewrite pyramid_step, level_term_constant by lia.
    destruct (decide (8 ≤ 8)%nat); [|lia]. cbn [nan_add mbind option_bind].
    do 2 f_equal. cbn [INR Nat.add]. ring.
  - assert (Hpos : (8 ≤ 2 ^ (k + 3))%nat).
    { rewrite Nat.pow_add_r. change (2 ^ 3)%nat with 8%nat.
      pose proof (Nat.pow_nonzero 2 k ltac:(lia)). nia. }
    replace (2 ^ (S k + 3))%nat with (2 * 2 ^ (k + 3))%nat
      by (cbn [Nat.add]; rewrite Nat.pow_succ_r'; reflexivity).
    set (h := (2 ^ (k + 3))%nat) in *.
    rewrite pyramid_step, level_term_constant by lia.
    destruct (decide (2 * h ≤ 8)%nat); [lia|].
    rewrite (numel_square (2 * h) _ (square_constant (2 * h) c)).
    replace (2 * h / 2)%nat with h by (rewrite Nat.mul_comm, Nat.div_mul; lia).
    destruct (2 * h * (2 * h) =? 1 * 1 * h * 2 * h * 2)%nat eqn:E;
      [|apply Nat.eqb_neq in E; nia].
    rewrite pool_constant. cbn [nan_add mbind option_bind].
    rewrite IH. do 2 f_equal.
    replace (S k + 1)%nat with (S (k + 1)) by lia. rewrite (S_INR (k + 1)). ring.
Qed.

(** ** Output paths *)

Lemma split_cons sep c s :
  split sep (c :: s)
  = if Ascii.eqb c sep then [] :: split sep s
    else match split sep s with
         | piece :: pieces => (c :: piece) :: pieces
         | [] => [[c]]
         end.
Proof. reflexivity. Qed.

Lemma split_nonempty sep s : split sep s ≠ [].
Proof.
  destruct s as [|c s]; [done|]. rewrite split_cons.
  destruct (Ascii.eqb c sep); [done|]. by destruct (split sep s).
Qed.

Lemma split_pieces sep s :
  Forall (λ p, (sep ∉ p) ∧ (∀ c, c ∈ p → c ∈ s)) (split sep s).
Proof.
  induction s as [|c s IH].
  - apply Forall_cons. split; [|done]. split; [by intros ?%elem_of_nil|done].
  - assert (IH' : Forall (λ p, (sep ∉ p) ∧ (∀ c', c' ∈ p → c' ∈ c :: s)) (split sep s)).
    { eapply Forall_impl; [exact IH|]. intros p [H1 H2]. split; [exact H1|].
      intros c' Hc'. apply elem_of_cons. right. by apply H2. }
    rewrite split_cons. destruct (Ascii.eqb c sep) eqn:Hc.
    + apply Forall_cons. split; [|exact IH'].
      split; [by intros ?%elem_of_nil|by intros ? ?%elem_of_nil].
    + apply Ascii.eqb_neq in Hc.
      destruct (split sep s) as [|p ps] eqn:Hs; [by destruct (split_nonempty sep s)|].
      apply Forall_cons in IH' as [[H1 H2] IH']. apply Forall_cons. split; [|exact IH'].
      split.
      * intros [->|Hin]%elem_of_cons; [done|by apply H1].
      * intros c' [->|Hin]%elem_of_cons; [apply elem_of_cons; by left|by apply H2].
Qed.

Lemma split_none sep s : sep ∉ s → split sep s = [s].
Proof.
  induction s as [|c s IH]; intros Hs; [done|].
  rewrite split_cons.
  destruct (Ascii.eqb c sep) eqn:Hc.
  - apply Ascii.eqb_eq in Hc. subst. exfalso. apply Hs, elem_of_cons. by left.
  - rewrite IH; [done|]. intros Hin. apply Hs, elem_of_cons. by right.
Qed.

Lemma split_first sep a b :
  sep ∉ a → split sep (a ++ sep :: b) = a :: split sep b.
Proof.
  induction a as [|c a IH]; intros Ha.
  - cbn [app]. rewrite split_cons. by rewrite Ascii.eqb_refl.
  - cbn [app]. rewrite split_cons.
    destruct (Ascii.eqb c sep) eqn:Hc.
    + apply Ascii.eqb_eq in Hc. subst. exfalso. apply Ha, elem_of_cons. by left.
    + rewrite IH; [done|]. intros Hin. apply Ha, elem_of_cons. by right.
Qed.

Lemma last_cons_nonempty {A} (x : A) (l : list A) : l ≠ [] → last (x :: l) = last l.
Proof. by destruct l. Qed.

Lemma split_last sep a b :
  last (split sep (a ++ sep :: b)) = last (split sep b).
Proof.
  induction a as [|c a IH].
  - cbn [app]. rewrite split_cons, Ascii.eqb_refl.
    apply last_cons_nonempty, split_nonempty.
  - cbn [app]. rewrite split_cons. destruct (Ascii.eqb c sep).
    + rewrite last_cons_nonempty by apply split_nonempty. exact IH.
    + destruct (split sep (a ++ sep :: b)) as [|p ps] eqn:Hs;
        [by destruct (split_nonempty sep (a ++ sep :: b))|].
      rewrite <- IH. destruct ps as [|p' ps].
      * (* the separator in the middle leaves at least two pieces *)
        exfalso. clear IH.
        assert (Hlen : (2 ≤ length (split sep (a ++ sep :: b)))%nat).
        { clear Hs. induction a as [|c' a IHa].
          - cbn [app]. rewrite split_cons, Ascii.eqb_refl. cbn [length].
            pose proof (split_nonempty sep b). destruct (split sep b); [done|cbn; lia].
          - cbn [app]. rewrite split_cons. destruct (Ascii.eqb c' sep).
            + cbn [length]. lia.
            + destruct (split sep (a ++ sep :: b)); cbn in *; lia. }
        rewrite Hs in Hlen. cbn in Hlen. lia.
      * reflexivity.
Qed.

Lemma py_last_some {A} (xs : list A) : xs ≠ [] → ∃ x, py_last xs = Ok x ∧ last xs = Some x.
Proof.
  intros Hne. unfold py_last. destruct (last xs) as [x|] eqn:Hl; [by exists x|].
  by apply last_None in Hl.
Qed.

Lemma save_dir_of_spec d :
  d ≠ [] →
  ∃ d', save_dir_of d = Ok d' ∧
        last d' = Some "/"%char ∧
        (last d = Some "/"%char → d' = d) ∧
        (last d ≠ Some "/"%char → d' = d ++ ["/"%char]) ∧
        save_dir_of d' = Ok d'.
Proof.
  intros Hne. destruct (py_last_some d Hne) as (c & Hc & Hl).
  unfold save_dir_of. rewrite Hc. cbn [mbind result_bind].
  destruct (Ascii.eqb c "/") eqn:Hs; cbn [negb].
  - apply Ascii.eqb_eq in Hs. subst c. exists d.
    split; [reflexivity|]. split; [exact Hl|]. split; [done|]. split; [done|].
    rewrite Hc. cbn [mbind result_bind]. by rewrite Ascii.eqb_refl.
  - apply Ascii.eqb_neq in Hs. exists (d ++ ["/"%char]).
    split; [reflexivity|]. split; [apply last_snoc|].
    split; [intros H; congruence|]. split; [done|].
    unfold py_last. rewrite last_snoc. cbn [mbind result_bind].
    by rewrite Ascii.eqb_refl.
Qed.

Lemma stem_spec file :
  ∃ name, stem file = Ok name ∧
          ("/"%char ∉ name) ∧ ("."%char ∉ name) ∧ (∀ c, c ∈ name → c ∈ file).
Proof.
  destruct (py_last_some (split "/" file) (split_nonempty _ _)) as (base & Hb & Hl).
  unfold stem. rewrite Hb. cbn [mbind result_bind].
  pose proof (split_pieces "/" file) as Hp.
  rewrite Forall_forall in Hp.
  destruct (Hp base) as [Hb1 Hb2].
  { apply last_Some in Hl as [l' ->]. apply elem_of_app. right. by apply elem_of_cons; left. }
  pose proof (split_pieces "." base) as Hq.
  destruct (split "." base) as [|name rest] eqn:Hs; [by destruct (split_nonempty "." base)|].
  apply Forall_cons in Hq as [[Hn1 Hn2] _].
  exists name. split; [reflexivity|]. split; [|split; [exact Hn1|]].
  - intros Hin. apply Hb1. by apply Hn2.
  - intros c Hc. by apply Hb2, Hn2.
Qed.

Lemma stem_of_path dir name ext :
  "/"%char ∉ name → "."%char ∉ name → "/"%char ∉ ext →
  stem (dir ++ "/"%char :: name ++ "."%char :: ext) = Ok name
  ∧ stem (name ++ "."%char :: ext) = Ok name.
Proof.
  intros Hn1 Hn2 He.
  assert (Hbase : "/"%char ∉ name ++ "."%char :: ext).
  { intros [H|H]%elem_of_app; [done|]. apply elem_of_cons in H as [H|H]; [done|done]. }
  assert (Hstem : ∀ l, last (split "/" l) = Some (name ++ "."%char :: ext) →
                       stem l = Ok name).
  { intros l Hl. unfold stem, py_last. rewrite Hl. cbn [mbind result_bind].
    by rewrite split_first. }
  split; apply Hstem.
  - rewrite split_last, split_none by done. reflexivity.
  - rewrite split_none by done. reflexivity.
Qed.

(** ** Edge cases of [run] and of the schedule *)

Section Edges.
Context `{E : Externals}.

Lemma bind_raise {A B} (m : M A) (f : A → M B) s e :
  m s = Raise e → (m ≫= f) s = Raise e.
Proof. intros H. unfold mbind, M_bind. by rewrite H. Qed.

Lemma range_nonpositive T : (T ≤ 0)%Z → range T = [].
Proof. intros HT. unfold range. by replace (Z.to_nat T) with 0%nat by lia. Qed.

Lemma range_positive T : (1 ≤ T)%Z → ∃ rest, range T = 0%Z :: rest.
Proof.
  intros HT. unfold range. destruct (Z.to_nat T) as [|n] eqn:Hn; [lia|].
  cbn [seq map]. by eexists.
Qed.

Lemma run_no_steps target T s h :
  (T ≤ 0)%Z →
  shape (promoted target) !! 2%nat = Some h →
  run target T s
  = Ok ((), set_self
              (set_target_image
                 (Some (if (256 <? h)%nat then downsample_256 (promoted target)
                        else promoted target))
                 (set_num_steps T (self s))) s).
Proof.
  intros HT Hh. unfold run.
  erewrite bind_ok by reflexivity.
  erewrite bind_ok by (apply prepare_input_exec; exact Hh).
  erewrite bind_ok by reflexivity. norm.
  by rewrite range_nonpositive.
Qed.

Lemma run_small_target target T s :
  (length (shape target) < 3)%nat → run target T s = Raise IndexError.
Proof.
  intros Hlen. unfold run.
  erewrite bind_ok by reflexivity.
  apply bind_raise. unfold prepare_input, promoted.
  destruct (length (shape target) =? 3)%nat eqn:Hd; [apply Nat.eqb_eq in Hd; lia|].
  rewrite (proj2 (lookup_ge_None (shape target) 2)) by lia. reflexivity.
Qed.

Lemma py_div_zero a s : py_div a 0 s = Raise ZeroDivisionError.
Proof. unfold py_div. by destruct (Req_EM_T 0 0). Qed.

Lemma step_zero_ramp s i :
  cur_step (self s) = Some i →
  num_steps (self s) ≠ 0%Z →
  noise_ramp_length (self s) = 0 ∨ lr_rampdown_length (self s) = 0
    ∨ lr_rampup_length (self s) = 0 →
  step s = Raise ZeroDivisionError.
Proof.
  intros Hi HN Hz. unfold step.
  erewrite bind_ok by reflexivity. rewrite Hi.
  erewrite bind_ok by reflexivity.
  erewrite bind_ok by (apply py_div_ok, not_0_IZR, HN).
  erewrite bind_ok by reflexivity.
  destruct (Req_EM_T (noise_ramp_length (self s)) 0) as [Hn|Hn].
  { apply bind_raise. unfold noise_strength. apply bind_raise.
    rewrite Hn. apply py_div_zero. }
  erewrite bind_ok.
  2:{ unfold noise_strength. erewrite bind_ok by (apply py_div_ok; exact Hn). reflexivity. }
  erewrite bind_ok by reflexivity.
  erewrite bind_ok by reflexivity.
  erewrite bind_ok by reflexivity.
  apply bind_raise. unfold update_lr.
  erewrite bind_ok by reflexivity. norm.
  destruct (Req_EM_T (lr_rampdown_length (self s)) 0) as [Hd|Hd].
  { apply bind_raise. rewrite Hd. apply py_div_zero. }
  erewrite bind_ok by (apply py_div_ok; exact Hd).
  apply bind_raise.
  destruct Hz as [Hz|[Hz|Hz]]; [done|done|]. rewrite Hz. apply py_div_zero.
Qed.

Lemma run_zero_ramp target T s :
  (1 ≤ T)%Z →
  (3 ≤ length (shape target))%nat →
  noise_ramp_length (self s) = 0 ∨ lr_rampdown_length (self s) = 0
    ∨ lr_rampup_length (self s) = 0 →
  run target T s = Raise ZeroDivisionError.
Proof.
  intros HT Hshape Hz.
  destruct (promoted_has_height target Hshape) as [h Hh].
  destruct (range_positive T HT) as [rest Hr].
  unfold run.
  erewrite bind_ok by reflexivity.
  erewrite bind_ok by (apply prepare_input_exec; exact Hh).
  erewrite bind_ok by reflexivity. norm. rewrite Hr. cbn [for_each].
  apply bind_raise. unfold loop_body.
  erewrite bind_ok by reflexivity.
  apply (step_zero_ramp _ 0%Z); norm; [done|lia|exact Hz].
Qed.

End Edges.

Section StandInEdges.
#[local] Existing Instance toy_externals.

(** C1, counterexample.  [run(target, 1)] on a projector constructed with
    [lr_rampdown_length = 0] has [T >= 1] and a comparable target of three
    dimensions, yet it completes no step: the call raises
    [ZeroDivisionError]. *)
Lemma run_raises_on_zero_ramp :
  (1 ≤ 1)%Z ∧ (3 ≤ length (shape toy_target))%nat ∧
  comparable toy_generator toy_target ∧
  run toy_target 1 toy_flat_rampdown = Raise ZeroDivisionError.
Proof.
  split; [lia|]. split; [exact toy_target_shape|]. split; [exact toy_comparable|].
  apply run_zero_ramp; [lia|exact toy_target_shape|].
  right; left.
  by destruct (init_hyper toy_generator 1000 0 0.1 0.05 0 0.05 0.75 None ∅ ∅ [])
    as (_ & _ & _ & _ & _ & _ & Hd & _).
Qed.

End StandInEdges.

Lemma lr_schedule_bounds l d u t :
  0 <= l → 0 < u → 0 <= t → 0 <= lr_schedule l d u t <= l.
Proof.
  intros Hl Hu Ht. unfold lr_schedule.
  set (x := Rmin 1 ((1 - t) / d) * PI).
  pose proof (COS_bound x) as [Hc1 Hc2].
  assert (He : 0 <= 0.5 - 0.5 * cos x <= 1) by lra.
  assert (Hr : 0 <= Rmin 1 (t / u) <= 1).
  { split; [|apply Rmin_l]. apply Rmin_glb; [lra|].
    apply Rmult_le_pos; [done|]. apply Rlt_le. by apply Rinv_0_lt_compat. }
  set (e := 0.5 - 0.5 * cos x) in *. set (r := Rmin 1 (t / u)) in *.
  assert (0 <= e * r <= 1) by nra. nra.
Qed.

Lemma lr_schedule_rises l d u t1 t2 :
  0 <= l → 0 < d → 0 < u → t1 <= t2 → t2 <= 1 - d →
  lr_schedule l d u t1 <= lr_schedule l d u t2.
Proof.
  intros Hl Hd Hu H12 H2. unfold lr_schedule.
  assert (Hs : ∀ t, t <= 1 - d → Rmin 1 ((1 - t) / d) = 1).
  { intros t Ht. apply Rmin_left.
    apply (Rmult_le_reg_r d); [exact Hd|]. field_simplify; lra. }
  rewrite !Hs by lra. rewrite Rmult_1_l, cos_PI.
  assert (Hq : t1 / u <= t2 / u).
  { unfold Rdiv. apply Rmult_le_compat_r; [|exact H12].
    apply Rlt_le. by apply Rinv_0_lt_compat. }
  assert (Hm : Rmin 1 (t1 / u) <= Rmin 1 (t2 / u)).
  { apply Rmin_glb; [apply Rmin_l|]. etrans; [apply Rmin_r|exact Hq]. }
  nra.
Qed.

Lemma lr_schedule_falls l d u t1 t2 :
  0 <= l → 0 < d → 0 < u → u <= t1 → t1 <= t2 → t2 <= 1 →
  lr_schedule l d u t2 <= lr_schedule l d u t1.
Proof.
  intros Hl Hd Hu H1 H12 H2. unfold lr_schedule.
  assert (Hs : ∀ t, u <= t → Rmin 1 (t / u) = 1).
  { intros t Ht. apply Rmin_left.
    apply (Rmult_le_reg_r u); [exact Hu|]. field_simplify; lra. }
  rewrite !Hs by lra.
  set (x1 := Rmin 1 ((1 - t1) / d)). set (x2 := Rmin 1 ((1 - t2) / d)).
  assert (Hq : (1 - t2) / d <= (1 - t1) / d).
  { unfold Rdiv. apply Rmult_le_compat_r; [|lra].
    apply Rlt_le. by apply Rinv_0_lt_compat. }
  assert (Hx : 0 <= x2 <= x1 ∧ x1 <= 1).
  { unfold x1, x2. split; [split|apply Rmin_l].
    - apply Rmin_glb; [lra|]. apply Rmult_le_pos; [lra|].
      apply Rlt_le. by apply Rinv_0_lt_compat.
    - apply Rmin_glb; [apply Rmin_l|]. etrans; [apply Rmin_r|exact Hq]. }
  assert (Hpi := PI_RGT_0).
  assert (Hcos : cos (x1 * PI) <= cos (x2 * PI)).
  { apply cos_decr_1; nra. }
  nra.
Qed.

(** ** Shapes through the Adam update *)

Lemma same_shape_refl a : same_shape a a.
Proof. unfold same_shape. induction a; by constructor. Qed.

Lemma same_shape_trans a b c : same_shape a b → same_shape b c → same_shape a c.
Proof.
  unfold same_shape. intros Hab. revert c.
  induction Hab as [|r r' a b Hr _ IH]; intros c Hbc; inversion Hbc; subst;
    constructor; [congruence|by apply IH].
Qed.

Lemma same_shape_sym a b : same_shape a b → same_shape b a.
Proof. unfold same_shape. induction 1; by constructor. Qed.

Lemma same_shape_mmap f a : same_shape a (mmap f a).
Proof.
  unfold same_shape, mmap. induction a as [|r a IH]; cbn [map]; constructor;
    [by rewrite length_map|exact IH].
Qed.

Lemma same_shape_mzip f a b c :
  same_shape a b → same_shape a c → same_shape a (mzip f b c).
Proof.
  unfold same_shape, mzip. intros Hab. revert c.
  induction Hab as [|r r' a b Hr _ IH]; intros c Hac; inversion Hac; subst;
    cbn [zip_with]; constructor; [|by apply IH].
  unfold vzip. rewrite length_zip_with. lia.
Qed.

Lemma vadd_scale_zero (r q : list R) :
  length r = length q → vadd r (map (λ x, x * - 0) q) = r.
Proof.
  revert q. induction r as [|a r IH]; intros [|b q] Hl; try done.
  unfold vadd, vzip in *. cbn [map zip_with]. rewrite IH by (simpl in Hl; lia).
  f_equal. lra.
Qed.

Lemma madd_scale_zero p q :
  same_shape p q → madd p (mscale q (- 0)) = p.
Proof.
  unfold same_shape, madd, mscale, mzip, mmap.
  induction 1 as [|r r' a b Hr _ IH]; [done|].
  cbn [map zip_with]. rewrite IH. f_equal. by apply vadd_scale_zero.
Qed.

Lemma adam_update_shapes rate st p g :
  moments_shaped st p → same_shape p g →
  same_shape p (adam_update rate st p g).1
  ∧ moments_shaped (Some (adam_update rate st p g).2) (adam_update rate st p g).1.
Proof.
  intros Hst Hg.
  assert (H0 : same_shape p (exp_avg (default (mkAdamState 0 (zeros_like p) (zeros_like p)) st))
             ∧ same_shape p (exp_avg_sq (default (mkAdamState 0 (zeros_like p) (zeros_like p)) st))).
  { destruct st as [st0|]; [by apply Hst|]. cbn. split; apply same_shape_mmap. }
  destruct H0 as [Hm Hv].
  assert (Hp : same_shape p (adam_update rate st p g).1).
  { unfold adam_update. cbn [fst]. unfold madd.
    apply same_shape_mzip; [apply same_shape_refl|].
    unfold mscale. eapply same_shape_trans; [|apply same_shape_mmap].
    apply same_shape_mzip; [by apply same_shape_mzip|].
    eapply same_shape_trans; [|apply same_shape_mmap]. by apply same_shape_mzip. }
  split; [exact Hp|].
  intros st0 [= <-].
  split; (eapply same_shape_trans; [apply same_shape_sym, Hp|]);
    unfold adam_update; cbn [snd exp_avg exp_avg_sq]; by apply same_shape_mzip.
Qed.

Lemma adam_update_zero_rate st p g :
  moments_shaped st p → same_shape p g → (adam_update 0 st p g).1 = p.
Proof.
  intros Hst Hg. unfold adam_update. cbn [fst].
  assert (H0 : same_shape p (exp_avg (default (mkAdamState 0 (zeros_like p) (zeros_like p)) st))
             ∧ same_shape p (exp_avg_sq (default (mkAdamState 0 (zeros_like p) (zeros_like p)) st))).
  { destruct st as [st0|]; [by apply Hst|]. cbn. split; apply same_shape_mmap. }
  destruct H0 as [Hm Hv].
  replace (- (0 / _)) with (- 0) by (unfold Rdiv; lra).
  apply madd_scale_zero.
  apply same_shape_mzip; [by apply same_shape_mzip|].
  eapply same_shape_trans; [|apply same_shape_mmap]. by apply same_shape_mzip.
Qed.

Section Shapes.
Context `{E : Externals}.

Lemma step_shapes s i tgt :
  (∀ f x, same_shape x (autograd f x)) →
  constructed s → positive_ramps (self s) →
  cur_step (self s) = Some i → num_steps (self s) ≠ 0%Z →
  target_image (self s) = Some tgt →
  well_shaped s →
  ∃ s', step s = Ok ((), s')
    ∧ latent_in (self s') = latent_in (self s)
    ∧ same_shape (tensor_value s (latent_in (self s)))
                 (tensor_value s' (latent_in (self s')))
    ∧ well_shaped s'
    ∧ (i = 0%Z → tensor_value s' (latent_in (self s')) = tensor_value s (latent_in (self s))
                 ∧ lr (self s') = 0).
Proof.
  intros HG [[l0 Hg] [x [Hx Hrg]]] (Hd & Hu & Hn) Hi HN Ht Hws.
  assert (HN' : IZR (num_steps (self s)) ≠ 0) by by apply not_0_IZR.
  pose proof (step_exec s i x tgt l0 Hi HN' ltac:(lra) ltac:(lra) ltac:(lra) Hg Hx Hrg Ht)
    as Hstep.
  cbv zeta in Hstep.
  assert (Hv : tensor_value s (latent_in (self s)) = memory s !!! storage x).
  { unfold tensor_value. by rewrite (lookup_total_correct _ _ _ Hx). }
  unfold well_shaped in Hws. rewrite Hv in Hws.
  eexists. split; [exact Hstep|].
  unfold well_shaped. rewrite Hv. norm.
  rewrite !lookup_total_insert_eq, !lookup_insert_eq. cbn [storage set_grad].
  rewrite ?lookup_total_insert_eq.
  match goal with |- context [adam_update ?r ?st ?p ?g] =>
    destruct (adam_update_shapes r st p g Hws (HG _ _)) as [H1 H2] end.
  split; [done|]. split; [exact H1|]. split; [exact H2|].
  intros ->.
  assert (Hr : ∀ a b c, a * ((0.5 - 0.5 * cos (Rmin 1.0 ((1.0 - 0 / b) / c) * PI))
                              * Rmin 1.0 (0 / b / lr_rampup_length (self s))) = 0).
  { intros a b c. replace (0 / b / lr_rampup_length (self s)) with 0
      by (unfold Rdiv; lra).
    rewrite (Rmin_right 1.0 0) by lra. lra. }
  rewrite !Hr. split; [|done].
  apply adam_update_zero_rate; [exact Hws|apply HG].
Qed.

Lemma update_lr_bounds t s :
  constructed s → positive_ramps (self s) →
  0 <= initial_lr (self s) → 0 <= t →
  ∃ s', update_lr t s = Ok ((), s')
    ∧ 0 <= lr (self s') <= initial_lr (self s)
    ∧ lr (self s') = lr_schedule (initial_lr (self s)) (lr_rampdown_length (self s))
                                 (lr_rampup_length (self s)) t.
Proof.
  intros [[l0 Hg] _] (Hd & Hu & Hn) Hl Ht.
  eexists. split; [apply (update_lr_ok t s _ _ ltac:(lra) ltac:(lra) Hg)|].
  norm. rewrite rate_formula. split; [|reflexivity].
  apply (lr_schedule_bounds _ _ _ _ Hl Hu Ht).
Qed.

End Shapes.

(** ** The batch loop of the script *)

Section ScriptRuns.
Context `{E : Externals}.

Lemma detach_spec s x :
  ∃ r s', detach x s = Ok (r, s')
    ∧ self s' = self s ∧ memory s' = memory s ∧ steps_log s' = steps_log s
    ∧ tensor_value s' r = tensor_value s x
    ∧ (constructed s →
       constructed s'
       ∧ tensor_value s' (latent_in (self s')) = tensor_value s (latent_in (self s))).
Proof.
  set (r := fresh (dom (objects s))).
  assert (Hfresh : objects s !! r = None) by apply not_elem_of_dom, is_fresh.
  exists r, (set_objects (<[r := mkTensor (storage (objects s !!! x)) false None]>
                            (objects s)) s).
  split; [reflexivity|]. norm.
  split; [done|]. split; [done|]. split; [done|]. split.
  { by rewrite lookup_total_insert_eq. }
  intros Hc. split; [by apply constructed_more_objects|].
  destruct Hc as [_ (y & Hy & _)].
  rewrite lookup_total_insert_ne; [done|].
  by apply (fresh_ref_other _ _ y).
Qed.

Lemma steps_of_length T : length (steps_of T) = Z.to_nat T.
Proof. unfold steps_of. by rewrite length_map, range_length. Qed.

(** One iteration of the loop. *)
Lemma project_files_cons fs i file rest dir b s :
  constructed s → positive_ramps (self s) →
  (3 ≤ length (shape (open_image fs file)))%nat →
  ∃ name s2,
    stem file = Ok name
    ∧ constructed s2 ∧ positive_ramps (self s2)
    ∧ g_ema (self s2) = g_ema (self s)
    ∧ steps_log s2 = steps_log s ++ steps_of (if (i =? 0)%nat then 2000 else 100)
    ∧ let d := tensor_value s2 (latent_in (self s2)) in
      let img := (forward (g_ema (self s2)) [[d]] true (noises (g_ema (self s2)))).1 in
      project_files fs i (file :: rest) dir b s
      = match project_files fs (S i) rest dir b s2 with
        | Ok (later, s') =>
            Ok ((if b then [SaveImage (dir ++ name ++ png_suffix) img] else [])
                  ++ SaveLatent (dir ++ name ++ latent_suffix) d :: later, s')
        | Raise e => Raise e
        end.
Proof.
  intros Hc Hr Hshape.
  destruct (promoted_has_height (open_image fs file) Hshape) as [h Hh].
  destruct (run_exec (open_image fs file) (if (i =? 0)%nat then 2000%Z else 100%Z)
              s h Hc Hr Hh)
    as (s1 & Hrun & _ & Hc1 & Hr1 & Hcfg & _ & _ & _ & _ & Hlog).
  destruct (stem_spec file) as (name & Hname & _).
  destruct (detach_spec s1 (latent_in (self s1)))
    as (r1 & sa & Hd1 & Hself1 & Hmem1 & Hlog1 & Hv1 & Hk1).
  destruct (Hk1 Hc1) as [Hca Hva].
  destruct (detach_spec sa r1)
    as (r2 & sb & Hd2 & Hself2 & Hmem2 & Hlog2 & Hv2 & Hk2).
  destruct (Hk2 Hca) as [Hcb Hvb].
  exists name, sb.
  split; [exact Hname|]. split; [exact Hcb|].
  split; [by rewrite Hself2, Hself1|].
  split; [rewrite Hself2, Hself1; by destruct Hcfg as (_ & _ & _ & Hgema & _)|].
  split; [by rewrite Hlog2, Hlog1|].
  cbv zeta. cbn [project_files].
  erewrite bind_ok by exact Hrun.
  assert (Himg : get_images s1
    = Ok ((forward (g_ema (self s1)) [[tensor_value s1 (latent_in (self s1))]] true
                   (noises (g_ema (self s1)))).1, s1)) by reflexivity.
  erewrite bind_ok by exact Himg.
  assert (Hlat : get_latents s1 = Ok (r1, sa)) by exact Hd1.
  erewrite bind_ok by exact Hlat.
  erewrite bind_ok by (unfold lift; rewrite Hname; reflexivity).
  erewrite bind_ok by exact Hd2.
  assert (Hget : get sb = Ok (sb, sb)) by reflexivity.
  erewrite bind_ok by exact Hget.
  rewrite Hv2, Hv1, Hvb, Hva, Hself2, Hself1, <- !(assoc_L (++) dir).
  unfold mbind at 1, M_bind.
  destruct (project_files fs (S i) rest dir b sb) as [[later s']|e]; reflexivity.
Qed.

(** The loop from an index [i >= 1] on. *)
Lemma project_files_exec fs files : ∀ i dir b s,
  (1 ≤ i)%nat →
  constructed s → positive_ramps (self s) →
  Forall (λ file, (3 ≤ length (shape (open_image fs file)))%nat) files →
  ∃ groups s',
    project_files fs i files dir b s = Ok (concat groups, s')
    ∧ constructed s' ∧ positive_ramps (self s')
    ∧ g_ema (self s') = g_ema (self s)
    ∧ steps_log s' = steps_log s ++ concat (replicate (length files) (steps_of 100))
    ∧ Forall2 (λ file grp, ∃ name img d,
                 stem file = Ok name
                 ∧ grp = (if b then [SaveImage (dir ++ name ++ png_suffix) img] else [])
                           ++ [SaveLatent (dir ++ name ++ latent_suffix) d])
              files groups
    ∧ (files = [] → s' = s)
    ∧ (files ≠ [] →
       ∃ p, last (concat groups)
            = Some (SaveLatent p (tensor_value s' (latent_in (self s'))))).
Proof.
  induction files as [|file rest IH]; intros i dir b s Hi Hc Hr Hsh.
  { exists [], s. cbn [project_files concat length replicate]. rewrite app_nil_r.
    split; [reflexivity|]. split; [exact Hc|]. split; [exact Hr|].
    split; [done|]. split; [done|]. split; [constructor|]. split; done. }
  apply Forall_cons in Hsh as [Hsh Hrest].
  destruct (project_files_cons fs i file rest dir b s Hc Hr Hsh)
    as (name & s2 & Hname & Hc2 & Hr2 & Hg2 & Hlog2 & Hexec).
  destruct (IH (S i) dir b s2 ltac:(lia) Hc2 Hr2 Hrest)
    as (groups & s' & Hrec & Hc' & Hr' & Hg' & Hlog' & Hgroups & Hnil & Hlast).
  cbv zeta in Hexec. rewrite Hrec in Hexec.
  eexists (_ :: groups), s'. split.
  { rewrite Hexec. cbn [concat]. do 2 f_equal. rewrite cons_middle.
    apply (assoc_L (++)). }
  split; [exact Hc'|]. split; [exact Hr'|]. split; [by rewrite Hg'|]. split.
  { rewrite Hlog', Hlog2. destruct i; [lia|]. cbn [Nat.eqb length replicate concat].
    by rewrite <- app_assoc. }
  split.
  { constructor; [|exact Hgroups]. by eexists _, _, _. }
  split; [done|]. intros _.
  destruct rest as [|file' rest'].
  - rewrite (Hnil eq_refl). inversion Hgroups; subst.
    cbn [concat]. rewrite app_nil_r. eexists. by rewrite last_snoc.
  - destruct (Hlast ltac:(done)) as [p Hp]. exists p.
    cbn [concat]. by rewrite last_app, Hp.
Qed.

Lemma init_ready g objs mem log :
  let proj := init g 1000 0 0.1 0.05 0.25 0.05 0.75 None objs mem log in
  constructed proj ∧ positive_ramps (self proj) ∧ g_ema (self proj) = g
  ∧ steps_log proj = log.
Proof.
  intros proj.
  destruct (init_fresh g 1000 0 0.1 0.05 0.25 0.05 0.75 objs mem log)
    as (Hr & Hobj & _ & Hopt).
  destruct (init_hyper g 1000 0 0.1 0.05 0.25 0.05 0.75 None objs mem log)
    as (_ & _ & _ & _ & _ & _ & Hd & Hu & Hn & Hg & _).
  cbv zeta in *. fold proj in Hr, Hobj, Hopt, Hd, Hu, Hn, Hg.
  split; [|split; [|split; [exact Hg|reflexivity]]].
  - split; [rewrite Hopt; by eexists|].
    eexists. split; [rewrite Hobj; apply lookup_insert_eq|done].
  - unfold positive_ramps. rewrite Hd, Hu, Hn. lra.
Qed.

(** The loop of the script, from the projector as constructed. *)
Lemma project_all fs g files dir b objs mem log :
  Forall (λ file, (3 ≤ length (shape (open_image fs file)))%nat) files →
  ∃ groups s',
    project_files fs 0 files dir b
      (init g 1000 0 0.1 0.05 0.25 0.05 0.75 None objs mem log)
    = Ok (concat groups, s')
    ∧ g_ema (self s') = g
    ∧ steps_log s'
      = log ++ match files with
               | [] => []
               | _ :: rest => steps_of 2000 ++ concat (replicate (length rest) (steps_of 100))
               end
    ∧ Forall2 (λ file grp, ∃ name img d,
                 stem file = Ok name
                 ∧ grp = (if b then [SaveImage (dir ++ name ++ png_suffix) img] else [])
                           ++ [SaveLatent (dir ++ name ++ latent_suffix) d])
              files groups
    ∧ (files ≠ [] →
       ∃ p, last (concat groups)
            = Some (SaveLatent p (tensor_value s' (latent_in (self s'))))).
Proof.
  intros Hsh.
  destruct (init_ready g objs mem log) as (Hc & Hr & Hg & Hlog). cbv zeta in *.
  destruct files as [|file rest].
  { eexists [], _. cbn [project_files]. split; [reflexivity|].
    rewrite app_nil_r. split; [exact Hg|]. split; [exact Hlog|].
    split; [constructor|done]. }
  apply Forall_cons in Hsh as [Hsh Hrest].
  destruct (project_files_cons fs 0 file rest dir b _ Hc Hr Hsh)
    as (name & s2 & Hname & Hc2 & Hr2 & Hg2 & Hlog2 & Hexec).
  destruct (project_files_exec fs rest 1 dir b s2 ltac:(lia) Hc2 Hr2 Hrest)
    as (groups & s' & Hrec & Hc' & Hr' & Hg' & Hlog' & Hgroups & Hnil & Hlast).
  cbv zeta in Hexec. rewrite Hrec in Hexec.
  eexists (_ :: groups), s'. split.
  { rewrite Hexec. cbn [concat]. do 2 f_equal. rewrite cons_middle.
    apply (assoc_L (++)). }
  split; [by rewrite Hg', Hg2|]. split.
  { rewrite Hlog', Hlog2, Hlog. cbn [Nat.eqb]. by rewrite <- app_assoc. }
  split.
  { constructor; [|exact Hgroups]. by eexists _, _, _. }
  intros _. destruct rest as [|file' rest'].
  - rewrite (Hnil eq_refl). inversion Hgroups; subst.
    cbn [concat]. rewrite app_nil_r. eexists. by rewrite last_snoc.
  - destruct (Hlast ltac:(done)) as [p Hp]. exists p.
    cbn [concat]. by rewrite last_app, Hp.
Qed.

(** *** Sorting the paths *)

Lemma str_leb_total a : ∀ b, str_leb a b = false → str_leb b a = true.
Proof.
  induction a as [|x a IH]; intros [|y b] H; try done.
  cbn [str_leb] in *.
  destruct (nat_of_ascii x <? nat_of_ascii y)%nat eqn:Hxy; [done|].
  destruct (nat_of_ascii y <? nat_of_ascii x)%nat eqn:Hyx; [done|].
  by apply IH.
Qed.

Lemma str_leb_trans a : ∀ b c,
  str_leb a b = true → str_leb b c = true → str_leb a c = true.
Proof.
  induction a as [|x a IH]; intros [|y b] [|z c] Hab Hbc; try done.
  cbn [str_leb] in *.
  destruct (nat_of_ascii x <? nat_of_ascii y)%nat eqn:Hxy;
    destruct (nat_of_ascii y <? nat_of_ascii x)%nat eqn:Hyx;
    destruct (nat_of_ascii y <? nat_of_ascii z)%nat eqn:Hyz;
    destruct (nat_of_ascii z <? nat_of_ascii y)%nat eqn:Hzy;
    destruct (nat_of_ascii x <? nat_of_ascii z)%nat eqn:Hxz;
    destruct (nat_of_ascii z <? nat_of_ascii x)%nat eqn:Hzx;
    try done;
    repeat match goal with
           | H : (_ <? _)%nat = true |- _ => apply Nat.ltb_lt in H
           | H : (_ <? _)%nat = false |- _ => apply Nat.ltb_ge in H
           end; try lia.
  by apply (IH b c).
Qed.

Global Instance str_le_total : Total str_le.
Proof.
  intros a b. unfold str_le.
  destruct (str_leb a b) eqn:Hab; [by left|].
  right. by rewrite (str_leb_total a b Hab).
Qed.

Global Instance str_le_trans : Transitive str_le.
Proof.
  intros a b c Hab Hbc. unfold str_le in *.
  apply Is_true_true. apply (str_leb_trans a b c); by apply Is_true_true.
Qed.

Lemma sorted_spec xs : sorted xs ≡ₚ xs ∧ StronglySorted str_le (sorted xs).
Proof.
  split; [apply merge_sort_Permutation|apply StronglySorted_merge_sort; apply _].
Qed.

Lemma sorted_length xs : length (sorted xs) = length xs.
Proof. apply Permutation_length, sorted_spec. Qed.

Lemma main_directory fs g path output_dir objs mem log :
  isdir fs path = true →
  output_dir ≠ [] →
  let image_files := glob fs (path ++ png_pattern) ++ glob fs (path ++ jpg_pattern) in
  Forall (λ file, (3 ≤ length (shape (open_image fs file)))%nat) image_files →
  ∃ save_dir outs s',
    save_dir_of output_dir = Ok save_dir
    ∧ main fs g path output_dir objs mem log = Ok (outs, s')
    ∧ steps_log s'
      = log ++ match length image_files with
               | 0%nat => []
               | S n => steps_of 2000 ++ concat (replicate n (steps_of 100))
               end
    ∧ Forall2 (λ file o, ∃ name d,
                 stem file = Ok name
                 ∧ o = SaveLatent (save_dir ++ name ++ latent_suffix) d)
              (sorted image_files) outs
    ∧ (image_files ≠ [] →
       ∃ p, last outs = Some (SaveLatent p (tensor_value s' (latent_in (self s'))))).
Proof.
  intros Hisdir Hdir image_files Hsh.
  destruct (save_dir_of_spec output_dir Hdir) as (save_dir & Hsave & _).
  assert (Hsh' : Forall (λ file, (3 ≤ length (shape (open_image fs file)))%nat)
                        (sorted image_files)).
  { apply Forall_forall. intros file Hin.
    apply (proj1 (Forall_forall _ _) Hsh).
    by rewrite <- (proj1 (sorted_spec image_files)). }
  destruct (project_all fs g (sorted image_files) save_dir false objs mem log Hsh')
    as (groups & s' & Hexec & _ & Hlog & Hgroups & Hlast).
  exists save_dir, (concat groups), s'. split; [exact Hsave|]. split.
  { unfold main, image_files_of. rewrite Hisdir, Hsave. exact Hexec. }
  split.
  { rewrite Hlog, <- (sorted_length image_files).
    by destruct (sorted image_files). }
  split.
  { clear -Hgroups. induction Hgroups as [|file grp fs' gs (n & img & d & Hn & ->) _ IH].
    - constructor.
    - cbn [concat app]. constructor; [by eexists _, _|exact IH]. }
  intros Hne. apply Hlast. intros Hnil.
  apply Hne, length_zero_iff_nil. rewrite <- (sorted_length image_files).
  by rewrite Hnil.
Qed.

Lemma sorted_single x : sorted [x] = [x].
Proof. reflexivity. Qed.

Lemma main_file fs g path output_dir objs mem log :
  isdir fs path = false →
  output_dir ≠ [] →
  (3 ≤ length (shape (open_image fs path)))%nat →
  ∃ save_dir name s',
    save_dir_of output_dir = Ok save_dir
    ∧ stem path = Ok name
    ∧ let d := tensor_value s' (latent_in (self s')) in
      main fs g path output_dir objs mem log
      = Ok ([SaveImage (save_dir ++ name ++ png_suffix)
                       (forward g [[d]] true (noises g)).1;
             SaveLatent (save_dir ++ name ++ latent_suffix) d], s')
    ∧ steps_log s' = log ++ steps_of 2000.
Proof.
  intros Hisdir Hdir Hsh.
  destruct (save_dir_of_spec output_dir Hdir) as (save_dir & Hsave & _).
  destruct (init_ready g objs mem log) as (Hc & Hr & Hg & Hlog). cbv zeta in *.
  destruct (project_files_cons fs 0 path [] save_dir true _ Hc Hr Hsh)
    as (name & s2 & Hname & Hc2 & Hr2 & Hg2 & Hlog2 & Hexec).
  cbv zeta in Hexec.
  exists save_dir, name, s2. split; [done|]. split; [done|]. split.
  - unfold main, image_files_of. rewrite Hisdir, Hsave, sorted_single, Hexec.
    rewrite Hg2, Hg. reflexivity.
  - rewrite Hlog2, Hlog. reflexivity.
Qed.

End ScriptRuns.

(** ** Properties of the noise methods, the script and the edge cases *)

Lemma normalized_distinct x :
  (∃ a b, a ∈ concat x ∧ b ∈ concat x ∧ a ≠ b) →
  ∃ y, normalized x = Some y ∧ map length y = map length x
       ∧ tmean y = Some 0 ∧ tstd y = Some 1.
Proof.
  intros (a & b & Ha & Hb & Hab).
  destruct (normalized x) as [y|] eqn:Hy.
  - destruct (normalized_inv x y Hy) as (s & Hs & Hs0).
    destruct (normalized_spec x s Hs Hs0) as (y' & Hy' & Hrest).
    exists y'. split; [congruence|exact Hrest].
  - exfalso. apply Hab. by apply (proj1 (normalized_nan x) Hy).
Qed.

(** X1.  [normalize_noise] standardises every noise map that holds two
    different values: the map keeps its shape, and afterwards its mean is 0
    and its (Bessel-corrected) standard deviation is 1. *)
Theorem normalize_noise_standardises noises :
  Forall (λ x, ∃ a b, a ∈ concat x ∧ b ∈ concat x ∧ a ≠ b) noises →
  ∃ outs, normalize_noise (Some noises) = Ok (map Some outs) ∧
    Forall2 (λ x y, map length y = map length x ∧ tmean y = Some 0 ∧ tstd y = Some 1)
            noises outs.
Proof.
  unfold normalize_noise. induction 1 as [|x noises Hx _ (outs & Hout & Hall)].
  - exists []. split; [reflexivity|constructor].
  - destruct (normalized_distinct x Hx) as (y & Hy & Hprops).
    exists (y :: outs). split; [|by constructor].
    cbn [map]. rewrite Hy. congruence.
Qed.

(** X2.  In exact arithmetic (numbers are reals here), [normalize_noise] is
    idempotent on noise maps that each hold two different values: the first
    call returns standardised maps, and a second call on them changes
    nothing. *)
Theorem normalize_noise_idempotent noises :
  Forall (λ x, ∃ a b, a ∈ concat x ∧ b ∈ concat x ∧ a ≠ b) noises →
  ∃ outs, normalize_noise (Some noises) = Ok (map Some outs) ∧
          normalize_noise (Some outs) = Ok (map Some outs).
Proof.
  unfold normalize_noise. induction 1 as [|x ns Hx _ (outs & Hout & Hagain)].
  - by exists [].
  - destruct (normalized_distinct x Hx) as (y & Hy & _).
    exists (y :: outs). cbn [map].
    rewrite Hy, (normalized_idempotent x y Hy).
    injection Hout as Hout. injection Hagain as Hagain.
    by rewrite Hout, Hagain.
Qed.

Lemma dyadic_positive n : dyadic_size n → (1 ≤ n)%nat.
Proof.
  intros (m & j & Hm & ->).
  assert (1 ≤ 2 ^ j)%nat by (apply Nat.neq_0_lt_0, Nat.pow_nonzero; lia). nia.
Qed.

(** X4.  On square noise maps whose sizes are of the form [m · 2^j] with
    [1 <= m <= 8], [noise_regularization] returns a number, and that number
    is not negative. *)
Theorem noise_regularization_dyadic noises :
  Forall (λ x, square (length x) x ∧ dyadic_size (length x)) noises →
  ∃ r, noise_regularization (Some noises) = Ok (Some r) ∧ 0 <= r.
Proof.
  intros Hall. unfold noise_regularization.
  destruct (reg_noises_spec noises 0.0) as [(_ & r & Hr & Hle)|(Hex & _)].
  - eapply Forall_impl; [exact Hall|]. intros x [Hsq Hd].
    split; [by apply dyadic_positive|exact Hsq].
  - lra.
  - exists r. split; [exact Hr|lra].
  - exfalso. apply Exists_exists in Hex as (x & Hin & Hnd).
    apply Hnd. by apply (proj1 (Forall_forall _ _) Hall x Hin).
Qed.

(** X5.  On square noise maps of which one has a size that is not of the
    form [m · 2^j] with [1 <= m <= 8] (an odd size above 8, or a size such
    as 18 that halves to one), [noise_regularization] raises the
    [RuntimeError] of [reshape]. *)
Theorem noise_regularization_reshape_error noises :
  Forall (λ x, (1 ≤ length x)%nat ∧ square (length x) x) noises →
  Exists (λ x, ¬ dyadic_size (length x)) noises →
  noise_regularization (Some noises) = Raise RuntimeError.
Proof.
  intros Hall Hex. unfold noise_regularization.
  destruct (reg_noises_spec noises 0.0 Hall ltac:(lra)) as [(Hd & _)|(_ & Hr)];
    [|exact Hr].
  exfalso. apply Exists_exists in Hex as (x & Hin & Hnd).
  apply Hnd. by apply (proj1 (Forall_forall _ _) Hd x Hin).
Qed.

(** X6.  The downscaling step of [noise_regularization] (reshape to
    [[1, 1, h, 2, h, 2]] and mean over the two inner axes) turns a
    [2h × 2h] map into a [h × h] map with the same mean. *)
Theorem downscale_keeps_mean h x :
  (1 ≤ h)%nat → square (2 * h) x →
  square h (pool x) ∧ tmean (pool x) = tmean x.
Proof.
  intros Hh Hsq. split; [by apply pool_square|by apply (pool_mean h)].
Qed.

(** X7.  For one constant noise map of size [2^(k+3)] with value [c],
    [noise_regularization] visits [k + 1] resolutions (down to size 8) and
    returns [(k + 1) · 2c⁴]. *)
Theorem noise_regularization_constant k c :
  noise_regularization
    (Some [replicate (2 ^ (k + 3)) (replicate (2 ^ (k + 3)) c)])
  = Ok (Some (INR (k + 1) * (2 * c ^ 4))).
Proof.
  unfold noise_regularization. cbn [reg_noises].
  rewrite length_replicate, pyramid_constant. do 2 f_equal. lra.
Qed.

(** X8.  The output directory of the script: an empty [--output_dir] raises
    [IndexError]; any other gets a ['/'] appended unless it ends in one, so
    the result ends in ['/'] and is a fixed point. *)
Theorem save_dir_ends_with_slash d :
  save_dir_of [] = Raise IndexError ∧
  (d ≠ [] →
   ∃ d', save_dir_of d = Ok d' ∧
         last d' = Some "/"%char ∧
         (last d = Some "/"%char → d' = d) ∧
         (last d ≠ Some "/"%char → d' = d ++ ["/"%char]) ∧
         save_dir_of d' = Ok d').
Proof. split; [reflexivity|apply save_dir_of_spec]. Qed.

(** X9.  The name under which results are saved,
    [file.split('/')[-1].split('.')[0]], exists for every path (no
    [IndexError]), contains neither ['/'] nor ['.'], and consists of
    characters of the path. *)
Theorem stem_never_fails file :
  ∃ name, stem file = Ok name ∧
          ("/"%char ∉ name) ∧ ("."%char ∉ name) ∧ (∀ c, c ∈ name → c ∈ file).
Proof. apply stem_spec. Qed.

(** X10.  For a path [dir/name.ext], with or without directory, whose
    [name] has neither ['/'] nor ['.'], the save name is [name]: the
    directory and everything from the first ['.'] of the file name on are
    dropped, so [a.png] and [a.jpg] of one directory are saved under the
    same name. *)
Theorem stem_drops_directory_and_extension dir name ext :
  "/"%char ∉ name → "."%char ∉ name → "/"%char ∉ ext →
  stem (dir ++ "/"%char :: name ++ "."%char :: ext) = Ok name
  ∧ stem (name ++ "."%char :: ext) = Ok name.
Proof. apply stem_of_path. Qed.

Section Extras.
Context `{E : Externals}.

Lemma length_concat_replicate {A} n (l : list A) :
  length (concat (replicate n l)) = (n * length l)%nat.
Proof.
  induction n as [|n IH]; [done|]. cbn [replicate concat].
  rewrite length_app, IH. lia.
Qed.

(** X11.  When [--input] is a directory, the script projects the paths
    that [glob(path + '*.png')] and [glob(path + '*.jpg')] return, in sorted
    order.  If every one of them loads as a comparable image of at least
    three dimensions and the output directory is not empty, the script ends
    normally; the one projector makes 2000 steps for the first path in
    sorted order and 100 for every further one; no image is written, and
    for each path, in sorted order, one latent under
    [save_dir + name + '_p.latent.pt']; the last latent written is the
    stored latent at the end. *)
Theorem script_projects_directory fs g path output_dir objs mem log :
  isdir fs path = true →
  output_dir ≠ [] →
  let image_files := glob fs (path ++ png_pattern) ++ glob fs (path ++ jpg_pattern) in
  Forall (λ file, (3 ≤ length (shape (open_image fs file)))%nat
                  ∧ comparable g (open_image fs file)) image_files →
  ∃ save_dir outs s',
    save_dir_of output_dir = Ok save_dir
    ∧ main fs g path output_dir objs mem log = Ok (outs, s')
    ∧ sorted image_files ≡ₚ image_files
    ∧ StronglySorted str_le (sorted image_files)
    ∧ steps_log s'
      = log ++ match length image_files with
               | 0%nat => []
               | S n => steps_of 2000 ++ concat (replicate n (steps_of 100))
               end
    ∧ length (steps_log s')
      = (length log + match length image_files with
                      | 0 => 0
                      | S n => 2000 + 100 * n
                      end)%nat
    ∧ Forall2 (λ file o, ∃ name d,
                 stem file = Ok name
                 ∧ o = SaveLatent (save_dir ++ name ++ latent_suffix) d)
              (sorted image_files) outs
    ∧ (image_files ≠ [] →
       ∃ p, last outs = Some (SaveLatent p (tensor_value s' (latent_in (self s'))))).
Proof.
  intros Hisdir Hdir image_files Hsh.
  destruct (main_directory fs g path output_dir objs mem log Hisdir Hdir)
    as (save_dir & outs & s' & Hsave & Hmain & Hlog & Houts & Hlast).
  { eapply Forall_impl; [exact Hsh|]. by intros file [H3 _]. }
  fold image_files in Hlog, Houts, Hlast.
  exists save_dir, outs, s'.
  split; [exact Hsave|]. split; [exact Hmain|].
  split; [apply sorted_spec|]. split; [apply sorted_spec|].
  split; [exact Hlog|].
  split; [|split; [exact Houts|exact Hlast]].
  rewrite Hlog, length_app. f_equal. destruct (length image_files) as [|n]; [done|].
  rewrite length_app, length_concat_replicate, !steps_of_length. lia.
Qed.

(** X12.  When [--input] is not a directory, it is taken as one image file.
    If it loads as a comparable image of at least three dimensions and the
    output directory is not empty, the script ends normally after one run
    of 2000 steps and writes exactly two results: the image the generator
    renders for the final stored latent, under
    [save_dir + name + '_p.png'], and that latent, under
    [save_dir + name + '_p.latent.pt']. *)
Theorem script_projects_file fs g path output_dir objs mem log :
  isdir fs path = false →
  output_dir ≠ [] →
  (3 ≤ length (shape (open_image fs path)))%nat →
  comparable g (open_image fs path) →
  ∃ save_dir name s',
    save_dir_of output_dir = Ok save_dir
    ∧ stem path = Ok name
    ∧ let d := tensor_value s' (latent_in (self s')) in
      main fs g path output_dir objs mem log
      = Ok ([SaveImage (save_dir ++ name ++ png_suffix)
                       (forward g [[d]] true (noises g)).1;
             SaveLatent (save_dir ++ name ++ latent_suffix) d], s')
    ∧ steps_log s' = log ++ steps_of 2000.
Proof. intros Hisdir Hdir Hsh _. by apply main_file. Qed.

(** X13.  [run] with a step count [T <= 0] on a target of at least three
    dimensions makes no step and returns normally: it only replaces
    [num_steps] and the target image; the stored latent, the optimiser, the
    random generator and [cur_step] stay as they were. *)
Theorem run_without_steps target T s :
  (T ≤ 0)%Z →
  (3 ≤ length (shape target))%nat →
  run target T s
  = Ok ((), set_self
              (set_target_image (Some (prepared target)) (set_num_steps T (self s))) s).
Proof.
  intros HT Hshape.
  destruct (promoted_has_height target Hshape) as [h Hh].
  rewrite (prepared_height target h Hh). by apply run_no_steps.
Qed.

(** X14.  [run] with at least one step raises [ZeroDivisionError] when one
    of the three ramp lengths is [0]. *)
Theorem run_divides_by_zero_ramp target T s :
  (1 ≤ T)%Z →
  (3 ≤ length (shape target))%nat →
  noise_ramp_length (self s) = 0 ∨ lr_rampdown_length (self s) = 0
    ∨ lr_rampup_length (self s) = 0 →
  run target T s = Raise ZeroDivisionError.
Proof. apply run_zero_ramp. Qed.

(** X15.  [run] on a target of fewer than three dimensions raises
    [IndexError], for every step count, before any step. *)
Theorem run_rejects_flat_target target T s :
  (length (shape target) < 3)%nat → run target T s = Raise IndexError.
Proof. apply run_small_target. Qed.

(** X16.  For [t >= 0], positive ramp lengths and a non-negative initial
    learning rate, the rate [update_lr] sets lies between [0] and the
    initial learning rate. *)
Theorem update_lr_within_bounds t s :
  constructed s → positive_ramps (self s) →
  0 <= initial_lr (self s) → 0 <= t →
  ∃ s', update_lr t s = Ok ((), s')
    ∧ 0 <= lr (self s') <= initial_lr (self s).
Proof.
  intros Hc Hr Hl Ht.
  destruct (update_lr_bounds t s Hc Hr Hl Ht) as (s' & Hs' & Hb & _).
  by exists s'.
Qed.

(** X17.  The rate [update_lr] sets is a trapezoid in [t]: it does not
    decrease while [t <= 1 − lr_rampdown_length], and it does not increase
    for [t] between [lr_rampup_length] and [1]. *)
Theorem update_lr_trapezoid t1 t2 s :
  constructed s → positive_ramps (self s) →
  0 <= initial_lr (self s) → 0 <= t1 → t1 <= t2 →
  ∃ s1 s2, update_lr t1 s = Ok ((), s1) ∧ update_lr t2 s = Ok ((), s2)
    ∧ (t2 <= 1 - lr_rampdown_length (self s) → lr (self s1) <= lr (self s2))
    ∧ (lr_rampup_length (self s) <= t1 → t2 <= 1 → lr (self s2) <= lr (self s1)).
Proof.
  intros Hc Hr Hl Ht1 H12.
  destruct (update_lr_bounds t1 s Hc Hr Hl Ht1) as (s1 & Hs1 & _ & Hv1).
  destruct (update_lr_bounds t2 s Hc Hr Hl ltac:(lra)) as (s2 & Hs2 & _ & Hv2).
  destruct Hr as (Hd & Hu & _).
  exists s1, s2. split; [exact Hs1|]. split; [exact Hs2|]. rewrite Hv1, Hv2. split.
  - intros H2. by apply lr_schedule_rises.
  - intros H1 H2. by apply lr_schedule_falls.
Qed.

(** X18.  When the gradient has the shape of the stored latent and the Adam
    moments (if any) do too, [step] keeps the shape of the stored latent,
    and the moments it leaves have that shape again: the agreement of shapes
    is an invariant of the optimisation. *)
Theorem step_keeps_shapes s i tgt :
  (∀ f x, same_shape x (autograd f x)) →
  constructed s → positive_ramps (self s) →
  cur_step (self s) = Some i → num_steps (self s) ≠ 0%Z →
  target_image (self s) = Some tgt →
  well_shaped s →
  ∃ s', step s = Ok ((), s')
    ∧ latent_in (self s') = latent_in (self s)
    ∧ same_shape (tensor_value s (latent_in (self s)))
                 (tensor_value s' (latent_in (self s')))
    ∧ well_shaped s'.
Proof.
  intros HG Hc Hr Hi HN Ht Hws.
  destruct (step_shapes s i tgt HG Hc Hr Hi HN Ht Hws) as (s' & Hs' & Hl & Hsh & Hw & _).
  by exists s'.
Qed.

(** X19.  The first step of a run (step index 0) has learning rate 0 and,
    for every finite gradient (tensors are real-valued here), leaves the
    value of the stored latent unchanged: with finite gradients, a run of
    one step does not move the latent. *)
Theorem first_step_keeps_latent s tgt :
  (∀ f x, same_shape x (autograd f x)) →
  constructed s → positive_ramps (self s) →
  cur_step (self s) = Some 0%Z → num_steps (self s) ≠ 0%Z →
  target_image (self s) = Some tgt →
  well_shaped s →
  ∃ s', step s = Ok ((), s')
    ∧ lr (self s') = 0
    ∧ tensor_value s' (latent_in (self s')) = tensor_value s (latent_in (self s)).
Proof.
  intros HG Hc Hr Hi HN Ht Hws.
  destruct (step_shapes s 0%Z tgt HG Hc Hr Hi HN Ht Hws) as (s' & Hs' & _ & _ & _ & H0).
  destruct (H0 eq_refl) as [Hv Hlr]. by exists s'.
Qed.

End Extras.

(** ** The further properties on concrete inputs *)

Lemma two_values : ∃ a b : R, a ∈ concat [[0; 2]] ∧ b ∈ concat [[0; 2]] ∧ a ≠ b.
Proof.
  exists 0, 2. cbn [concat app]. split; [apply elem_of_cons; by left|].
  split; [|lra]. apply elem_of_cons; right. apply elem_of_cons; by left.
Qed.

(** X1 on the map [[0, 2]]. *)
Lemma normalize_noise_standardises_witness :
  ∃ y, normalize_noise (Some [[[0; 2]]]) = Ok [Some y] ∧
       tmean y = Some 0 ∧ tstd y = Some 1.
Proof.
  destruct (normalize_noise_standardises [[[0; 2]]]) as (outs & Hout & Hall).
  - constructor; [exact two_values|constructor].
  - inversion Hall as [|x y xs ys (_ & Hm & Hs) Hnil]; subst.
    inversion Hnil; subst. exists y. by split.
Defined.

(** X2 on the map [[0, 2]]. *)
Lemma normalize_noise_idempotent_witness :
  ∃ outs, normalize_noise (Some [[[0; 2]]]) = Ok (map Some outs) ∧
          normalize_noise (Some outs) = Ok (map Some outs).
Proof.
  apply (normalize_noise_idempotent [[[0; 2]]]).
  constructor; [exact two_values|constructor].
Defined.

Lemma square_2x2 (a b c d : R) : square 2 [[a; b]; [c; d]].
Proof. split; [done|]. by repeat constructor. Qed.

(** X4 on a 2×2 map. *)
Lemma noise_regularization_dyadic_witness :
  ∃ r, noise_regularization (Some [[[1; 2]; [3; 4]]]) = Ok (Some r) ∧ 0 <= r.
Proof.
  apply (noise_regularization_dyadic [[[1; 2]; [3; 4]]]).
  constructor; [|constructor]. split; [apply square_2x2|].
  exists 2%nat, 0%nat. cbn. lia.
Defined.

(** X5 on a 9×9 map. *)
Lemma noise_regularization_reshape_error_witness :
  noise_regularization (Some [replicate 9 (replicate 9 1)]) = Raise RuntimeError.
Proof.
  apply noise_regularization_reshape_error.
  - constructor; [|constructor]. rewrite length_replicate.
    split; [lia|apply square_constant].
  - apply Exists_cons_hd. rewrite length_replicate. apply (dyadic_odd 4). lia.
Defined.

(** X6 on a 2×2 map. *)
Lemma downscale_keeps_mean_witness :
  tmean (pool [[1; 2]; [3; 4]]) = tmean [[1; 2]; [3; 4]].
Proof.
  exact (proj2 (downscale_keeps_mean 1 [[1; 2]; [3; 4]] ltac:(lia) (square_2x2 1 2 3 4))).
Defined.

(** X8 on the output directory [out]. *)
Lemma save_dir_ends_with_slash_witness :
  save_dir_of toy_output_dir = Ok (String.list_ascii_of_string "out/").
Proof.
  destruct (proj2 (save_dir_ends_with_slash toy_output_dir) ltac:(done))
    as (d' & Hd' & _ & _ & Happ & _).
  rewrite Hd'. f_equal. apply Happ. discriminate.
Defined.

(** X10 on [in/a.png]. *)
Lemma stem_drops_directory_and_extension_witness :
  stem (String.list_ascii_of_string "in/a.png") = Ok (String.list_ascii_of_string "a").
Proof.
  refine (proj1 (stem_drops_directory_and_extension
            (String.list_ascii_of_string "in") (String.list_ascii_of_string "a")
            (String.list_ascii_of_string "png") _ _ _)); cbn; intros H;
    repeat (apply elem_of_cons in H as [H|H]; [discriminate H|]);
    by apply elem_of_nil in H.
Defined.

Section StandInExtras.
#[local] Existing Instance toy_externals.

Lemma toy_files_loadable :
  Forall (λ file, (3 ≤ length (shape (open_image toy_files file)))%nat
                  ∧ comparable toy_generator (open_image toy_files file))
         (glob toy_files (String.list_ascii_of_string "in/" ++ png_pattern)
          ++ glob toy_files (String.list_ascii_of_string "in/" ++ jpg_pattern)).
Proof.
  apply Forall_forall. intros file _. split; [exact toy_target_shape|].
  exact toy_comparable.
Qed.

(** X11 on the stand-ins: [in/b.png] and [in/a.jpg] are projected in sorted
    order, with 2100 steps, two latents and no image. *)
Lemma script_projects_directory_witness :
  ∃ outs s',
    main toy_files toy_generator (String.list_ascii_of_string "in/") toy_output_dir
         ∅ ∅ [] = Ok (outs, s')
    ∧ length (steps_log s') = 2100%nat
    ∧ map out_path outs
      = [String.list_ascii_of_string "out/a_p.latent.pt";
         String.list_ascii_of_string "out/b_p.latent.pt"].
Proof.
  destruct (script_projects_directory toy_files toy_generator
              (String.list_ascii_of_string "in/") toy_output_dir ∅ ∅ []
              eq_refl ltac:(done) toy_files_loadable)
    as (save_dir & outs & s' & Hsave & Hmain & _ & _ & _ & Hlen & Houts & _).
  vm_compute in Hsave. injection Hsave as <-.
  exists outs, s'. split; [exact Hmain|]. split; [exact Hlen|].
  change (sorted _) with [String.list_ascii_of_string "in/a.jpg";
                          String.list_ascii_of_string "in/b.png"] in Houts.
  inversion Houts as [|ft1 o1 fs1 os1 (n1 & d1 & Hn1 & ->) Houts1]; subst.
  inversion Houts1 as [|ft2 o2 fs2 os2 (n2 & d2 & Hn2 & ->) Houts2]; subst.
  inversion Houts2; subst.
  vm_compute in Hn1. injection Hn1 as <-.
  vm_compute in Hn2. injection Hn2 as <-.
  reflexivity.
Defined.

(** X12 on the stand-ins. *)
Lemma script_projects_file_witness :
  ∃ outs s',
    main toy_files toy_generator (String.list_ascii_of_string "in/a.png")
         toy_output_dir ∅ ∅ [] = Ok (outs, s')
    ∧ map out_path outs
      = [String.list_ascii_of_string "out/a_p.png";
         String.list_ascii_of_string "out/a_p.latent.pt"]
    ∧ length (steps_log s') = 2000%nat.
Proof.
  destruct (script_projects_file toy_files toy_generator
              (String.list_ascii_of_string "in/a.png") toy_output_dir ∅ ∅ []
              eq_refl ltac:(done) toy_target_shape toy_comparable)
    as (save_dir & name & s' & Hsave & Hname & Hmain & Hlog).
  vm_compute in Hsave. injection Hsave as <-.
  vm_compute in Hname. injection Hname as <-.
  eexists _, s'. split; [exact Hmain|]. split; [reflexivity|].
  rewrite Hlog. cbn [app]. by rewrite steps_of_length.
Defined.

(** X13 on the stand-ins: [run] with no step. *)
Lemma run_without_steps_witness :
  run toy_target 0 toy_state
  = Ok ((), set_self (set_target_image (Some (unsqueeze0 toy_target))
                        (set_num_steps 0 toy_projector)) toy_state).
Proof.
  exact (run_without_steps toy_target 0 toy_state ltac:(lia) toy_target_shape).
Defined.

(** X14 on the stand-ins. *)
Lemma run_divides_by_zero_ramp_witness :
  run toy_target 1 toy_no_rampdown = Raise ZeroDivisionError.
Proof.
  apply run_divides_by_zero_ramp; [lia|exact toy_target_shape|].
  right; left. reflexivity.
Defined.

(** X15 on the stand-ins. *)
Lemma run_rejects_flat_target_witness :
  run toy_matrix 1000 toy_state = Raise IndexError.
Proof. apply run_rejects_flat_target. cbn. lia. Defined.

Lemma toy_initial_lr : 0 <= initial_lr (self toy_state).
Proof. cbn. lra. Qed.

(** X16 on the stand-ins, half-way through a run. *)
Lemma update_lr_within_bounds_witness :
  ∃ s', update_lr 0.5 toy_state = Ok ((), s') ∧ 0 <= lr (self s') <= 0.1.
Proof.
  exact (update_lr_within_bounds 0.5 toy_state toy_constructed toy_positive_ramps
           toy_initial_lr ltac:(lra)).
Defined.

(** X17 on the stand-ins, within the ramp-up. *)
Lemma update_lr_trapezoid_witness :
  ∃ s1 s2, update_lr 0.01 toy_state = Ok ((), s1)
    ∧ update_lr 0.02 toy_state = Ok ((), s2)
    ∧ lr (self s1) <= lr (self s2).
Proof.
  destruct (update_lr_trapezoid 0.01 0.02 toy_state toy_constructed toy_positive_ramps
              toy_initial_lr ltac:(lra) ltac:(lra))
    as (s1 & s2 & H1 & H2 & Hrise & _).
  exists s1, s2. split; [exact H1|]. split; [exact H2|]. apply Hrise. cbn. lra.
Defined.

Lemma toy_gradients f x : same_shape x (autograd f x).
Proof. apply same_shape_mmap. Qed.

Lemma toy_entry_constructed : constructed toy_entry.
Proof.
  split; [by eexists|]. eexists. split; [apply lookup_singleton_eq|done].
Qed.

Lemma toy_entry_ramps : positive_ramps (self toy_entry).
Proof. unfold positive_ramps. cbn. lra. Qed.

Lemma toy_entry_shaped : well_shaped toy_entry.
Proof. intros st0 Hst. cbn in Hst. by rewrite lookup_empty in Hst. Qed.

(** X18 on the stand-ins: the first step of [run toy_target 1]. *)
Lemma step_keeps_shapes_witness :
  ∃ s', step toy_entry = Ok ((), s') ∧ well_shaped s'.
Proof.
  destruct (step_keeps_shapes toy_entry 0%Z (unsqueeze0 toy_target) toy_gradients
              toy_entry_constructed toy_entry_ramps eq_refl ltac:(discriminate) eq_refl
              toy_entry_shaped)
    as (s' & Hs' & _ & _ & Hw).
  by exists s'.
Defined.

(** X19 on the stand-ins: the first step of [run toy_target 1]. *)
Lemma first_step_keeps_latent_witness :
  ∃ s', step toy_entry = Ok ((), s') ∧ lr (self s') = 0
        ∧ tensor_value s' (latent_in (self s')) = tensor_value toy_entry 1%positive.
Proof.
  exact (first_step_keeps_latent toy_entry (unsqueeze0 toy_target) toy_gradients
           toy_entry_constructed toy_entry_ramps eq_refl ltac:(discriminate) eq_refl
           toy_entry_shaped).
Defined.

End StandInExtras.
